(** * Option-implied PDF visualizer: the numerical core

    A shallow embedding of [src/core/sabr.py], [src/core/breeden_litz.py],
    [src/core/statistics.py] and [src/core/patterns.py].

    Conventions of the embedding.
    - A Python/NumPy float is an exact rational ([float := Q]): every
      arithmetic operation of the code is the exact operation followed by
      [Qred], so results are in lowest terms and the code can be run on
      concrete inputs.  Properties are stated up to [==].  Rounding,
      infinities and NaN are outside the model.
    - A NumPy array is a [list float]; a DataFrame is a list of row
      records.
    - A Python exception is a value of [exn]; a function that can raise
      returns [Exc A]; a method that assigns to [self] returns the new object
      together with its result.
    - The transcendental functions and the SciPy solvers the code calls
      ([np.exp], [np.log], [np.sqrt], [**], [norm.cdf], [savgol_filter],
      [minimize], the evaluation of a [CubicSpline]) are the fields of the
      class [SciPy]; every statement holds for all of them, and [qsci] is a
      small rational instance used to run the code on concrete inputs. *)

From Stdlib Require Import String DecimalString.
From Stdlib Require Import QArith Qabs Qround Lqa Lia ZArith Bool Arith List Sorted Permutation.
Import ListNotations.
Open Scope string_scope.
Open Scope list_scope.
Open Scope Q_scope.

(** ** Exceptions *)

Inductive exn : Type :=
| ValueError (msg : string)
| IndexError (msg : string).

Inductive Exc (A : Type) : Type :=
| Ok (a : A)
| Raise (e : exn).
Arguments Ok {A} a.
Arguments Raise {A} e.

Definition bind {A B} (m : Exc A) (k : A -> Exc B) : Exc B :=
  match m with
  | Ok a => k a
  | Raise e => Raise e
  end.

Notation "x <- m ;; k" := (bind m (fun x => k))
  (at level 61, m at next level, right associativity).

Definition is_ok {A} (m : Exc A) : bool :=
  match m with Ok _ => true | Raise _ => false end.

(** [str(n)] for a non-negative integer, as an f-string prints it. *)
Definition str (n : nat) : string := NilEmpty.string_of_uint (Nat.to_uint n).

(** ** Float arithmetic *)

Definition float : Type := Q.

Declare Scope float_scope.
Delimit Scope float_scope with F.
Bind Scope float_scope with float.

Definition fadd (x y : float) : float := Qred (x + y)%Q.
Definition fsub (x y : float) : float := Qred (x - y)%Q.
Definition fmul (x y : float) : float := Qred (x * y)%Q.
Definition fdivide (x y : float) : float := Qred (x / y)%Q.
Definition fopp (x : float) : float := Qred (- x)%Q.
Definition fpow (x : float) (n : Z) : float := Qred (x ^ n)%Q.
Definition fabs (x : float) : float := Qabs x.

(** Comparisons, as booleans. *)
Definition fle (x y : float) : bool := Qle_bool x y.
Definition flt (x y : float) : bool := negb (Qle_bool y x).
Definition fgt (x y : float) : bool := flt y x.
Definition fge (x y : float) : bool := fle y x.
Definition feq (x y : float) : bool := Qeq_bool x y.

Infix "+" := fadd : float_scope.
Infix "-" := fsub : float_scope.
Infix "*" := fmul : float_scope.
Infix "/" := fdivide : float_scope.
Notation "- x" := (fopp x) : float_scope.
Infix "^" := fpow : float_scope.
Infix "<=?" := fle : float_scope.
Infix "<?" := flt : float_scope.
Infix ">?" := fgt : float_scope.
Infix ">=?" := fge : float_scope.
Infix "=?" := feq : float_scope.

Open Scope float_scope.

(** Python's builtin [max(a, b)] and [min(a, b)] on two floats. *)
Definition py_max (a b : float) : float := if b >? a then b else a.
Definition py_min (a b : float) : float := if b <? a then b else a.

(** ** config/constants.py *)

Class Constants : Type := {
  MIN_STRIKE_PCT : float;
  MAX_STRIKE_PCT : float;
  MIN_STRIKES_FOR_PDF : nat;
  PDF_GRID_POINTS : nat;
  SABR_BETA : float;
  SABR_INITIAL_ALPHA : float;
  SABR_INITIAL_RHO : float;
  SABR_INITIAL_NU : float
}.

(** The values of the module as shipped. *)
Definition constants_py : Constants := {|
  MIN_STRIKE_PCT := 0.80;
  MAX_STRIKE_PCT := 1.20;
  MIN_STRIKES_FOR_PDF := 10;
  PDF_GRID_POINTS := 500;
  SABR_BETA := 0.5;
  SABR_INITIAL_ALPHA := 0.2;
  SABR_INITIAL_RHO := - 0.3;
  SABR_INITIAL_NU := 0.3
|}.

(** ** NumPy array helpers *)

Module np.

Definition of_nat (n : nat) : float := inject_Z (Z.of_nat n).

Definition sum (a : list float) : float := fold_right fadd 0 a.

Definition mean (a : list float) : float := sum a / of_nat (length a).

Definition dot (u v : list float) : float :=
  sum (map (fun p => fst p * snd p) (combine u v)).

(** [np.maximum(a, 0)] *)
Definition maximum0 (a : list float) : list float :=
  map (fun v => if fle 0 v then v else 0) a.

(** [a / c] for an array [a] and a scalar [c] *)
Definition div_scalar (a : list float) (c : float) : list float :=
  map (fun v => v / c) a.

(** [a.min()] and [a.max()]; NumPy raises on an empty array. *)
Definition amin (a : list float) : Exc float :=
  match a with
  | [] => Raise (ValueError "zero-size array to reduction operation minimum which has no identity")
  | v :: t => Ok (fold_left (fun m w => if fle m w then m else w) t v)
  end.

Definition amax (a : list float) : Exc float :=
  match a with
  | [] => Raise (ValueError "zero-size array to reduction operation maximum which has no identity")
  | v :: t => Ok (fold_left (fun m w => if fle w m then m else w) t v)
  end.

(** [np.linspace(start, stop, num)]: [num] samples, [start + i*step] with
    [step = (stop - start) / (num - 1)], the last one set to [stop]. *)
Definition linspace (start stop : float) (num : nat) : list float :=
  match num with
  | O => []
  | S O => [start]
  | S div =>
      let step := (stop - start) / of_nat div in
      map (fun i => of_nat i * step + start) (seq 0 div) ++ [stop]
  end.

(** Interior points of [np.gradient(f, x)]: second-order differences on a
    grid that need not be uniform. *)
Fixpoint gradient_interior (f x : list float) : list float :=
  match f, x with
  | f0 :: ((f1 :: f2 :: _) as f'), x0 :: ((x1 :: x2 :: _) as x') =>
      let dx1 := x1 - x0 in
      let dx2 := x2 - x1 in
      let a := - dx2 / (dx1 * (dx1 + dx2)) in
      let b := (dx2 - dx1) / (dx1 * dx2) in
      let c := dx1 / (dx2 * (dx1 + dx2)) in
      (a * f0 + b * f1 + c * f2) :: gradient_interior f' x'
  | _, _ => []
  end.

(** One-sided first difference at the head of two parallel arrays. *)
Definition edge_diff (f x : list float) : float :=
  match f, x with
  | f0 :: f1 :: _, x0 :: x1 :: _ => (f1 - f0) / (x1 - x0)
  | _, _ => 0
  end.

(** [np.gradient(f, x)] with the default [edge_order=1]. *)
Definition gradient (f x : list float) : Exc (list float) :=
  if negb (length x =? length f)%nat then
    Raise (ValueError "when 1d, distances must match the length of the corresponding dimension")
  else if (length f <? 2)%nat then
    Raise (ValueError "Shape of array too small to calculate a numerical gradient, at least (edge_order + 1) elements are required.")
  else
    Ok (edge_diff f x :: gradient_interior f x ++ [edge_diff (rev f) (rev x)]).

(** [np.gradient(f)]: unit spacing. *)
Definition gradient_unit (f : list float) : Exc (list float) :=
  gradient f (map of_nat (seq 0 (length f))).

(** [scipy.integrate.trapezoid(y, x)] *)
Fixpoint trapezoid (y x : list float) : float :=
  match y, x with
  | y0 :: ((y1 :: _) as y'), x0 :: ((x1 :: _) as x') =>
      (x1 - x0) * (y0 + y1) / 2 + trapezoid y' x'
  | _, _ => 0
  end.

(** Running sums of the trapezoid areas, starting from [acc]. *)
Fixpoint cumtrapz_from (acc : float) (y x : list float) : list float :=
  match y, x with
  | y0 :: ((y1 :: _) as y'), x0 :: ((x1 :: _) as x') =>
      let acc' := acc + (x1 - x0) * (y0 + y1) / 2 in
      acc' :: cumtrapz_from acc' y' x'
  | _, _ => []
  end.

(** [scipy.integrate.cumulative_trapezoid(y, x, initial=0)] *)
Definition cumulative_trapezoid (y x : list float) : Exc (list float) :=
  match y with
  | [] => Raise (ValueError "At least one point is required along `axis`.")
  | _ => Ok (0 :: cumtrapz_from 0 y x)
  end.

(** [a[-1]] *)
Definition last_elt (a : list float) : Exc float :=
  match a with
  | [] => Raise (IndexError "index -1 is out of bounds for axis 0 with size 0")
  | v :: t => Ok (last t v)
  end.

(** Stable insertion sort of rows by a key, ascending. *)
Fixpoint insert_by {A} (key : A -> float) (a : A) (l : list A) : list A :=
  match l with
  | [] => [a]
  | b :: t => if flt (key a) (key b) then a :: l
              else b :: insert_by key a t
  end.

Definition sort_by {A} (key : A -> float) (l : list A) : list A :=
  fold_left (fun acc a => insert_by key a acc) l [].

(** The knots on either side of [v]: the first knot after [lo] that [stop]
    accepts closes the segment, and the last segment is taken when none
    does.  This is the segment a binary search finds on sorted knots. *)
Fixpoint segment (stop : float -> bool) (lo : float * float) (rest : list (float * float))
  : (float * float) * (float * float) :=
  match rest with
  | [] => (lo, lo)
  | hi :: [] => (lo, hi)
  | hi :: ((_ :: _) as rest') =>
      if stop (fst hi) then (lo, hi) else segment stop hi rest'
  end.

Definition lerp (v : float) (s : (float * float) * (float * float)) : float :=
  let '((x_lo, y_lo), (x_hi, y_hi)) := s in
  let slope := (y_hi - y_lo) / (x_hi - x_lo) in
  slope * (v - x_lo) + y_lo.

(** [np.interp(v, xp, fp)]: linear between the knots [xp[j] <= v < xp[j+1]],
    the end values outside them.  [xp] is expected to be sorted. *)
Definition interp (v : float) (xp fp : list float) : Exc float :=
  if negb (length xp =? length fp)%nat then
    Raise (ValueError "fp and xp are not of the same length.")
  else
    match combine xp fp with
    | [] => Raise (ValueError "array of sample points is empty")
    | k0 :: rest =>
        let kn := last rest k0 in
        if fle v (fst k0) then Ok (snd k0)
        else if fle (fst kn) v then Ok (snd kn)
        else Ok (lerp v (segment (fun x_hi => flt v x_hi) k0 rest))
    end.

(** [np.interp(grid, xp, fp)] on an array of points. *)
Fixpoint interp_array (grid xp fp : list float) : Exc (list float) :=
  match grid with
  | [] => (if negb (length xp =? length fp)%nat
           then Raise (ValueError "fp and xp are not of the same length.")
           else match xp with
                | [] => Raise (ValueError "array of sample points is empty")
                | _ => Ok []
                end)
  | v :: grid' =>
      y <- interp v xp fp ;;
      ys <- interp_array grid' xp fp ;;
      Ok (y :: ys)
  end.

(** [scipy.interpolate.interp1d(x, y, kind='linear',
    fill_value='extrapolate')]: the knots are sorted by [x] (stable), and
    a call takes the segment [x[i-1] < v <= x[i]] with [i] clipped to
    [1 .. len-1], so the end segments extend beyond the knots. *)
Definition interp1d (x y : list float) : Exc (float -> float) :=
  if negb (length x =? length y)%nat then
    Raise (ValueError "x and y arrays must be equal in length along interpolation axis.")
  else
    match sort_by fst (combine x y) with
    | [] => Raise (ValueError "x and y arrays must have at least 1 entries")
    | k0 :: rest =>
        Ok (fun v => lerp v (segment (fun x_hi => fle v x_hi) k0 rest))
    end.

End np.

(** ** The SciPy and NumPy primitives the model leaves open *)

Inductive method : Type := Nelder_Mead | L_BFGS_B.

(** [scipy.optimize.OptimizeResult], the two fields the code reads. *)
Record OptimizeResult : Type := {
  res_x : float * float * float;
  res_success : bool
}.

Class SciPy : Type := {
  np_exp : float -> float;
  np_log : float -> float;
  np_sqrt : float -> float;
  (** [a ** b] with a float exponent *)
  np_power : float -> float -> float;
  norm_cdf : float -> float;
  (** [savgol_filter(x, window_length, polyorder)] *)
  savgol_filter : list float -> Z -> Z -> Exc (list float);
  (** [minimize(fun, x0, method, bounds, options={'maxiter': n})] *)
  minimize : (float * float * float -> float) -> float * float * float -> method ->
             option (list (float * float)) -> Z -> Exc OptimizeResult;
  (** the value at a point of the cubic spline through the knots *)
  CubicSpline_eval : list float -> list float -> float -> float
}.

(** ** src/core/sabr.py *)

(** The rows [(strike, iv)] that pass
    [(implied_vols > 0) & (strikes > 0) & np.isfinite(implied_vols)];
    every rational is finite. *)
Definition np_isfinite (v : float) : bool := true.

Definition valid_mask (strikes implied_vols : list float) : list (float * float) :=
  filter (fun p => fgt (snd p) 0 && fgt (fst p) 0 && np_isfinite (snd p))
         (combine strikes implied_vols).

(** The dictionaries [calibrate] returns. *)
Inductive fit_stats : Type :=
| SabrStats (alpha rho nu beta rmse mae : float) (success : bool)
| SplineStats (method : string) (rmse : float) (success : bool).

Definition stats_success (s : fit_stats) : bool :=
  match s with
  | SabrStats _ _ _ _ _ _ b => b
  | SplineStats _ _ b => b
  end.

Module SABRModel.
Section WithSciPy.
Context {sci : SciPy} {cst : Constants}.

Record t : Type := {
  beta : float;
  alpha : option float;
  rho : option float;
  nu : option float;
  forward : option float;
  tau : option float;
  is_calibrated : bool
}.

Definition __init__ (beta : float) : t :=
  {| beta := beta; alpha := None; rho := None; nu := None;
     forward := None; tau := None; is_calibrated := false |}.

(** One strike of [_sabr_formula].  The [try/except] of the source around
    the non-ATM branch cannot fire on NumPy floats, which do not raise. *)
Definition sabr_vol (F alpha rho nu beta tau strike : float) : float :=
  let atm_vol := alpha / np_power F (1 - beta) in
  if flt (fabs (strike - F)) 0.000001 then
    atm_vol * (1 + ((1 - beta) ^ 2 / 24 * alpha ^ 2 / np_power F (2 - 2 * beta) +
                    0.25 * rho * beta * nu * alpha / np_power F (1 - beta) +
                    (2 - 3 * rho ^ 2) / 24 * nu ^ 2) * tau)
  else
    let FK := F * strike in
    let log_FK := np_log (F / strike) in
    let z := (nu / alpha) * np_power FK ((1 - beta) / 2) * log_FK in
    let x_z := np_log ((np_sqrt (1 - 2 * rho * z + z ^ 2) + z - rho) / (1 - rho)) in
    let x_z := if flt (fabs x_z) 0.0000000001 then z else x_z in
    let num := alpha in
    let denom := np_power FK ((1 - beta) / 2) *
                 (1 + (1 - beta) ^ 2 / 24 * log_FK ^ 2 +
                  (1 - beta) ^ 4 / 1920 * log_FK ^ 4) in
    let vol_term := num / denom * (z / x_z) in
    let correction :=
      1 + ((1 - beta) ^ 2 / 24 * alpha ^ 2 / np_power FK (1 - beta) +
           0.25 * rho * beta * nu * alpha / np_power FK ((1 - beta) / 2) +
           (2 - 3 * rho ^ 2) / 24 * nu ^ 2) * tau in
    vol_term * correction.

Definition _sabr_formula (K : list float) (F alpha rho nu beta tau : float) : list float :=
  map (sabr_vol F alpha rho nu beta tau) K.

Definition get_volatility (self : t) (strikes : list float) : Exc (list float) :=
  if negb (is_calibrated self) then
    Raise (ValueError "Model must be calibrated before getting volatilities")
  else
    match forward self, alpha self, rho self, nu self, tau self with
    | Some F, Some a, Some r, Some n, Some t0 =>
        Ok (_sabr_formula strikes F a r n (beta self) t0)
    | _, _, _, _, _ => Raise (ValueError "unsupported operand type(s): 'NoneType'")
    end.

(** The closure [objective] of [calibrate]; its [try/except] around
    [_sabr_formula] cannot fire either. *)
Definition objective (self : t) (strikes implied_vols : list float) (forward tau : float)
           (params : float * float * float) : float :=
  let '(alpha, rho, nu) := params in
  if fle alpha 0 || fle nu 0 || flt rho (-1) || fgt rho 1 then
    10000000000
  else
    let model_vols := _sabr_formula strikes forward alpha rho nu (beta self) tau in
    let errors := map (fun p => (fst p - snd p) ^ 2) (combine model_vols implied_vols) in
    np.sum errors.

Definition bounds : list (float * float) :=
  [ (0.001, 2.0); (- 0.999, 0.999); (0.001, 2.0) ].

Definition calibrate (self : t) (strikes implied_vols : list float) (forward tau : float)
           (initial_guess : option (float * float * float)) : t * Exc fit_stats :=
  let self := {| beta := beta self; alpha := alpha self; rho := rho self; nu := nu self;
                 forward := Some forward; tau := Some tau;
                 is_calibrated := is_calibrated self |} in
  let valid := valid_mask strikes implied_vols in
  let strikes := map fst valid in
  let implied_vols := map snd valid in
  if (length strikes <? 3)%nat then
    (self, Raise (ValueError "Need at least 3 valid strikes for calibration"))
  else
    let initial_guess :=
      match initial_guess with
      | None => (SABR_INITIAL_ALPHA, SABR_INITIAL_RHO, SABR_INITIAL_NU)
      | Some g => g
      end in
    let obj := objective self strikes implied_vols forward tau in
    let optimized :=
      result <- minimize obj initial_guess Nelder_Mead None 1000 ;;
      if negb (res_success result) then
        minimize obj initial_guess L_BFGS_B (Some bounds) 1000
      else Ok result in
    match optimized with
    | Raise e => (self, Raise e)
    | Ok result =>
        let '(a, r, n) := res_x result in
        let self := {| beta := beta self; alpha := Some a; rho := Some r; nu := Some n;
                       forward := Some forward; tau := Some tau;
                       is_calibrated := true |} in
        (self,
         model_vols <- get_volatility self strikes ;;
         let diffs := map (fun p => fst p - snd p) (combine model_vols implied_vols) in
         let rmse := np_sqrt (np.mean (map (fun d => d ^ 2) diffs)) in
         let mae := np.mean (map fabs diffs) in
         Ok (SabrStats a r n (beta self) rmse mae (res_success result)))
    end.

End WithSciPy.
End SABRModel.

Module CubicSplineInterpolator.
Section WithSciPy.
Context {sci : SciPy}.

(** [spline] holds the knots of the fitted [CubicSpline]. *)
Record t : Type := {
  spline : option (list float * list float);
  is_calibrated : bool
}.

Definition __init__ : t := {| spline := None; is_calibrated := false |}.

Fixpoint strictly_increasing (x : list float) : bool :=
  match x with
  | x0 :: ((x1 :: _) as x') => flt x0 x1 && strictly_increasing x'
  | _ => true
  end.

(** [CubicSpline(x, y, extrapolate=True)]: SciPy's constructor validates
    the knots and raises [ValueError] on fewer than two of them or when
    they are not strictly increasing. *)
Definition CubicSpline (x y : list float) : Exc (list float * list float) :=
  if (length x <? 2)%nat then
    Raise (ValueError "`x` must contain at least 2 elements.")
  else if negb (strictly_increasing x) then
    Raise (ValueError "`x` must be strictly increasing sequence.")
  else Ok (x, y).

Definition calibrate (self : t) (strikes implied_vols : list float) : t * Exc fit_stats :=
  let valid := valid_mask strikes implied_vols in
  let sorted := np.sort_by fst valid in
  let strikes := map fst sorted in
  let implied_vols := map snd sorted in
  match CubicSpline strikes implied_vols with
  | Raise e => (self, Raise e)
  | Ok sp =>
      let self := {| spline := Some sp; is_calibrated := true |} in
      let model_vols := map (CubicSpline_eval (fst sp) (snd sp)) strikes in
      let diffs := map (fun p => fst p - snd p) (combine model_vols implied_vols) in
      let rmse := np_sqrt (np.mean (map (fun d => d ^ 2) diffs)) in
      (self, Ok (SplineStats "cubic_spline" rmse true))
  end.

Definition get_volatility (self : t) (strikes : list float) : Exc (list float) :=
  if negb (is_calibrated self) then
    Raise (ValueError "Spline must be calibrated first")
  else
    match spline self with
    | Some sp => Ok (map (CubicSpline_eval (fst sp) (snd sp)) strikes)
    | None => Raise (ValueError "'NoneType' object is not callable")
    end.

End WithSciPy.
End CubicSplineInterpolator.

(** The object [calibrate_volatility_surface] returns: either class. *)
Inductive vol_model : Type :=
| SABR_model (m : SABRModel.t)
| Spline_model (m : CubicSplineInterpolator.t).

Section Calibrate.
Context {sci : SciPy} {cst : Constants}.

Definition vol_model_get_volatility (m : vol_model) (strikes : list float) : Exc (list float) :=
  match m with
  | SABR_model s => SABRModel.get_volatility s strikes
  | Spline_model s => CubicSplineInterpolator.get_volatility s strikes
  end.

(** [calibrate_volatility_surface]: the message printed on the fallback is
    left out. *)
Definition calibrate_volatility_surface (strikes implied_vols : list float)
           (forward tau : float) (method : string) : Exc (vol_model * fit_stats) :=
  let attempt :=
    if String.eqb method "sabr" then
      match SABRModel.calibrate (SABRModel.__init__ SABR_BETA)
                                strikes implied_vols forward tau None with
      | (model, Ok stats) => (method, Some (SABR_model model, stats))
      | (_, Raise e) => ("spline", None)
      end
    else (method, None) in
  match attempt with
  | (_, Some r) => Ok r
  | (method, None) =>
      if String.eqb method "spline" then
        match CubicSplineInterpolator.calibrate CubicSplineInterpolator.__init__
                                                strikes implied_vols with
        | (model, Ok stats) => Ok (Spline_model model, stats)
        | (_, Raise e) => Raise e
        end
      else Raise (ValueError (String.append "Unknown method: " method))
  end.

End Calibrate.

(** ** src/core/breeden_litz.py *)

(** One row of the options DataFrame, with the columns the code reads.  The
    [price] column is always present, so the branch of the source that would
    derive it from [bid] and [ask] is never taken. *)
Record OptionRow : Type := {
  strike : float;
  price : float;
  impliedVolatility : float
}.

Module BreedenlitzenbergPDF.
Section WithSciPy.
Context {sci : SciPy} {cst : Constants}.

Record t : Type := {
  pdf : option (list float);
  strikes : option (list float);
  cdf : option (list float);
  spot : option float;
  (** [risk_free_rate], [time_to_expiry], [option_type]; [None] is [{}] *)
  params : option (float * float * string)
}.

Definition __init__ : t :=
  {| pdf := None; strikes := None; cdf := None; spot := None; params := None |}.

Definition _black_scholes_call (K : list float) (S r T : float) (sigma : list float) : list float :=
  map (fun p =>
         let '(k, sg) := p in
         let d1 := (np_log (S / k) + (r + 0.5 * sg ^ 2) * T) / (sg * np_sqrt T) in
         let d2 := d1 - sg * np_sqrt T in
         S * norm_cdf d1 - k * np_exp (- r * T) * norm_cdf d2)
      (combine K sigma).

Definition _black_scholes_put (K : list float) (S r T : float) (sigma : list float) : list float :=
  map (fun p =>
         let '(k, sg) := p in
         let d1 := (np_log (S / k) + (r + 0.5 * sg ^ 2) * T) / (sg * np_sqrt T) in
         let d2 := d1 - sg * np_sqrt T in
         k * np_exp (- r * T) * norm_cdf (- d2) - S * norm_cdf (- d1))
      (combine K sigma).

(** [min(51, len(pdf) if len(pdf) % 2 == 1 else len(pdf) - 1)] *)
Definition window_length (n : nat) : Z :=
  let len := Z.of_nat n in
  Z.min 51 (if (len mod 2 =? 1)%Z then len else (len - 1)%Z).

(** The smoothing block: any exception of the filter is swallowed and the
    clipped curve is kept. *)
Definition smooth (pdf : list float) : list float :=
  let w := window_length (length pdf) in
  let attempt :=
    if (5 <=? w)%Z then
      sm <- savgol_filter pdf w 3 ;;
      Ok (np.maximum0 sm)
    else Ok pdf in
  match attempt with
  | Ok p => p
  | Raise _ => pdf
  end.

(** The second strike derivative before scaling, clipping and smoothing. *)
Definition second_derivative (strikes call_prices : list float) : Exc (list float) :=
  dC_dK <- np.gradient call_prices strikes ;;
  np.gradient dC_dK strikes.

(** [dK] is computed and never read. *)
Definition _breeden_litzenberger (strikes call_prices : list float) (r T : float)
  : Exc (list float) :=
  dK <- np.gradient_unit strikes ;;
  d2C_dK2 <- second_derivative strikes call_prices ;;
  let pdf := map (fun v => np_exp (r * T) * v) d2C_dK2 in
  let pdf := np.maximum0 pdf in
  Ok (smooth pdf).

Definition _normalize_pdf (strikes pdf : list float) : Exc (list float) :=
  let integral := np.trapezoid pdf strikes in
  if fle integral 0 then
    Raise (ValueError "PDF integral is zero or negative - invalid PDF")
  else Ok (np.div_scalar pdf integral).

Definition _calculate_cdf (strikes pdf : list float) : Exc (list float) :=
  cdf <- np.cumulative_trapezoid pdf strikes ;;
  last <- np.last_elt cdf ;;
  Ok (if fgt last 0 then np.div_scalar cdf last else cdf).

(** The boolean mask of the strike-band filter. *)
Definition in_band (min_strike max_strike : float) (row : OptionRow) : bool :=
  fge (strike row) min_strike && fle (strike row) max_strike
  && fgt (price row) 0.

(** [df.sort_values('strike')] is [np.sort_by strike]: rows of equal strike
    keep their order here, where pandas leaves it open. *)
Definition calculate_from_options (self : t) (options_df : list OptionRow)
           (spot_price risk_free_rate time_to_expiry : float)
           (option_type interpolation_method : string)
  : t * Exc (list float * list float) :=
  let self := {| pdf := pdf self; strikes := strikes self; cdf := cdf self;
                 spot := Some spot_price;
                 params := Some (risk_free_rate, time_to_expiry, option_type) |} in
  let min_strike := spot_price * MIN_STRIKE_PCT in
  let max_strike := spot_price * MAX_STRIKE_PCT in
  let df := filter (in_band min_strike max_strike) options_df in
  if (length df <? MIN_STRIKES_FOR_PDF)%nat then
    (self, Raise (ValueError
       (String.append "Need at least "
          (String.append (str MIN_STRIKES_FOR_PDF)
             (String.append " strikes, got " (str (length df)))))))
  else
    let df := np.sort_by strike df in
    let market_strikes := map strike df in
    let market_ivs := map impliedVolatility df in
    let forward := spot_price * np_exp (risk_free_rate * time_to_expiry) in
    let strike_grid := np.linspace min_strike max_strike PDF_GRID_POINTS in
    let density :=
      cal <- calibrate_volatility_surface market_strikes market_ivs forward
                                          time_to_expiry interpolation_method ;;
      let vol_model := fst cal in
      interp_ivs <- vol_model_get_volatility vol_model strike_grid ;;
      let interp_prices :=
        if String.eqb option_type "call" then
          _black_scholes_call strike_grid spot_price risk_free_rate
                              time_to_expiry interp_ivs
        else
          _black_scholes_put strike_grid spot_price risk_free_rate
                             time_to_expiry interp_ivs in
      pdf <- _breeden_litzenberger strike_grid interp_prices
                                   risk_free_rate time_to_expiry ;;
      _normalize_pdf strike_grid pdf in
    match density with
    | Raise e => (self, Raise e)
    | Ok pdf' =>
        let self := {| pdf := Some pdf'; strikes := Some strike_grid; cdf := cdf self;
                       spot := spot self; params := params self |} in
        match _calculate_cdf strike_grid pdf' with
        | Raise e => (self, Raise e)
        | Ok cdf' =>
            ({| pdf := pdf self; strikes := strikes self; cdf := Some cdf';
                spot := spot self; params := params self |},
             Ok (strike_grid, pdf'))
        end
    end.

Definition get_probability (self : t) (strike_level : float) (condition : string)
  : t * Exc float :=
  match cdf self, strikes self with
  | Some cdf, Some strikes =>
      (self,
       cdf_interp <- np.interp1d strikes cdf ;;
       let prob_below := cdf_interp strike_level in
       if String.eqb condition "below" then Ok prob_below
       else if String.eqb condition "above" then Ok (1 - prob_below)
       else Raise (ValueError "condition must be 'below' or 'above'"))
  | _, _ => (self, Raise (ValueError "PDF must be calculated first"))
  end.

Definition get_probability_range (self : t) (lower_strike upper_strike : float)
  : t * Exc float :=
  let '(self, upper) := get_probability self upper_strike "below" in
  match upper with
  | Raise e => (self, Raise e)
  | Ok prob_below_upper =>
      let '(self, lower) := get_probability self lower_strike "below" in
      (self, prob_below_lower <- lower ;; Ok (prob_below_upper - prob_below_lower))
  end.

End WithSciPy.
End BreedenlitzenbergPDF.

Section Convenience.
Context {sci : SciPy} {cst : Constants}.

(** The module-level [calculate_pdf_from_options], with the two keyword
    arguments it forwards. *)
Definition calculate_pdf_from_options (options_df : list OptionRow)
           (spot_price risk_free_rate time_to_expiry : float)
           (option_type interpolation_method : string)
  : Exc (list float * list float) :=
  snd (BreedenlitzenbergPDF.calculate_from_options BreedenlitzenbergPDF.__init__
         options_df spot_price risk_free_rate time_to_expiry
         option_type interpolation_method).

End Convenience.

(** ** src/core/statistics.py *)

(** A NumPy float division by zero does not raise: it yields [inf] or [nan]
    and a warning.  The statistics model keeps that outcome apart from the
    finite results. *)
Inductive fval : Type :=
| Finite (q : float)
| NonFinite.

Definition checked_div (a b : float) : fval :=
  if feq b 0 then NonFinite else Finite (a / b).

(** [a / c] on an array: every entry is divided by [c]. *)
Definition array_checked_div (a : list float) (c : float) : option (list float) :=
  if feq c 0 then None else Some (np.div_scalar a c).

Module PDFStatistics.
Section WithSciPy.
Context {sci : SciPy}.

Record t : Type := {
  strikes : list float;
  pdf : list float;
  spot : float;
  T : float
}.

(** [a * b] on two arrays *)
Definition times (a b : list float) : list float :=
  map (fun p => fst p * snd p) (combine a b).

Definition calculate_mean (self : t) : float :=
  np.trapezoid (times (strikes self) (pdf self)) (strikes self).

Definition calculate_variance (self : t) (mean : option float) : float :=
  let mean := match mean with None => calculate_mean self | Some m => m end in
  np.trapezoid (times (map (fun k => (k - mean) ^ 2) (strikes self)) (pdf self))
               (strikes self).

Definition calculate_skewness (self : t) (mean std : option float) : fval :=
  let mean := match mean with None => calculate_mean self | Some m => m end in
  let std := match std with
             | None => np_sqrt (calculate_variance self (Some mean))
             | Some s => s
             end in
  if feq std 0 then Finite 0
  else
    let third_moment :=
      np.trapezoid (times (map (fun k => (k - mean) ^ 3) (strikes self)) (pdf self))
                   (strikes self) in
    checked_div third_moment (std ^ 3).

Definition calculate_kurtosis (self : t) (mean std : option float) : fval :=
  let mean := match mean with None => calculate_mean self | Some m => m end in
  let std := match std with
             | None => np_sqrt (calculate_variance self (Some mean))
             | Some s => s
             end in
  if feq std 0 then Finite 0
  else
    let fourth_moment :=
      np.trapezoid (times (map (fun k => (k - mean) ^ 4) (strikes self)) (pdf self))
                   (strikes self) in
    match checked_div fourth_moment (std ^ 4) with
    | Finite q => Finite (q - 3)
    | NonFinite => NonFinite
    end.

(** [calculate_percentile]: once the CDF has been divided by a zero last
    entry its entries are [nan] or [inf], and so is what is interpolated
    from them. *)
Definition calculate_percentile (self : t) (percentile : float) : Exc fval :=
  cdf <- np.cumulative_trapezoid (pdf self) (strikes self) ;;
  last <- np.last_elt cdf ;;
  match array_checked_div cdf last with
  | None => Ok NonFinite
  | Some cdf =>
      let percentile_val := percentile / 100 in
      strike_at_percentile <- np.interp percentile_val cdf (strikes self) ;;
      Ok (Finite strike_at_percentile)
  end.

(** [np.argmax(a)]: the index of the first largest entry. *)
Fixpoint argmax_from (best : float) (best_i i : nat) (a : list float) : nat :=
  match a with
  | [] => best_i
  | v :: a' => if best <? v then argmax_from v i (S i) a'
               else argmax_from best best_i (S i) a'
  end.

Definition argmax (a : list float) : Exc nat :=
  match a with
  | [] => Raise (ValueError "attempt to get argmax of an empty sequence")
  | v :: a' => Ok (argmax_from v 0 1 a')
  end.

(** [a[i]] for a non-negative index. *)
Definition getitem (a : list float) (i : nat) : Exc float :=
  match nth_error a i with
  | Some v => Ok v
  | None => Raise (IndexError "index is out of bounds for axis 0")
  end.

(** [calculate_tail_probability]: the boolean mask is built from [strikes]
    and indexes both arrays, which NumPy refuses when their lengths differ. *)
Definition calculate_tail_probability (self : t) (percent_move : float) : Exc float :=
  let target_price := spot self * (1 + percent_move / 100) in
  let mask :=
    if percent_move <? 0 then (fun k : float => k <=? target_price)
    else (fun k : float => k >=? target_price) in
  if negb (length (pdf self) =? length (strikes self))%nat then
    Raise (IndexError "boolean index did not match indexed array along axis 0")
  else
    let kept := filter (fun p => mask (fst p)) (combine (strikes self) (pdf self)) in
    Ok (np.trapezoid (map snd kept) (map fst kept)).

(** The dictionary [_calculate_all_statistics] builds, one field per key. *)
Record summary : Type := {
  s_mean : float;
  s_variance : float;
  s_std : float;
  s_skewness : fval;
  s_excess_kurtosis : fval;
  s_implied_move_pct : fval;
  s_implied_volatility : fval;
  s_median : fval;
  s_mode : float;
  s_prob_down_5pct : float;
  s_prob_up_5pct : float;
  s_prob_down_10pct : float;
  s_prob_up_10pct : float;
  s_risk_neutral_drift_pct : fval;
  s_ci_95_lower : fval;
  s_ci_95_upper : fval;
  s_ci_68_lower : fval;
  s_ci_68_upper : fval
}.

(** [q * c] when [q] is a number. *)
Definition fval_times (q : fval) (c : float) : fval :=
  match q with
  | Finite v => Finite (v * c)
  | NonFinite => NonFinite
  end.

Definition _calculate_all_statistics (self : t) : Exc summary :=
  let mean := calculate_mean self in
  let variance := calculate_variance self (Some mean) in
  let std := np_sqrt variance in
  let skewness := calculate_skewness self (Some mean) (Some std) in
  let excess_kurtosis := calculate_kurtosis self (Some mean) (Some std) in
  let implied_move_pct := fval_times (checked_div std (spot self)) 100 in
  let implied_volatility := checked_div std (spot self * np_sqrt (T self)) in
  median <- calculate_percentile self 50 ;;
  max_idx <- argmax (pdf self) ;;
  mode <- getitem (strikes self) max_idx ;;
  prob_down_5pct <- calculate_tail_probability self (- 5) ;;
  prob_up_5pct <- calculate_tail_probability self 5 ;;
  prob_down_10pct <- calculate_tail_probability self (- 10) ;;
  prob_up_10pct <- calculate_tail_probability self 10 ;;
  let risk_neutral_drift_pct :=
    fval_times (checked_div (mean - spot self) (spot self)) 100 in
  ci_95_lower <- calculate_percentile self 2.5 ;;
  ci_95_upper <- calculate_percentile self 97.5 ;;
  ci_68_lower <- calculate_percentile self 16 ;;
  ci_68_upper <- calculate_percentile self 84 ;;
  Ok {| s_mean := mean; s_variance := variance; s_std := std;
        s_skewness := skewness; s_excess_kurtosis := excess_kurtosis;
        s_implied_move_pct := implied_move_pct;
        s_implied_volatility := implied_volatility;
        s_median := median; s_mode := mode;
        s_prob_down_5pct := prob_down_5pct; s_prob_up_5pct := prob_up_5pct;
        s_prob_down_10pct := prob_down_10pct; s_prob_up_10pct := prob_up_10pct;
        s_risk_neutral_drift_pct := risk_neutral_drift_pct;
        s_ci_95_lower := ci_95_lower; s_ci_95_upper := ci_95_upper;
        s_ci_68_lower := ci_68_lower; s_ci_68_upper := ci_68_upper |}.

End WithSciPy.
End PDFStatistics.

(** ** src/core/patterns.py *)

Module PDFPatternMatcher.
Section WithSciPy.
Context {sci : SciPy}.

(** [scipy.spatial.distance.cosine(u, v)]: [1 - u.v / sqrt(u.u * v.v)],
    clipped to [[0, 2]]; it raises on arrays of different lengths. *)
Definition cosine (u v : list float) : Exc float :=
  if negb (length u =? length v)%nat then
    Raise (ValueError "shapes not aligned")
  else
    let uv := np.dot u v in
    let uu := np.dot u u in
    let vv := np.dot v v in
    let dist := 1 - uv / np_sqrt (uu * vv) in
    Ok (py_max 0 (py_min dist 2)).

(** The grid both densities are re-sampled on. *)
Definition common_grid (strikes1 strikes2 : list float) : Exc (list float) :=
  lo1 <- np.amin strikes1 ;;
  lo2 <- np.amin strikes2 ;;
  let min_strike := py_max lo1 lo2 in
  hi1 <- np.amax strikes1 ;;
  hi2 <- np.amax strikes2 ;;
  let max_strike := py_min hi1 hi2 in
  Ok (np.linspace min_strike max_strike 100).

Definition _pdf_shape_similarity (pdf1 strikes1 pdf2 strikes2 : list float) : Exc float :=
  common_grid <- common_grid strikes1 strikes2 ;;
  pdf1_interp <- np.interp_array common_grid strikes1 pdf1 ;;
  pdf2_interp <- np.interp_array common_grid strikes2 pdf2 ;;
  let pdf1_norm := np.div_scalar pdf1_interp (np.trapezoid pdf1_interp common_grid) in
  let pdf2_norm := np.div_scalar pdf2_interp (np.trapezoid pdf2_interp common_grid) in
  let similarity :=
    match cosine pdf1_norm pdf2_norm with
    | Ok d => 1 - d
    | Raise _ => 0
    end in
  Ok (py_max 0 (py_min 1 similarity)).

(** A statistics dictionary, and [d.get(key)]. *)
Definition dict : Type := list (string * float).

Fixpoint dict_get {V} (d : list (string * V)) (key : string) : option V :=
  match d with
  | [] => None
  | (k, v) :: d' => if String.eqb k key then Some v else dict_get d' key
  end.

Definition features : list string :=
  ["skewness"; "excess_kurtosis"; "implied_move_pct"].

(** The similarity of one feature, when both dictionaries hold it. *)
Definition feature_similarity (stats1 stats2 : dict) (feature : string) : list float :=
  match dict_get stats1 feature, dict_get stats2 feature with
  | Some val1, Some val2 =>
      let scale :=
        if String.eqb feature "skewness" || String.eqb feature "excess_kurtosis"
        then 1.0 else 5.0 in
      let diff := fabs (val1 - val2) in
      [np_exp (- diff / scale)]
  | _, _ => []
  end.

Definition _stats_similarity (stats1 stats2 : dict) : float :=
  let similarities := flat_map (feature_similarity stats1 stats2) features in
  match similarities with
  | [] => 0.5
  | _ => np.mean similarities
  end.

Definition _calculate_similarity (current_pdf current_strikes : list float)
           (current_stats : dict) (hist_pdf hist_strikes : list float)
           (hist_stats : dict) : Exc float :=
  shape_sim <- _pdf_shape_similarity current_pdf current_strikes
                                     hist_pdf hist_strikes ;;
  let stats_sim := _stats_similarity current_stats hist_stats in
  let combined_score := 0.7 * shape_sim + 0.3 * stats_sim in
  Ok combined_score.

(** One entry of [historical_data]; [metadata] is the optional key. *)
Record hist_data : Type := {
  h_date : string;
  h_pdf : list float;
  h_strikes : list float;
  h_stats : dict;
  h_metadata : option (list (string * string))
}.

(** One entry of the list [find_similar_patterns] returns. *)
Record pattern_match : Type := {
  m_date : string;
  m_similarity : float;
  m_stats : dict;
  m_metadata : list (string * string);
  m_description : string
}.

(** [", ".join(parts)] *)
Fixpoint join (parts : list string) : string :=
  match parts with
  | [] => ""
  | [p] => p
  | p :: parts' => String.append p (String.append ", " (join parts'))
  end.

Definition _generate_description (h : hist_data) : string :=
  let stats := h_stats h in
  let metadata := match h_metadata h with Some m => m | None => [] end in
  let skew := match dict_get stats "skewness" with Some v => v | None => 0 end in
  let skew_part :=
    if skew <? - 0.3 then "heavy left tail"
    else if skew >? 0.3 then "heavy right tail"
    else "symmetric" in
  let impl_move :=
    match dict_get stats "implied_move_pct" with Some v => v | None => 0 end in
  let vol_part :=
    if impl_move >? 4 then "high volatility"
    else if impl_move <? 2 then "low volatility"
    else "moderate volatility" in
  let event_part :=
    match dict_get metadata "event" with
    | Some e => [String.append "(" (String.append e ")")]
    | None => []
    end in
  join ([skew_part; vol_part] ++ event_part).

(** The matcher object. *)
Record t : Type := {
  similarity_threshold : float;
  max_matches : Z
}.

(** [matches.sort(key=similarity, reverse=True)]: a stable sort, highest
    first. *)
Fixpoint insert_desc (m : pattern_match) (l : list pattern_match)
  : list pattern_match :=
  match l with
  | [] => [m]
  | b :: l' => if m_similarity b <? m_similarity m then m :: l
               else b :: insert_desc m l'
  end.

Definition sort_desc (l : list pattern_match) : list pattern_match :=
  fold_left (fun acc m => insert_desc m acc) l [].

(** [a[:n]] for an integer [n], negative counting from the end. *)
Definition slice_to {A} (a : list A) (n : Z) : list A :=
  if (0 <=? n)%Z then firstn (Z.to_nat n) a
  else firstn (length a - Z.to_nat (- n)) a.

(** The loop of [find_similar_patterns]. *)
Fixpoint collect_matches (self : t) (current_pdf current_strikes : list float)
         (current_stats : dict) (historical_data : list hist_data)
  : Exc (list pattern_match) :=
  match historical_data with
  | [] => Ok []
  | h :: rest =>
      similarity_score <- _calculate_similarity current_pdf current_strikes
                            current_stats (h_pdf h) (h_strikes h) (h_stats h) ;;
      matches <- collect_matches self current_pdf current_strikes
                                 current_stats rest ;;
      if similarity_score >=? similarity_threshold self then
        Ok ({| m_date := h_date h;
               m_similarity := similarity_score;
               m_stats := h_stats h;
               m_metadata := match h_metadata h with Some m => m | None => [] end;
               m_description := _generate_description h |} :: matches)
      else Ok matches
  end.

Definition find_similar_patterns (self : t) (current_pdf current_strikes : list float)
           (current_stats : dict) (historical_data : list hist_data)
  : Exc (list pattern_match) :=
  match historical_data with
  | [] => Ok []
  | _ =>
      matches <- collect_matches self current_pdf current_strikes
                                 current_stats historical_data ;;
      Ok (slice_to (sort_desc matches) (max_matches self))
  end.

End WithSciPy.
End PDFPatternMatcher.

(** ** A rational instance of the primitives

    Crude rational stand-ins, enough to run the code above on concrete
    inputs: truncated series for [exp] and [log] rounded to six decimals, a
    square root to six decimals that is exact on squares of such numbers, a
    five-point smoothing kernel, a piecewise-linear spline, and two
    optimizers that stop at the initial guess, one reporting success and one
    not. *)

Module Rational.

(** [x] rounded down to six decimals. *)
Definition round6 (x : float) : float :=
  Qred (Qfloor (x * 1000000)%Q # 1000000).

Definition exp (x : float) : float :=
  round6 (if fle 0 x then 1 + x + x ^ 2 / 2 else 1 / (1 - x + x ^ 2 / 2)).

Definition log (x : float) : float :=
  let t := (x - 1) / (x + 1) in
  round6 (2 * (t + t ^ 3 / 3)).

Definition sqrt (x : float) : float :=
  let r := Qred x in
  Qred (Z.sqrt (Qnum r * QDen r * 10 ^ 12)%Z # (Qden r * 10 ^ 6)%positive).

Definition power (x y : float) : float :=
  if feq y 1 then x
  else if feq y (1 # 2) then sqrt x
  else if feq y (1 # 4) then sqrt (sqrt x)
  else 1.

Definition norm_cdf (x : float) : float :=
  round6 ((1 # 2) + x / (2 * (1 + fabs x))).

(** [(-3, 12, 17, 12, -3) / 35] in the interior, the two points at either
    end kept. *)
Fixpoint kernel5 (a : list float) : list float :=
  match a with
  | a0 :: ((a1 :: a2 :: a3 :: a4 :: _) as a') =>
      ((-3) * a0 + 12 * a1 + 17 * a2 + 12 * a3 - 3 * a4) / 35 :: kernel5 a'
  | _ => []
  end.

Definition savgol (a : list float) (window_length polyorder : Z) : Exc (list float) :=
  if (length a <? 5)%nat then Ok a
  else Ok (firstn 2 a ++ kernel5 a ++ skipn (length a - 2) a).

Definition minimize_at_guess (reports : bool) (f : float * float * float -> float) (x0 : float * float * float)
           (m : method) (bounds : option (list (float * float))) (maxiter : Z)
  : Exc OptimizeResult :=
  Ok {| res_x := x0; res_success := reports |}.

Definition spline_eval (x y : list float) (v : float) : float :=
  match combine x y with
  | [] => 0
  | k0 :: rest =>
      np.lerp v (np.segment (fun x_hi => fle v x_hi) k0 rest)
  end.

End Rational.

Definition qsci : SciPy := {|
  np_exp := Rational.exp;
  np_log := Rational.log;
  np_sqrt := Rational.sqrt;
  np_power := Rational.power;
  norm_cdf := Rational.norm_cdf;
  savgol_filter := Rational.savgol;
  minimize := Rational.minimize_at_guess true;
  CubicSpline_eval := Rational.spline_eval
|}.

(** The same with an optimizer that never reports success. *)
Definition qsci_stalled : SciPy := {|
  np_exp := Rational.exp;
  np_log := Rational.log;
  np_sqrt := Rational.sqrt;
  np_power := Rational.power;
  norm_cdf := Rational.norm_cdf;
  savgol_filter := Rational.savgol;
  minimize := Rational.minimize_at_guess false;
  CubicSpline_eval := Rational.spline_eval
|}.

(** A small configuration: the shipped percentages on a coarse grid. *)
Definition constants_small : Constants := {|
  MIN_STRIKE_PCT := 0.80;
  MAX_STRIKE_PCT := 1.20;
  MIN_STRIKES_FOR_PDF := 3;
  PDF_GRID_POINTS := 9;
  SABR_BETA := 0.5;
  SABR_INITIAL_ALPHA := 0.2;
  SABR_INITIAL_RHO := - 0.3;
  SABR_INITIAL_NU := 0.3
|}.

(** A flat 20% smile on five strikes around a spot of 100. *)
Definition flat_chain : list OptionRow :=
  map (fun k => {| strike := k; price := 1; impliedVolatility := 0.2 |})
      [90; 95; 100; 105; 110].

(** ** Concrete inputs and auxiliary notions used by the statements *)

(** The order of a non-increasing array. *)
Definition down (a b : Q) : Prop := b <= a.

Abbreviation run_flat option_type interpolation_method :=
  (@BreedenlitzenbergPDF.calculate_from_options qsci constants_small
     BreedenlitzenbergPDF.__init__ flat_chain 100 0.05 (1 # 12)
     option_type interpolation_method) (only parsing).


(** A concave price curve on six strikes. *)
Definition concave_strikes : list float := [90; 95; 100; 105; 110; 115].
Definition concave_prices : list float := [0; 4; 6; 6; 4; 0].

Definition concave_d2 : Exc (list float) :=
  Eval vm_compute in
    BreedenlitzenbergPDF.second_derivative concave_strikes concave_prices.

(** A three-point CDF on the strikes 90, 100, 110. *)
Definition fitted : BreedenlitzenbergPDF.t :=
  {| BreedenlitzenbergPDF.pdf := Some [0; 0.1; 0];
     BreedenlitzenbergPDF.strikes := Some [90; 100; 110];
     BreedenlitzenbergPDF.cdf := Some [0; 0.5; 1];
     BreedenlitzenbergPDF.spot := Some 100;
     BreedenlitzenbergPDF.params := Some (0.05, 1 # 12, "call") |}.

(** A density that is zero on its whole grid. *)
Definition flat_zero : PDFStatistics.t :=
  {| PDFStatistics.strikes := [100; 110; 120];
     PDFStatistics.pdf := [0; 0; 0];
     PDFStatistics.spot := 110;
     PDFStatistics.T := 1 # 12 |}.

(** How many of the points sit at strike [k]. *)
Definition points_at (k : float) (pts : list (float * float)) : nat :=
  length (filter (fun p => feq (fst p) k) pts).

(** Five strikes with a flat 20% smile. *)
Definition smile_strikes : list float := [90; 95; 100; 105; 110].
Definition smile_ivs : list float := [0.2; 0.2; 0.2; 0.2; 0.2].

(** The same primitives with a normal CDF that is not rounded, so that it
    keeps the symmetry [Phi(x) + Phi(-x) = 1] exactly. *)
Definition qsci_symmetric : SciPy := {|
  np_exp := Rational.exp;
  np_log := Rational.log;
  np_sqrt := Rational.sqrt;
  np_power := Rational.power;
  norm_cdf := fun x => Qred ((1 # 2) + x / (2 * (1 + Qabs x)))%Q;
  savgol_filter := Rational.savgol;
  minimize := Rational.minimize_at_guess true;
  CubicSpline_eval := Rational.spline_eval
|}.

(** A triangular density on five strikes; it integrates to 1. *)
Definition tent : PDFStatistics.t :=
  {| PDFStatistics.strikes := [90; 95; 100; 105; 110];
     PDFStatistics.pdf := [0; 0.05; 0.1; 0.05; 0];
     PDFStatistics.spot := 100;
     PDFStatistics.T := 1 # 12 |}.

(** Two days of history, and a matcher that keeps the best match above
    one half. *)
Definition two_days : list PDFPatternMatcher.hist_data :=
  [ {| PDFPatternMatcher.h_date := "2024-01-05";
       PDFPatternMatcher.h_pdf := [1; 3; 1];
       PDFPatternMatcher.h_strikes := [1; 2; 3];
       PDFPatternMatcher.h_stats := [("skewness", 0.1)];
       PDFPatternMatcher.h_metadata := Some [("event", "CPI")] |};
    {| PDFPatternMatcher.h_date := "2024-02-02";
       PDFPatternMatcher.h_pdf := [1; 2; 1];
       PDFPatternMatcher.h_strikes := [0; 1; 2];
       PDFPatternMatcher.h_stats := [];
       PDFPatternMatcher.h_metadata := None |} ].

Definition best_match : PDFPatternMatcher.t :=
  {| PDFPatternMatcher.similarity_threshold := 0.5;
     PDFPatternMatcher.max_matches := 1 |}.

(** * Properties *)

Close Scope float_scope.

(** ** Float operations are the exact ones, up to [==] *)

Lemma fadd_correct x y : fadd x y == x + y.
Proof. apply Qred_correct. Qed.

Lemma fsub_correct x y : fsub x y == x - y.
Proof. apply Qred_correct. Qed.

Lemma fmul_correct x y : fmul x y == x * y.
Proof. apply Qred_correct. Qed.

Lemma fdivide_correct x y : fdivide x y == x / y.
Proof. apply Qred_correct. Qed.

Lemma fopp_correct x : fopp x == - x.
Proof. apply Qred_correct. Qed.

Ltac fnorm :=
  unfold fadd, fsub, fmul, fdivide, fopp, fpow, fabs, float in *;
  rewrite ?Qred_correct in *.

(** [lra] on [Q] does not read divisions: halves become products first. *)
Ltac lraq :=
  unfold float in *; unfold Qdiv in *; change (/ 2) with (1 # 2) in *; lra.

Lemma fle_iff x y : fle x y = true <-> x <= y.
Proof. apply Qle_bool_iff. Qed.

Lemma flt_iff x y : flt x y = true <-> x < y.
Proof.
  unfold flt. rewrite negb_true_iff. split; intro H.
  - apply Qnot_le_lt. intro Hle. apply Qle_bool_iff in Hle. congruence.
  - destruct (Qle_bool y x) eqn:E; [|reflexivity].
    apply Qle_bool_iff in E. lra.
Qed.

Lemma fle_false x y : fle x y = false <-> y < x.
Proof.
  rewrite <- flt_iff. unfold flt, fle. now rewrite negb_true_iff.
Qed.

Lemma flt_false x y : flt x y = false <-> y <= x.
Proof.
  unfold flt. rewrite negb_false_iff. apply Qle_bool_iff.
Qed.

Lemma fgt_iff x y : fgt x y = true <-> y < x.
Proof. apply flt_iff. Qed.

Lemma feq_iff x y : feq x y = true <-> x == y.
Proof. apply Qeq_bool_iff. Qed.

Lemma Qdiv_self_red x : ~ x == 0 -> fdivide x x = 1.
Proof.
  intro H. unfold fdivide.
  change 1 with (Qred 1). apply Qred_complete. now field.
Qed.

Lemma Qdiv_zero_red x : fdivide 0 x = 0.
Proof.
  unfold fdivide. change 0 with (Qred 0) at 2. apply Qred_complete.
  unfold Qdiv. ring.
Qed.

(** ** The array helpers on small inputs *)

Example linspace_five : np.linspace 0 1 5 = [0; 1 # 4; 1 # 2; 3 # 4; 1].
Proof. vm_compute. reflexivity. Qed.

Example gradient_of_squares :
  np.gradient [0; 1; 4; 9] [0; 1; 2; 3] = Ok [1; 2; 4; 5].
Proof. vm_compute. reflexivity. Qed.

Example gradient_uneven_grid :
  np.gradient [0; 1; 9; 16] [0; 1; 3; 4] = Ok [1; 2; 6; 7].
Proof. vm_compute. reflexivity. Qed.

Example trapezoid_of_ones : np.trapezoid [1; 1; 1] [0; 1; 3] = 3.
Proof. vm_compute. reflexivity. Qed.

Example cumulative_trapezoid_of_ones :
  np.cumulative_trapezoid [1; 1; 1] [0; 1; 3] = Ok [0; 1; 3].
Proof. vm_compute. reflexivity. Qed.

Example interp_midpoint : np.interp (1 # 2) [0; 1] [10; 20] = Ok 15.
Proof. vm_compute. reflexivity. Qed.

Example interp_clamps : np.interp 7 [0; 1] [10; 20] = Ok 20.
Proof. vm_compute. reflexivity. Qed.

Example window_length_of_grid :
  BreedenlitzenbergPDF.window_length 500 = 51%Z
  /\ BreedenlitzenbergPDF.window_length 6 = 5%Z
  /\ BreedenlitzenbergPDF.window_length 4 = 3%Z.
Proof. repeat split. Qed.

Example str_of_ten : str 10 = "10".
Proof. reflexivity. Qed.

(** ** Trapezoidal quadrature *)

Lemma trapezoid_cons2 y0 y1 y x0 x1 x :
  np.trapezoid (y0 :: y1 :: y) (x0 :: x1 :: x)
  == (x1 - x0) * (y0 + y1) / 2 + np.trapezoid (y1 :: y) (x1 :: x).
Proof. cbn [np.trapezoid]. fnorm. reflexivity. Qed.

(** Dividing the integrand by a scalar divides the integral. *)
Lemma trapezoid_div_scalar c y : forall x,
  np.trapezoid (np.div_scalar y c) x == np.trapezoid y x / c.
Proof.
  induction y as [|y0 y IH]; intros x.
  - cbn. unfold Qdiv. ring.
  - destruct y as [|y1 y]; [cbn; unfold Qdiv; ring|].
    destruct x as [|x0 [|x1 x]]; try (cbn; unfold Qdiv; ring).
    change (np.div_scalar (y0 :: y1 :: y) c)
      with (fdivide y0 c :: fdivide y1 c :: np.div_scalar y c).
    rewrite !trapezoid_cons2.
    change (fdivide y1 c :: np.div_scalar y c) with (np.div_scalar (y1 :: y) c).
    rewrite IH. rewrite !fdivide_correct. unfold Qdiv. ring.
Qed.

Lemma trapezoid_nonneg y : forall x,
  Forall (fun v => 0 <= v) y -> Sorted Qle x -> 0 <= np.trapezoid y x.
Proof.
  induction y as [|y0 y IH]; intros x Hy Hx; [cbn; lra|].
  destruct y as [|y1 y]; [cbn; lra|].
  destruct x as [|x0 [|x1 x]]; try (cbn; lra).
  rewrite trapezoid_cons2.
  inversion Hy as [|? ? Hy0 Hy']; subst.
  inversion Hx as [|? ? Hx' Hhd]; subst.
  inversion Hhd; subst.
  specialize (IH (x1 :: x) Hy' Hx').
  inversion Hy'; subst.
  assert (H : 0 <= (x1 - x0) * (y0 + y1)) by (apply Qmult_le_0_compat; lra).
  unfold float in *.
  revert IH H. generalize (np.trapezoid (y1 :: y) (x1 :: x)) ((x1 - x0) * (y0 + y1)).
  intros t p Ht Hp. lraq.
Qed.

Lemma trapezoid_zero y : forall x,
  Forall (fun v => v == 0) y -> np.trapezoid y x == 0.
Proof.
  induction y as [|y0 y IH]; intros x Hy; [reflexivity|].
  destruct y as [|y1 y]; [reflexivity|].
  destruct x as [|x0 [|x1 x]]; try reflexivity.
  rewrite trapezoid_cons2.
  inversion Hy as [|? ? Hy0 Hy']; subst.
  rewrite (IH _ Hy'). inversion Hy'; subst.
  rewrite Hy0. setoid_replace y1 with 0 by assumption. unfold Qdiv. ring.
Qed.

(** ** Clipping, smoothing and normalization *)

Lemma maximum0_nonneg a : Forall (fun v => 0 <= v) (np.maximum0 a).
Proof.
  unfold np.maximum0. apply Forall_forall. intros v Hin.
  apply in_map_iff in Hin. destruct Hin as [w [<- _]].
  destruct (fle 0 w) eqn:E; [now apply fle_iff|lra].
Qed.

(** Every entry below zero is replaced by the literal zero. *)
Lemma maximum0_negative a :
  Forall (fun v => v < 0) a -> np.maximum0 a = repeat 0 (length a).
Proof.
  induction a as [|v a IH]; intro H; [reflexivity|].
  inversion H as [|? ? Hv Ha]; subst.
  unfold np.maximum0 in *. cbn [map length repeat].
  rewrite (IH Ha).
  destruct (fle 0 v) eqn:E; [|reflexivity].
  apply fle_iff in E. lra.
Qed.

Section BreedenProps.
Context {sci : SciPy} {cst : Constants}.

Lemma smooth_nonneg p :
  Forall (fun v => 0 <= v) p ->
  Forall (fun v => 0 <= v) (BreedenlitzenbergPDF.smooth p).
Proof.
  intro Hp. unfold BreedenlitzenbergPDF.smooth.
  destruct (5 <=? _)%Z; [|exact Hp].
  destruct (savgol_filter p _ 3) as [sm|e]; cbn; [apply maximum0_nonneg|exact Hp].
Qed.

Lemma breeden_litzenberger_nonneg strikes prices r T p :
  BreedenlitzenbergPDF._breeden_litzenberger strikes prices r T = Ok p ->
  Forall (fun v => 0 <= v) p.
Proof.
  unfold BreedenlitzenbergPDF._breeden_litzenberger.
  destruct (np.gradient_unit strikes); cbn; [|discriminate].
  destruct (BreedenlitzenbergPDF.second_derivative strikes prices); cbn; [|discriminate].
  intro H. injection H as <-. apply smooth_nonneg, maximum0_nonneg.
Qed.

Lemma normalize_pdf_ok strikes p p' :
  BreedenlitzenbergPDF._normalize_pdf strikes p = Ok p' ->
  0 < np.trapezoid p strikes /\ p' = np.div_scalar p (np.trapezoid p strikes).
Proof.
  unfold BreedenlitzenbergPDF._normalize_pdf.
  destruct (fle (np.trapezoid p strikes) 0) eqn:E; [discriminate|].
  intro H. injection H as <-. split; [now apply fle_false|reflexivity].
Qed.

Lemma normalize_pdf_integral strikes p p' :
  BreedenlitzenbergPDF._normalize_pdf strikes p = Ok p' ->
  np.trapezoid p' strikes == 1.
Proof.
  intro H. apply normalize_pdf_ok in H. destruct H as [Hpos ->].
  rewrite trapezoid_div_scalar. field. lra.
Qed.

Lemma div_scalar_nonneg p c :
  0 < c -> Forall (fun v => 0 <= v) p ->
  Forall (fun v => 0 <= v) (np.div_scalar p c).
Proof.
  intros Hc Hp. unfold np.div_scalar. apply Forall_forall. intros v Hin.
  apply in_map_iff in Hin. destruct Hin as [w [<- Hw]].
  rewrite Forall_forall in Hp. specialize (Hp w Hw).
  rewrite fdivide_correct. apply Qle_shift_div_l; lra.
Qed.

(** What a successful [calculate_from_options] went through. *)
Lemma calculate_from_options_ok self df spot r T ot im self' grid p' :
  BreedenlitzenbergPDF.calculate_from_options self df spot r T ot im
    = (self', Ok (grid, p')) ->
  let min_strike := fmul spot MIN_STRIKE_PCT in
  let max_strike := fmul spot MAX_STRIKE_PCT in
  (MIN_STRIKES_FOR_PDF
     <= length (filter (BreedenlitzenbergPDF.in_band min_strike max_strike) df))%nat
  /\ grid = np.linspace min_strike max_strike PDF_GRID_POINTS
  /\ (exists prices p,
        BreedenlitzenbergPDF._breeden_litzenberger grid prices r T = Ok p
        /\ BreedenlitzenbergPDF._normalize_pdf grid p = Ok p')
  /\ exists c,
        BreedenlitzenbergPDF._calculate_cdf grid p' = Ok c
        /\ self' = {| BreedenlitzenbergPDF.pdf := Some p';
                      BreedenlitzenbergPDF.strikes := Some grid;
                      BreedenlitzenbergPDF.cdf := Some c;
                      BreedenlitzenbergPDF.spot := Some spot;
                      BreedenlitzenbergPDF.params := Some (r, T, ot) |}.
Proof.
  intros H min_strike max_strike.
  unfold BreedenlitzenbergPDF.calculate_from_options in H.
  fold min_strike max_strike in H.
  destruct (length _ <? MIN_STRIKES_FOR_PDF)%nat eqn:Elen; [discriminate|].
  apply Nat.ltb_ge in Elen.
  destruct (calibrate_volatility_surface _ _ _ _ _) as [[vm st]|e]; cbn in H; [|discriminate].
  destruct (vol_model_get_volatility vm _) as [ivs|e]; cbn in H; [|discriminate].
  match type of H with
  | context [BreedenlitzenbergPDF._breeden_litzenberger ?g ?pr r T] =>
      destruct (BreedenlitzenbergPDF._breeden_litzenberger g pr r T) as [p|e] eqn:Ebl;
      cbn in H; [|discriminate];
      destruct (BreedenlitzenbergPDF._normalize_pdf g p) as [q|e] eqn:En;
      cbn in H; [|discriminate];
      destruct (BreedenlitzenbergPDF._calculate_cdf g q) as [c|e] eqn:Ec;
      cbn in H; [|discriminate]
  end.
  injection H as <- <- <-.
  repeat split; try assumption; eauto.
Qed.

End BreedenProps.

(** C1. For every successful call to [calculate_from_options], the
    trapezoidal integral of the returned density over the returned strike
    grid is 1 (in exact arithmetic), hence within 1% of 1.0. *)
Theorem mass_conservation {sci : SciPy} {cst : Constants}
        self df spot r T ot im self' grid density :
  BreedenlitzenbergPDF.calculate_from_options self df spot r T ot im
    = (self', Ok (grid, density)) ->
  np.trapezoid density grid == 1
  /\ Qabs (np.trapezoid density grid - 1) <= 0.01.
Proof.
  intro H. apply calculate_from_options_ok in H.
  destruct H as (_ & _ & (prices & p & _ & Hn) & _).
  apply normalize_pdf_integral in Hn. split; [exact Hn|].
  rewrite Hn. cbn. discriminate.
Qed.

(** C2. Every entry of the density a successful [calculate_from_options]
    returns is non-negative, whatever the smoothing filter returned and
    after the final normalization. *)
Theorem density_nonnegative {sci : SciPy} {cst : Constants}
        self df spot r T ot im self' grid density :
  BreedenlitzenbergPDF.calculate_from_options self df spot r T ot im
    = (self', Ok (grid, density)) ->
  Forall (fun v => 0 <= v) density.
Proof.
  intro H. apply calculate_from_options_ok in H.
  destruct H as (_ & _ & (prices & p & Hbl & Hn) & _).
  apply breeden_litzenberger_nonneg in Hbl.
  apply normalize_pdf_ok in Hn. destruct Hn as [Hpos ->].
  now apply div_scalar_nonneg.
Qed.

(** ** The grid and the cumulative integral *)

Lemma sorted_map_seq_app (R : Q -> Q -> Prop) (f : nat -> Q) (b : Q) :
  (forall i, R (f i) (f (S i))) ->
  forall n s, (forall i, (i < s + n)%nat -> R (f i) b) ->
  Sorted R (map f (seq s n) ++ [b]).
Proof.
  intros Hstep. induction n as [|n IH]; intros s Hb; cbn.
  - repeat constructor.
  - constructor.
    + apply IH. intros i Hi. apply Hb. lia.
    + destruct n as [|n]; cbn; constructor.
      * apply Hb. lia.
      * apply Hstep.
Qed.

Lemma of_nat_le i j : (i <= j)%nat -> np.of_nat i <= np.of_nat j.
Proof. intro H. unfold np.of_nat. rewrite <- Zle_Qle. lia. Qed.

Lemma of_nat_succ i : np.of_nat (S i) == np.of_nat i + 1.
Proof.
  unfold np.of_nat. rewrite Nat2Z.inj_succ. unfold Z.succ.
  rewrite inject_Z_plus. reflexivity.
Qed.

Lemma of_nat_pos i : (0 < i)%nat -> 0 < np.of_nat i.
Proof.
  intro H. unfold np.of_nat. change 0 with (inject_Z 0).
  rewrite <- Zlt_Qlt. lia.
Qed.

(** A grid from [start] up to [stop] is non-decreasing. *)
Lemma linspace_sorted start stop num :
  start <= stop -> Sorted Qle (np.linspace start stop num).
Proof.
  intro Hle. destruct num as [|[|d]];
    [constructor | repeat constructor | unfold np.linspace].
  set (div := S d).
  assert (Hdiv : 0 < np.of_nat div) by (apply of_nat_pos; unfold div; lia).
  assert (Hs : 0 <= (stop - start) / np.of_nat div)
    by (apply Qle_shift_div_l; [exact Hdiv|lra]).
  apply sorted_map_seq_app.
  - intro i. cbv beta. fnorm.
    rewrite of_nat_succ.
    revert Hs. generalize ((stop - start) / np.of_nat div). intros st Hst.
    assert (0 <= np.of_nat i) by (change 0 with (np.of_nat 0); apply of_nat_le; lia).
    nra.
  - intros i Hi. cbv beta. fnorm.
    assert (Hi' : np.of_nat i <= np.of_nat div) by (apply of_nat_le; lia).
    assert (H0 : 0 <= np.of_nat i) by (change 0 with (np.of_nat 0); apply of_nat_le; lia).
    assert (Hq : np.of_nat i * ((stop - start) / np.of_nat div) <= stop - start).
    { setoid_replace (np.of_nat i * ((stop - start) / np.of_nat div))
        with ((np.of_nat i * (stop - start)) / np.of_nat div)
        by (field; lra).
      apply Qle_shift_div_r; [exact Hdiv|].
      revert Hi' H0 Hdiv. generalize (np.of_nat i) (np.of_nat div). intros. nra. }
    lra.
Qed.

(** A grid from [start] down to [stop] is non-increasing. *)
Lemma linspace_sorted_down start stop num :
  stop <= start -> Sorted down (np.linspace start stop num).
Proof.
  intro Hle. destruct num as [|[|d]];
    [constructor | repeat constructor | unfold np.linspace].
  set (div := S d).
  assert (Hdiv : 0 < np.of_nat div) by (apply of_nat_pos; unfold div; lia).
  assert (Hs : 0 <= (start - stop) / np.of_nat div)
    by (apply Qle_shift_div_l; [exact Hdiv|lra]).
  assert (Hn : (stop - start) / np.of_nat div == - ((start - stop) / np.of_nat div))
    by (field; lra).
  apply sorted_map_seq_app; unfold down.
  - intro i. cbv beta. fnorm.
    rewrite of_nat_succ, Hn.
    revert Hs. generalize ((start - stop) / np.of_nat div). intros st Hst.
    assert (0 <= np.of_nat i) by (change 0 with (np.of_nat 0); apply of_nat_le; lia).
    nra.
  - intros i Hi. cbv beta. fnorm. rewrite Hn.
    assert (Hi' : np.of_nat i <= np.of_nat div) by (apply of_nat_le; lia).
    assert (H0 : 0 <= np.of_nat i) by (change 0 with (np.of_nat 0); apply of_nat_le; lia).
    assert (Hq : np.of_nat i * ((start - stop) / np.of_nat div) <= start - stop).
    { setoid_replace (np.of_nat i * ((start - stop) / np.of_nat div))
        with ((np.of_nat i * (start - stop)) / np.of_nat div)
        by (field; lra).
      apply Qle_shift_div_r; [exact Hdiv|].
      revert Hi' H0 Hdiv. generalize (np.of_nat i) (np.of_nat div). intros. nra. }
    lra.
Qed.

(** Over a non-increasing grid a non-negative curve has no positive
    integral. *)
Lemma trapezoid_nonpos y : forall x,
  Forall (fun v => 0 <= v) y -> Sorted down x -> np.trapezoid y x <= 0.
Proof.
  induction y as [|y0 y IH]; intros x Hy Hx; [cbn; lra|].
  destruct y as [|y1 y]; [cbn; lra|].
  destruct x as [|x0 [|x1 x]]; try (cbn; lra).
  rewrite trapezoid_cons2.
  inversion Hy as [|? ? Hy0 Hy']; subst.
  inversion Hx as [|? ? Hx' Hhd]; subst.
  inversion Hhd as [|? ? Hge]; subst. unfold down in Hge.
  specialize (IH (x1 :: x) Hy' Hx').
  inversion Hy'; subst.
  assert (H : 0 <= (x0 - x1) * (y0 + y1)) by (apply Qmult_le_0_compat; lra).
  assert (E : (x1 - x0) * (y0 + y1) == - ((x0 - x1) * (y0 + y1))) by ring.
  rewrite E. unfold float in *.
  revert IH H. generalize (np.trapezoid (y1 :: y) (x1 :: x)) ((x0 - x1) * (y0 + y1)).
  intros t p Ht Hp. lraq.
Qed.

Lemma cumtrapz_from_cons2 acc y0 y1 y x0 x1 x :
  np.cumtrapz_from acc (y0 :: y1 :: y) (x0 :: x1 :: x)
  = fadd acc (fdivide (fmul (fsub x1 x0) (fadd y0 y1)) 2)
    :: np.cumtrapz_from (fadd acc (fdivide (fmul (fsub x1 x0) (fadd y0 y1)) 2))
                        (y1 :: y) (x1 :: x).
Proof. reflexivity. Qed.

(** The running integral of a non-negative curve over a non-decreasing
    grid never decreases. *)
Lemma cumtrapz_from_sorted y : forall acc x,
  Forall (fun v => 0 <= v) y -> Sorted Qle x ->
  Sorted Qle (acc :: np.cumtrapz_from acc y x).
Proof.
  induction y as [|y0 y IH]; intros acc x Hy Hx; [repeat constructor|].
  destruct y as [|y1 y]; [repeat constructor|].
  destruct x as [|x0 [|x1 x]]; [repeat constructor | repeat constructor |].
  rewrite cumtrapz_from_cons2.
  inversion Hy as [|? ? Hy0 Hy']; subst.
  inversion Hx as [|? ? Hx' Hhd]; subst.
  inversion Hhd; subst. inversion Hy'; subst.
  constructor.
  - apply IH; assumption.
  - constructor. fnorm.
    assert (H : 0 <= (x1 - x0) * (y0 + y1)) by (apply Qmult_le_0_compat; lra).
    revert H. generalize ((x1 - x0) * (y0 + y1)). intros p Hp. lraq.
Qed.

Lemma last_default_irrelevant {A} l : forall (a d d' : A),
  last (a :: l) d = last (a :: l) d'.
Proof.
  induction l as [|b l IH]; intros a d d'; [reflexivity|].
  change (last (b :: l) d = last (b :: l) d'). apply IH.
Qed.

Lemma last_cons_default {A} (a : A) l d : last (a :: l) d = last l a.
Proof.
  destruct l as [|b l]; [reflexivity|].
  change (last (b :: l) d = last (b :: l) a). apply last_default_irrelevant.
Qed.

(** Its last entry is the whole integral. *)
Lemma cumtrapz_from_last y : forall acc x,
  last (np.cumtrapz_from acc y x) acc == acc + np.trapezoid y x.
Proof.
  unfold float in *.
  induction y as [|y0 y IH]; intros acc x; [cbn; ring|].
  destruct y as [|y1 y]; [cbn; ring|].
  destruct x as [|x0 [|x1 x]]; try (cbn; ring).
  rewrite cumtrapz_from_cons2, trapezoid_cons2.
  rewrite last_cons_default, IH. fnorm. ring.
Qed.

Lemma last_map {A B} (f : A -> B) l d : last (map f l) (f d) = f (last l d).
Proof.
  induction l as [|a l IH]; [reflexivity|].
  cbn [map]. destruct l; [reflexivity|]. exact IH.
Qed.

Lemma div_scalar_sorted l c :
  0 < c -> Sorted Qle l -> Sorted Qle (np.div_scalar l c).
Proof.
  intros Hc. unfold np.div_scalar.
  induction 1 as [|a l Hs IH Hhd]; cbn [map]; constructor.
  - exact IH.
  - destruct Hhd as [|b l' Hab]; cbn [map]; constructor.
    rewrite !fdivide_correct. apply Qmult_le_compat_r; [exact Hab|].
    apply Qlt_le_weak, Qinv_lt_0_compat, Hc.
Qed.

(** ** The cumulative distribution *)

Section CdfProps.
Context {sci : SciPy} {cst : Constants}.

(** The guard of [_calculate_cdf]: when the running integral does not end
    above zero it is returned as it is, and nothing is divided. *)
Lemma calculate_cdf_guard strikes p raw l :
  np.cumulative_trapezoid p strikes = Ok raw ->
  np.last_elt raw = Ok l ->
  l <= 0 ->
  BreedenlitzenbergPDF._calculate_cdf strikes p = Ok raw.
Proof.
  intros Hraw Hl Hle. unfold BreedenlitzenbergPDF._calculate_cdf.
  rewrite Hraw. cbn [bind]. rewrite Hl. cbn [bind].
  assert (E : fgt l 0 = false) by (apply flt_false; exact Hle).
  now rewrite E.
Qed.

(** The renormalization of [_calculate_cdf]: when the running integral
    ends above zero every entry is divided by that last entry, so the
    result ends at exactly 1, whatever the density integrates to. *)
Lemma calculate_cdf_divides strikes p raw l :
  np.cumulative_trapezoid p strikes = Ok raw ->
  np.last_elt raw = Ok l ->
  0 < l ->
  BreedenlitzenbergPDF._calculate_cdf strikes p = Ok (np.div_scalar raw l)
  /\ np.last_elt (np.div_scalar raw l) = Ok 1.
Proof.
  intros Hraw Hl Hpos. split.
  - unfold BreedenlitzenbergPDF._calculate_cdf.
    rewrite Hraw. cbn [bind]. rewrite Hl. cbn [bind].
    assert (E : fgt l 0 = true) by (apply fgt_iff; exact Hpos).
    now rewrite E.
  - destruct raw as [|v t]; [discriminate|].
    cbn [np.last_elt] in Hl. injection Hl as Hl.
    unfold np.div_scalar. cbn [map np.last_elt].
    change (fdivide v l) with ((fun w => fdivide w l) v).
    rewrite last_map. cbv beta. rewrite Hl.
    rewrite Qdiv_self_red; [reflexivity|].
    intro Hz. rewrite Hz in Hpos. lra.
Qed.

(** A density that integrates to a positive total over a non-decreasing
    grid has a CDF that starts at 0, never decreases and ends at 1. *)
Lemma calculate_cdf_normalized grid p c :
  Forall (fun v => 0 <= v) p ->
  Sorted Qle grid ->
  0 < np.trapezoid p grid ->
  BreedenlitzenbergPDF._calculate_cdf grid p = Ok c ->
  Sorted Qle c /\ hd_error c = Some 0 /\ np.last_elt c = Ok 1.
Proof.
  intros Hp Hg Hpos. unfold BreedenlitzenbergPDF._calculate_cdf.
  unfold np.cumulative_trapezoid.
  destruct p as [|p0 p]; [discriminate|].
  set (raw := np.cumtrapz_from 0 (p0 :: p) grid).
  cbn [bind np.last_elt].
  assert (Hlast : last raw 0 == np.trapezoid (p0 :: p) grid).
  { unfold raw. rewrite cumtrapz_from_last. ring. }
  assert (Hgt : fgt (last raw 0) 0 = true).
  { apply fgt_iff. rewrite Hlast. exact Hpos. }
  rewrite Hgt. intro H. injection H as <-.
  assert (Hl0 : 0 < last raw 0) by (rewrite Hlast; exact Hpos).
  split; [|split].
  - change (Sorted Qle (np.div_scalar (0 :: raw) (last raw 0))).
    apply div_scalar_sorted; [exact Hl0|].
    apply cumtrapz_from_sorted; assumption.
  - unfold np.div_scalar. cbn [map hd_error]. now rewrite Qdiv_zero_red.
  - unfold np.div_scalar. cbn [map np.last_elt].
    change (fdivide 0 (last raw 0)) with ((fun v => fdivide v (last raw 0)) 0).
    rewrite last_map. cbv beta. rewrite Qdiv_self_red; [reflexivity|].
    intro Hz. rewrite Hz in Hl0. lra.
Qed.

End CdfProps.

(** C3. After a successful [calculate_from_options] the stored CDF is
    non-decreasing, starts at 0 and ends at exactly 1: it is the running
    trapezoid integral of the density divided by its last entry, which is
    above zero.  [_calculate_cdf] makes that division for every density
    whose running integral ends above zero, whatever it integrates to, and
    the result then ends at exactly 1; when the running integral does not
    end above zero it is returned unchanged and nothing is divided. *)
Theorem cdf_monotone_ends_at_one {sci : SciPy} {cst : Constants}
        self df spot r T ot im self' grid density :
  BreedenlitzenbergPDF.calculate_from_options self df spot r T ot im
    = (self', Ok (grid, density)) ->
  (exists c, BreedenlitzenbergPDF.cdf self' = Some c
             /\ Sorted Qle c /\ hd_error c = Some 0 /\ np.last_elt c = Ok 1
             /\ exists raw l,
                  np.cumulative_trapezoid density grid = Ok raw
                  /\ np.last_elt raw = Ok l
                  /\ 0 < l
                  /\ c = np.div_scalar raw l)
  /\ (forall strikes p raw l,
        np.cumulative_trapezoid p strikes = Ok raw ->
        np.last_elt raw = Ok l ->
        0 < l ->
        BreedenlitzenbergPDF._calculate_cdf strikes p = Ok (np.div_scalar raw l)
        /\ np.last_elt (np.div_scalar raw l) = Ok 1)
  /\ (forall strikes p raw l,
        np.cumulative_trapezoid p strikes = Ok raw ->
        np.last_elt raw = Ok l ->
        l <= 0 ->
        BreedenlitzenbergPDF._calculate_cdf strikes p = Ok raw).
Proof.
  intros H. split; [|split; [apply calculate_cdf_divides|apply calculate_cdf_guard]].
  apply calculate_from_options_ok in H.
  destruct H as (_ & Hgrid & (prices & p & Hbl & Hn) & (c & Hc & ->)).
  apply breeden_litzenberger_nonneg in Hbl.
  pose proof (normalize_pdf_integral _ _ _ Hn) as Hone.
  apply normalize_pdf_ok in Hn. destruct Hn as [Hpos Hd].
  assert (Hnn : Forall (fun v => 0 <= v) density)
    by (rewrite Hd; now apply div_scalar_nonneg).
  exists c. split; [reflexivity|].
  assert (Hprops : Sorted Qle c /\ hd_error c = Some 0 /\ np.last_elt c = Ok 1).
  { apply (calculate_cdf_normalized grid density c); try assumption.
    - rewrite Hgrid.
      destruct (Qlt_le_dec (fmul spot MAX_STRIKE_PCT) (fmul spot MIN_STRIKE_PCT))
        as [Hdown|Hup]; [|now apply linspace_sorted].
      exfalso.
      assert (Hneg : np.trapezoid p grid <= 0).
      { apply trapezoid_nonpos; [exact Hbl|].
        rewrite Hgrid. apply linspace_sorted_down. lra. }
      lra.
    - rewrite Hone. reflexivity. }
  destruct Hprops as (Hs & Hh & Hl).
  split; [exact Hs|]. split; [exact Hh|]. split; [exact Hl|].
  assert (Hne : density <> []).
  { intro E. rewrite E in Hone. cbn in Hone. discriminate Hone. }
  destruct density as [|d0 dens]; [congruence|].
  set (cum := np.cumtrapz_from 0 (d0 :: dens) grid).
  assert (Hraw : np.cumulative_trapezoid (d0 :: dens) grid = Ok (0 :: cum))
    by reflexivity.
  assert (Hlast : np.last_elt (0 :: cum) = Ok (last cum 0)) by reflexivity.
  assert (Hl0 : 0 < last cum 0).
  { unfold cum. rewrite cumtrapz_from_last, Hone. reflexivity. }
  exists (0 :: cum), (last cum 0).
  split; [exact Hraw|]. split; [exact Hlast|]. split; [exact Hl0|].
  destruct (calculate_cdf_divides grid (d0 :: dens) (0 :: cum) (last cum 0)
              Hraw Hlast Hl0) as [Hdiv _].
  congruence.
Qed.

(** ** The pipeline on concrete chains *)

Lemma run_flat_call_spline_ok : is_ok (snd (run_flat "call" "spline")) = true.
Proof. vm_compute. reflexivity. Qed.

Lemma run_flat_put_sabr_ok : is_ok (snd (run_flat "put" "sabr")) = true.
Proof. vm_compute. reflexivity. Qed.

Lemma run_flat_call_sabr_ok : is_ok (snd (run_flat "call" "sabr")) = true.
Proof. vm_compute. reflexivity. Qed.

Lemma mass_conservation_witness :
  exists self' grid density,
    run_flat "call" "spline" = (self', Ok (grid, density))
    /\ np.trapezoid density grid == 1
    /\ Qabs (np.trapezoid density grid - 1) <= 0.01.
Proof.
  pose proof run_flat_call_spline_ok as Hok.
  destruct (run_flat "call" "spline") as [self' [[grid density]|e]] eqn:E.
  - exists self', grid, density. split; [reflexivity|].
    exact (mass_conservation _ _ _ _ _ _ _ _ _ _ E).
  - discriminate Hok.
Defined.

Lemma density_nonnegative_witness :
  exists self' grid density,
    run_flat "put" "sabr" = (self', Ok (grid, density))
    /\ Forall (fun v => 0 <= v) density.
Proof.
  pose proof run_flat_put_sabr_ok as Hok.
  destruct (run_flat "put" "sabr") as [self' [[grid density]|e]] eqn:E.
  - exists self', grid, density. split; [reflexivity|].
    exact (density_nonnegative _ _ _ _ _ _ _ _ _ _ E).
  - discriminate Hok.
Defined.

Lemma cdf_monotone_ends_at_one_witness :
  (exists self' grid density c,
     run_flat "call" "sabr" = (self', Ok (grid, density))
     /\ BreedenlitzenbergPDF.cdf self' = Some c
     /\ Sorted Qle c /\ hd_error c = Some 0 /\ np.last_elt c = Ok 1)
  /\ BreedenlitzenbergPDF._calculate_cdf [0; 1; 2] [1; 1; 1]
     = Ok [0; 1 # 2; 1]
  /\ BreedenlitzenbergPDF._calculate_cdf [0; 1; 2] [0; 0; 0]
     = Ok [0; 0; 0].
Proof.
  pose proof run_flat_call_sabr_ok as Hok.
  destruct (run_flat "call" "sabr") as [self' [[grid density]|e]] eqn:E.
  - destruct (cdf_monotone_ends_at_one _ _ _ _ _ _ _ _ _ _ E)
      as ((c & Hc & Hs & Hh & Hl & _) & Hdiv & Hguard).
    split; [|split].
    + exists self', grid, density, c. split; [reflexivity|].
      split; [exact Hc|]. split; [exact Hs|]. split; [exact Hh|exact Hl].
    + exact (proj1 (Hdiv [0; 1; 2] [1; 1; 1] [0; 1; 2] 2
                      eq_refl eq_refl eq_refl)).
    + refine (Hguard [0; 1; 2] [0; 0; 0] [0; 0; 0] 0 eq_refl eq_refl _).
      discriminate.
  - discriminate Hok.
Defined.

(** ** The strike-band filter *)



(** ** Degenerate densities *)

Lemma Forall_firstn {A} (P : A -> Prop) n : forall l,
  Forall P l -> Forall P (firstn n l).
Proof.
  induction n as [|n IH]; intros l H; [constructor|].
  destruct H; cbn; constructor; auto.
Qed.

Lemma Forall_skipn {A} (P : A -> Prop) n : forall l,
  Forall P l -> Forall P (skipn n l).
Proof.
  induction n as [|n IH]; intros l H; [exact H|].
  destruct H; cbn; [constructor|auto].
Qed.

Lemma repeat_zero n : Forall (fun v => v == 0) (repeat 0 n).
Proof. induction n; cbn; constructor; [reflexivity|assumption]. Qed.

Lemma gradient_ok f x g :
  np.gradient f x = Ok g -> length x = length f /\ (2 <= length f)%nat.
Proof.
  unfold np.gradient.
  destruct (length x =? length f)%nat eqn:E1; cbn [negb]; [|discriminate].
  destruct (length f <? 2)%nat eqn:E2; [discriminate|]. intros _.
  apply Nat.eqb_eq in E1. apply Nat.ltb_ge in E2. split; assumption.
Qed.

Lemma gradient_unit_ok x : (2 <= length x)%nat -> exists g, np.gradient_unit x = Ok g.
Proof.
  intro H. unfold np.gradient_unit, np.gradient.
  rewrite length_map, length_seq, Nat.eqb_refl. cbn [negb].
  apply Nat.ltb_ge in H. rewrite H. eauto.
Qed.

Section DegenerateProps.
Context {sci : SciPy}.

Lemma normalize_pdf_raises strikes p :
  np.trapezoid p strikes <= 0 ->
  BreedenlitzenbergPDF._normalize_pdf strikes p
  = Raise (ValueError "PDF integral is zero or negative - invalid PDF").
Proof.
  intro H. unfold BreedenlitzenbergPDF._normalize_pdf.
  apply fle_iff in H. now rewrite H.
Qed.

Lemma normalize_pdf_divides strikes p :
  0 < np.trapezoid p strikes ->
  BreedenlitzenbergPDF._normalize_pdf strikes p
  = Ok (np.div_scalar p (np.trapezoid p strikes)).
Proof.
  intro H. unfold BreedenlitzenbergPDF._normalize_pdf.
  apply fle_false in H. now rewrite H.
Qed.

Lemma smooth_zero n :
  (forall w out, savgol_filter (repeat 0 n) w 3 = Ok out ->
                 Forall (fun v => v == 0) out) ->
  Forall (fun v => v == 0) (BreedenlitzenbergPDF.smooth (repeat 0 n)).
Proof.
  intro Hsg. unfold BreedenlitzenbergPDF.smooth.
  destruct (5 <=? _)%Z; [|apply repeat_zero].
  destruct (savgol_filter (repeat 0 n) _ 3) as [sm|e] eqn:E; cbn;
    [|apply repeat_zero].
  specialize (Hsg _ _ E). unfold np.maximum0.
  apply Forall_forall. intros v Hin. apply in_map_iff in Hin.
  destruct Hin as [w [<- Hw]]. rewrite Forall_forall in Hsg.
  destruct (fle 0 w); [now apply Hsg|reflexivity].
Qed.

End DegenerateProps.

(** C6. [_normalize_pdf] divides the density by its trapezoidal integral and
    raises [ValueError] exactly when that integral is [<= 0].  A second
    derivative that is negative everywhere is clipped to an all-zero curve,
    which a smoothing filter that maps zeros to zeros leaves at zero; its
    integral is 0 and normalization raises. *)
Theorem degenerate_density_error {sci : SciPy}
        strikes prices r T d2 :
  0 < np_exp (fmul r T) ->
  (forall n w out, savgol_filter (repeat 0 n) w 3 = Ok out ->
                   Forall (fun v => v == 0) out) ->
  BreedenlitzenbergPDF.second_derivative strikes prices = Ok d2 ->
  Forall (fun v => v < 0) d2 ->
  (forall s p, np.trapezoid p s <= 0 ->
               BreedenlitzenbergPDF._normalize_pdf s p
               = Raise (ValueError "PDF integral is zero or negative - invalid PDF"))
  /\ (forall s p, 0 < np.trapezoid p s ->
                  BreedenlitzenbergPDF._normalize_pdf s p
                  = Ok (np.div_scalar p (np.trapezoid p s)))
  /\ exists p,
       BreedenlitzenbergPDF._breeden_litzenberger strikes prices r T = Ok p
       /\ Forall (fun v => v == 0) p
       /\ np.trapezoid p strikes == 0
       /\ BreedenlitzenbergPDF._normalize_pdf strikes p
          = Raise (ValueError "PDF integral is zero or negative - invalid PDF").
Proof.
  intros Hexp Hsg Hd2 Hneg.
  split; [exact normalize_pdf_raises|]. split; [exact normalize_pdf_divides|].
  unfold BreedenlitzenbergPDF._breeden_litzenberger. rewrite Hd2.
  assert (Hlen : (2 <= length strikes)%nat).
  { unfold BreedenlitzenbergPDF.second_derivative in Hd2.
    destruct (np.gradient prices strikes) as [g|e] eqn:Eg; [|discriminate].
    apply gradient_ok in Eg. lia. }
  destruct (gradient_unit_ok strikes Hlen) as [dK ->]. cbn [bind].
  assert (Hclip : np.maximum0 (map (fun v => fmul (np_exp (fmul r T)) v) d2)
                  = repeat 0 (length d2)).
  { rewrite maximum0_negative; [now rewrite length_map|].
    apply Forall_forall. intros v Hin. apply in_map_iff in Hin.
    destruct Hin as [w [<- Hw]]. rewrite Forall_forall in Hneg.
    specialize (Hneg w Hw). rewrite fmul_correct.
    revert Hexp Hneg. generalize (np_exp (fmul r T)). intros e He Hw'.
    unfold float in *. nra. }
  rewrite Hclip. eexists. split; [reflexivity|].
  assert (Hz : Forall (fun v => v == 0)
                 (BreedenlitzenbergPDF.smooth (repeat 0 (length d2))))
    by (apply smooth_zero; intros; eapply Hsg; eassumption).
  split; [exact Hz|].
  assert (Hint := trapezoid_zero _ strikes Hz).
  split; [exact Hint|]. apply normalize_pdf_raises. rewrite Hint. lra.
Qed.

Lemma kernel5_zero a :
  Forall (fun v => v == 0) a -> Forall (fun v => v == 0) (Rational.kernel5 a).
Proof.
  induction a as [|a0 a IH]; intro H; [constructor|].
  destruct a as [|a1 [|a2 [|a3 [|a4 a]]]]; try constructor.
  - inversion H as [|? ? H0 H']; subst.
    inversion H' as [|? ? H1 H'']; subst.
    inversion H'' as [|? ? H2 H3']; subst.
    inversion H3' as [|? ? H3 H4']; subst.
    inversion H4' as [|? ? H4 _]; subst.
    fnorm. rewrite H0, H1, H2, H3, H4. reflexivity.
  - apply IH. now inversion H.
Qed.

Lemma rational_savgol_zero n w out :
  Rational.savgol (repeat 0 n) w 3 = Ok out -> Forall (fun v => v == 0) out.
Proof.
  unfold Rational.savgol, float.
  set (z := repeat 0 n). assert (Hz : Forall (fun v => v == 0) z) by apply repeat_zero.
  clearbody z.
  destruct (_ <? 5)%nat; intro H; injection H as <-.
  - exact Hz.
  - change (Forall (fun v => v == 0)
              (firstn 2 z ++ Rational.kernel5 z ++ skipn (length z - 2) z)).
    rewrite !Forall_app. repeat split.
    + now apply Forall_firstn.
    + now apply kernel5_zero.
    + now apply Forall_skipn.
Qed.

Lemma degenerate_density_error_witness :
  exists p,
    @BreedenlitzenbergPDF._breeden_litzenberger qsci
      concave_strikes concave_prices 0.05 (1 # 12) = Ok p
    /\ Forall (fun v => v == 0) p
    /\ BreedenlitzenbergPDF._normalize_pdf concave_strikes p
       = Raise (ValueError "PDF integral is zero or negative - invalid PDF").
Proof.
  assert (Hexp : 0 < @np_exp qsci (fmul 0.05 (1 # 12)))
    by (vm_compute; reflexivity).
  assert (Hd2 : BreedenlitzenbergPDF.second_derivative concave_strikes concave_prices
                = concave_d2) by (vm_compute; reflexivity).
  unfold concave_d2 in Hd2.
  match type of Hd2 with
  | _ = Ok ?d =>
      assert (Hneg : Forall (fun v => v < 0) d) by (repeat constructor)
  end.
  destruct (@degenerate_density_error qsci _ _ 0.05 (1 # 12) _
              Hexp rational_savgol_zero Hd2 Hneg)
    as (_ & _ & p & Hp & Hz & _ & Hr).
  exists p. repeat split; assumption.
Defined.

(** ** Probability queries *)

(** C10. On a fitted extractor [get_probability] leaves the object as it
    was; a condition other than ['below'] and ['above'] raises a
    [ValueError]; and the two valid conditions either raise the same error or
    return [p] and [1 - p], which sum to 1. *)
Theorem get_probability_complement self strike_level c s :
  BreedenlitzenbergPDF.cdf self = Some c ->
  BreedenlitzenbergPDF.strikes self = Some s ->
  (forall condition,
      fst (BreedenlitzenbergPDF.get_probability self strike_level condition) = self)
  /\ (forall condition,
        condition <> "below" -> condition <> "above" ->
        exists msg,
          snd (BreedenlitzenbergPDF.get_probability self strike_level condition)
          = Raise (ValueError msg))
  /\ ((exists e,
         snd (BreedenlitzenbergPDF.get_probability self strike_level "below") = Raise e
         /\ snd (BreedenlitzenbergPDF.get_probability self strike_level "above") = Raise e)
      \/ (exists p,
            snd (BreedenlitzenbergPDF.get_probability self strike_level "below") = Ok p
            /\ snd (BreedenlitzenbergPDF.get_probability self strike_level "above")
               = Ok (fsub 1 p)
            /\ p + fsub 1 p == 1)).
Proof.
  intros Hc Hs. unfold BreedenlitzenbergPDF.get_probability. rewrite Hc, Hs.
  split; [reflexivity|]. split.
  - intros condition Hb Ha. cbn [snd].
    apply String.eqb_neq in Hb. apply String.eqb_neq in Ha.
    rewrite Hb, Ha. unfold np.interp1d.
    destruct (negb (length s =? length c)%nat); cbn [bind]; [eauto|].
    destruct (np.sort_by fst (combine s c)); cbn [bind]; eauto.
  - cbn [snd]. destruct (np.interp1d s c) as [f|e]; cbn [bind String.eqb Ascii.eqb Bool.eqb].
    + right. exists (f strike_level).
      split; [reflexivity|]. split; [reflexivity|].
      rewrite fsub_correct. unfold float. ring.
    + left. eauto.
Qed.

Lemma get_probability_complement_witness :
  BreedenlitzenbergPDF.get_probability fitted 95 "below" = (fitted, Ok (1 # 4))
  /\ BreedenlitzenbergPDF.get_probability fitted 95 "above" = (fitted, Ok (3 # 4))
  /\ (exists msg, snd (BreedenlitzenbergPDF.get_probability fitted 95 "between")
                  = Raise (ValueError msg)).
Proof.
  destruct (get_probability_complement fitted 95 _ _ eq_refl eq_refl)
    as (_ & Hbad & _).
  split; [vm_compute; reflexivity|]. split; [vm_compute; reflexivity|].
  apply Hbad; discriminate.
Defined.

(** ** Division guards in the statistics engine *)

Lemma cube_nonzero x : ~ x == 0 -> ~ fpow x 3 == 0.
Proof.
  intros Hx H. unfold fpow in H. rewrite Qred_correct in H.
  assert (E : x ^ 3 == x * (x * x)) by (simpl; unfold float; ring).
  rewrite E in H.
  apply Qmult_integral in H. destruct H as [H|H]; [contradiction|].
  apply Qmult_integral in H. tauto.
Qed.

Lemma fourth_nonzero x : ~ x == 0 -> ~ fpow x 4 == 0.
Proof.
  intros Hx H. unfold fpow in H. rewrite Qred_correct in H.
  assert (E : x ^ 4 == (x * x) * (x * x)) by (simpl; unfold float; ring).
  rewrite E in H.
  apply Qmult_integral in H. destruct H as [H|H];
    apply Qmult_integral in H; tauto.
Qed.

Lemma checked_div_finite a b : ~ b == 0 -> checked_div a b = Finite (fdivide a b).
Proof.
  intro Hb. unfold checked_div.
  destruct (feq b 0) eqn:E; [|reflexivity].
  apply feq_iff in E. contradiction.
Qed.

Section StatisticsProps.
Context {sci : SciPy}.

(** The division in [calculate_skewness] is never by zero. *)
Lemma skewness_guarded self mean std :
  exists q, PDFStatistics.calculate_skewness self mean std = Finite q.
Proof.
  unfold PDFStatistics.calculate_skewness.
  match goal with |- context [feq ?s 0] => destruct (feq s 0) eqn:E end; [eauto|].
  rewrite checked_div_finite; [eauto|].
  apply cube_nonzero. intro Hz. apply feq_iff in Hz. congruence.
Qed.

Lemma kurtosis_guarded self mean std :
  exists q, PDFStatistics.calculate_kurtosis self mean std = Finite q.
Proof.
  unfold PDFStatistics.calculate_kurtosis.
  match goal with |- context [feq ?s 0] => destruct (feq s 0) eqn:E end; [eauto|].
  rewrite checked_div_finite; [eauto|].
  apply fourth_nonzero. intro Hz. apply feq_iff in Hz. congruence.
Qed.

(** Whenever the running integral ends at zero, [calculate_percentile]
    divides by it. *)
Lemma percentile_divides_by_last self percentile raw l :
  np.cumulative_trapezoid (PDFStatistics.pdf self) (PDFStatistics.strikes self)
  = Ok raw ->
  np.last_elt raw = Ok l ->
  l == 0 ->
  PDFStatistics.calculate_percentile self percentile = Ok NonFinite.
Proof.
  intros Hraw Hl Hz. unfold PDFStatistics.calculate_percentile.
  rewrite Hraw. cbn [bind]. rewrite Hl. cbn [bind].
  unfold array_checked_div. apply feq_iff in Hz. now rewrite Hz.
Qed.

End StatisticsProps.

(** C7. [calculate_skewness] and [calculate_kurtosis] never divide by zero
    and return 0 when the standard deviation is 0; [calculate_percentile]
    has no such guard: on a density that is zero everywhere it divides the
    running integral by its last entry, which is 0. *)
Theorem percentile_division_unguarded {sci : SciPy} :
  (forall self mean std,
      exists q, PDFStatistics.calculate_skewness self mean std = Finite q)
  /\ (forall self mean std,
        exists q, PDFStatistics.calculate_kurtosis self mean std = Finite q)
  /\ (forall self mean,
        PDFStatistics.calculate_skewness self mean (Some 0) = Finite 0
        /\ PDFStatistics.calculate_kurtosis self mean (Some 0) = Finite 0)
  /\ PDFStatistics.calculate_percentile flat_zero 50 = Ok NonFinite.
Proof.
  split; [exact skewness_guarded|]. split; [exact kurtosis_guarded|].
  split; [intros; split; reflexivity|]. vm_compute. reflexivity.
Qed.

(** ** Calibration inputs *)

Lemma valid_mask_In strikes ivs k iv :
  In (k, iv) (valid_mask strikes ivs) <->
  In (k, iv) (combine strikes ivs) /\ 0 < iv /\ 0 < k.
Proof.
  unfold valid_mask. rewrite filter_In. cbn [fst snd].
  unfold np_isfinite. rewrite !andb_true_iff, !fgt_iff. tauto.
Qed.

Lemma insert_by_perm {A} (key : A -> float) a l :
  Permutation (np.insert_by key a l) (a :: l).
Proof.
  induction l as [|b l IH]; cbn; [apply Permutation_refl|].
  destruct (flt (key a) (key b)); [apply Permutation_refl|].
  rewrite IH. apply perm_swap.
Qed.

Lemma sort_by_perm {A} (key : A -> float) l : Permutation (np.sort_by key l) l.
Proof.
  unfold np.sort_by.
  assert (H : forall acc,
             Permutation (fold_left (fun acc a => np.insert_by key a acc) l acc)
                         (l ++ acc)).
  { induction l as [|a l IH]; intro acc; cbn; [apply Permutation_refl|].
    rewrite IH. rewrite insert_by_perm. symmetry. apply Permutation_middle. }
  rewrite H. now rewrite app_nil_r.
Qed.

Lemma filter_perm {A} (f : A -> bool) l l' :
  Permutation l l' -> Permutation (filter f l) (filter f l').
Proof.
  induction 1 as [|a l l' _ IH|a b l|l l' l'' _ IH1 _ IH2]; cbn.
  - constructor.
  - destruct (f a); [now constructor|exact IH].
  - destruct (f a), (f b); try apply Permutation_refl. apply perm_swap.
  - now transitivity (filter f l').
Qed.

Lemma points_at_sorted k pts :
  points_at k (np.sort_by fst pts) = points_at k pts.
Proof.
  unfold points_at. apply Permutation_length, filter_perm, sort_by_perm.
Qed.

Lemma strictly_increasing_above x xs :
  CubicSplineInterpolator.strictly_increasing (x :: xs) = true ->
  Forall (fun y => x < y) xs
  /\ CubicSplineInterpolator.strictly_increasing xs = true.
Proof.
  revert x. induction xs as [|y xs IH]; intros x H; [split; [constructor|reflexivity]|].
  cbn [CubicSplineInterpolator.strictly_increasing] in H.
  apply andb_prop in H. destruct H as [Hxy Hrest].
  apply flt_iff in Hxy. split; [|exact Hrest].
  constructor; [exact Hxy|].
  destruct (IH y Hrest) as [Hall _].
  eapply Forall_impl; [|exact Hall]. cbn. intros z Hz. lra.
Qed.

(** A strictly increasing array holds each value at most once. *)
Lemma strictly_increasing_once k (pts : list (float * float)) :
  CubicSplineInterpolator.strictly_increasing (map fst pts) = true ->
  (points_at k pts <= 1)%nat.
Proof.
  unfold points_at.
  induction pts as [|p pts IH]; intro H; cbn [map filter length]; [lia|].
  cbn [map] in H. apply strictly_increasing_above in H. destruct H as [Hall Hinc].
  specialize (IH Hinc).
  destruct (feq (fst p) k) eqn:E; [|lia].
  apply feq_iff in E.
  assert (Hnone : filter (fun q => feq (fst q) k) pts = []).
  { clear IH Hinc. induction pts as [|q pts IHp]; [reflexivity|].
    cbn [map] in Hall. inversion Hall as [|? ? Hq Hall']; subst.
    cbn [filter]. destruct (feq (fst q) k) eqn:Eq.
    - apply feq_iff in Eq. rewrite E, Eq in Hq. lra.
    - now apply IHp. }
  rewrite Hnone. cbn. lia.
Qed.

Section CalibrationProps.
Context {sci : SciPy} {cst : Constants}.

Lemma sabr_needs_three strikes ivs forward tau guess self :
  (length (valid_mask strikes ivs) < 3)%nat ->
  snd (SABRModel.calibrate self strikes ivs forward tau guess)
  = Raise (ValueError "Need at least 3 valid strikes for calibration").
Proof.
  intro H. unfold SABRModel.calibrate. rewrite length_map.
  apply Nat.ltb_lt in H. now rewrite H.
Qed.

Lemma spline_surface_raises strikes ivs forward tau e :
  CubicSplineInterpolator.CubicSpline
    (map fst (np.sort_by fst (valid_mask strikes ivs)))
    (map snd (np.sort_by fst (valid_mask strikes ivs))) = Raise e ->
  calibrate_volatility_surface strikes ivs forward tau "spline" = Raise e.
Proof.
  intro H. unfold calibrate_volatility_surface. cbn [String.eqb Ascii.eqb Bool.eqb].
  unfold CubicSplineInterpolator.calibrate. now rewrite H.
Qed.

Lemma spline_needs_two strikes ivs forward tau :
  (length (valid_mask strikes ivs) < 2)%nat ->
  calibrate_volatility_surface strikes ivs forward tau "spline"
  = Raise (ValueError "`x` must contain at least 2 elements.").
Proof.
  intro H. apply spline_surface_raises. unfold CubicSplineInterpolator.CubicSpline.
  rewrite length_map, (Permutation_length (sort_by_perm _ _)).
  apply Nat.ltb_lt in H. now rewrite H.
Qed.

Lemma spline_rejects_repeats strikes ivs forward tau k :
  (2 <= points_at k (valid_mask strikes ivs))%nat ->
  exists msg,
    calibrate_volatility_surface strikes ivs forward tau "spline"
    = Raise (ValueError msg).
Proof.
  intro H. rewrite <- (points_at_sorted k) in H.
  set (sorted := np.sort_by fst (valid_mask strikes ivs)) in *.
  assert (Einc : CubicSplineInterpolator.strictly_increasing (map fst sorted) = false).
  { destruct (CubicSplineInterpolator.strictly_increasing (map fst sorted)) eqn:E;
      [|reflexivity].
    apply (strictly_increasing_once k) in E. lia. }
  destruct (length (map fst sorted) <? 2)%nat eqn:Elen;
    eexists; apply spline_surface_raises; fold sorted;
    unfold CubicSplineInterpolator.CubicSpline; rewrite Elen, ?Einc; reflexivity.
Qed.

End CalibrationProps.

(** C8 (as amended). Calibration drops the entries whose implied volatility
    or strike is not positive.  The SABR path raises [ValueError] whenever
    fewer than 3 valid points remain.  The spline path has no count check of
    its own: it raises when the spline constructor rejects the sorted valid
    points, which happens whenever fewer than 2 of them remain and whenever
    two of them share a strike. *)
Theorem calibration_point_requirements {sci : SciPy} {cst : Constants}
        strikes ivs forward tau :
  (forall k iv, In (k, iv) (valid_mask strikes ivs) <->
                In (k, iv) (combine strikes ivs) /\ 0 < iv /\ 0 < k)
  /\ ((length (valid_mask strikes ivs) < 3)%nat ->
      snd (SABRModel.calibrate (SABRModel.__init__ SABR_BETA)
                               strikes ivs forward tau None)
      = Raise (ValueError "Need at least 3 valid strikes for calibration"))
  /\ ((length (valid_mask strikes ivs) < 2)%nat ->
      calibrate_volatility_surface strikes ivs forward tau "spline"
      = Raise (ValueError "`x` must contain at least 2 elements."))
  /\ (forall k, (2 <= points_at k (valid_mask strikes ivs))%nat ->
                exists msg,
                  calibrate_volatility_surface strikes ivs forward tau "spline"
                  = Raise (ValueError msg)).
Proof.
  split; [intros; apply valid_mask_In|].
  split; [apply sabr_needs_three|].
  split; [apply spline_needs_two|].
  intro k. apply spline_rejects_repeats.
Qed.

Lemma calibration_point_requirements_witness :
  snd (@SABRModel.calibrate qsci constants_py
         (SABRModel.__init__ (@SABR_BETA constants_py))
         [100; 100; 0] [0.2; 0.21; 0.3] 100 (1 # 12) None)
  = Raise (ValueError "Need at least 3 valid strikes for calibration")
  /\ (exists msg,
        @calibrate_volatility_surface qsci constants_py
          [100; 100; 0] [0.2; 0.21; 0.3] 100 (1 # 12) "spline"
        = Raise (ValueError msg))
  /\ @calibrate_volatility_surface qsci constants_py
       [100; -5] [0.2; 0.2] 100 (1 # 12) "spline"
     = Raise (ValueError "`x` must contain at least 2 elements.").
Proof.
  destruct (@calibration_point_requirements qsci constants_py
              [100; 100; 0] [0.2; 0.21; 0.3] 100 (1 # 12))
    as (_ & Hsabr & _ & Hrep).
  destruct (@calibration_point_requirements qsci constants_py
              [100; -5] [0.2; 0.2] 100 (1 # 12))
    as (_ & _ & Hfew & _).
  split; [apply Hsabr; vm_compute; lia|].
  split; [apply (Hrep 100); vm_compute; lia|].
  apply Hfew. vm_compute. lia.
Defined.

(** Three valid points, two of them at the same strike: enough points, and
    the spline path still raises. *)
Lemma spline_path_counterexample :
  length (valid_mask [100; 100; 110] [0.2; 0.21; 0.25]) = 3%nat
  /\ @calibrate_volatility_surface qsci constants_py
       [100; 100; 110] [0.2; 0.21; 0.25] 100 (1 # 12) "spline"
     = Raise (ValueError "`x` must be strictly increasing sequence.").
Proof. split; vm_compute; reflexivity. Qed.

(** ** SABR failures and the spline fallback *)

Section FallbackProps.
Context {sci : SciPy} {cst : Constants}.

(** An exception of the SABR calibration sends the call down the spline
    path, on the same inputs. *)
Lemma sabr_exception_falls_back strikes ivs forward tau e :
  snd (SABRModel.calibrate (SABRModel.__init__ SABR_BETA)
                           strikes ivs forward tau None) = Raise e ->
  calibrate_volatility_surface strikes ivs forward tau "sabr"
  = calibrate_volatility_surface strikes ivs forward tau "spline".
Proof.
  intro H. unfold calibrate_volatility_surface.
  cbn [String.eqb Ascii.eqb Bool.eqb].
  destruct (SABRModel.calibrate _ strikes ivs forward tau None) as [m [st|e']];
    cbn [snd] in H; [discriminate|]. reflexivity.
Qed.

(** A SABR calibration that returns is returned as it is. *)
Lemma sabr_result_is_kept strikes ivs forward tau st :
  snd (SABRModel.calibrate (SABRModel.__init__ SABR_BETA)
                           strikes ivs forward tau None) = Ok st ->
  calibrate_volatility_surface strikes ivs forward tau "sabr"
  = Ok (SABR_model (fst (SABRModel.calibrate (SABRModel.__init__ SABR_BETA)
                                             strikes ivs forward tau None)), st).
Proof.
  intro H. unfold calibrate_volatility_surface.
  cbn [String.eqb Ascii.eqb Bool.eqb].
  destruct (SABRModel.calibrate _ strikes ivs forward tau None) as [m [st'|e']];
    cbn [snd fst] in *; [|discriminate]. congruence.
Qed.

(** When neither attempt of the optimizer reports success, the SABR
    calibration still returns: the parameters are those of the second
    attempt and [success] is false. *)
Lemma sabr_unsuccessful_returns strikes ivs forward tau r1 r2 :
  let valid := valid_mask strikes ivs in
  let obj := SABRModel.objective (SABRModel.__init__ SABR_BETA)
               (map fst valid) (map snd valid) forward tau in
  let x0 := (SABR_INITIAL_ALPHA, SABR_INITIAL_RHO, SABR_INITIAL_NU) in
  (3 <= length valid)%nat ->
  minimize obj x0 Nelder_Mead None 1000 = Ok r1 ->
  res_success r1 = false ->
  minimize obj x0 L_BFGS_B (Some SABRModel.bounds) 1000 = Ok r2 ->
  res_success r2 = false ->
  exists model st,
    SABRModel.calibrate (SABRModel.__init__ SABR_BETA)
                        strikes ivs forward tau None = (model, Ok st)
    /\ stats_success st = false
    /\ (SABRModel.alpha model, SABRModel.rho model, SABRModel.nu model)
       = (Some (fst (fst (res_x r2))), Some (snd (fst (res_x r2))),
          Some (snd (res_x r2))).
Proof.
  intros valid obj x0 Hlen H1 Hr1 H2 Hr2.
  unfold SABRModel.calibrate. fold valid. rewrite length_map.
  apply Nat.ltb_ge in Hlen. rewrite Hlen.
  match goal with
  | |- context [minimize ?f ?y Nelder_Mead None 1000] =>
      change f with obj; change y with x0
  end.
  rewrite H1. cbn [bind]. rewrite Hr1. cbn [negb]. rewrite H2.
  destruct (res_x r2) as [[a r] n]. cbn [fst snd].
  unfold SABRModel.get_volatility. cbn [SABRModel.is_calibrated negb
    SABRModel.forward SABRModel.alpha SABRModel.rho SABRModel.nu SABRModel.tau bind].
  eexists. eexists. split; [reflexivity|]. split; [exact Hr2|reflexivity].
Qed.

End FallbackProps.

(** C4 (as amended). An exception raised inside SABR calibration, such as
    the one for fewer than 3 valid points, is caught by
    [calibrate_volatility_surface], which then runs the spline calibration on
    the same inputs: the outcome is the spline path's, and no SABR error
    propagates.  When neither attempt of the optimizer reports success
    nothing is raised: the SABR model holds the parameters of the second
    attempt, its statistics say [success] false, and that model is what
    [calibrate_volatility_surface] returns. *)
Theorem sabr_failure_handling {sci : SciPy} {cst : Constants}
        strikes ivs forward tau :
  let valid := valid_mask strikes ivs in
  let obj := SABRModel.objective (SABRModel.__init__ SABR_BETA)
               (map fst valid) (map snd valid) forward tau in
  let x0 := (SABR_INITIAL_ALPHA, SABR_INITIAL_RHO, SABR_INITIAL_NU) in
  (forall e,
      snd (SABRModel.calibrate (SABRModel.__init__ SABR_BETA)
                               strikes ivs forward tau None) = Raise e ->
      calibrate_volatility_surface strikes ivs forward tau "sabr"
      = calibrate_volatility_surface strikes ivs forward tau "spline")
  /\ ((length valid < 3)%nat ->
      calibrate_volatility_surface strikes ivs forward tau "sabr"
      = calibrate_volatility_surface strikes ivs forward tau "spline")
  /\ (forall r1 r2,
        (3 <= length valid)%nat ->
        minimize obj x0 Nelder_Mead None 1000 = Ok r1 ->
        res_success r1 = false ->
        minimize obj x0 L_BFGS_B (Some SABRModel.bounds) 1000 = Ok r2 ->
        res_success r2 = false ->
        exists model st,
          calibrate_volatility_surface strikes ivs forward tau "sabr"
          = Ok (SABR_model model, st)
          /\ stats_success st = false
          /\ (SABRModel.alpha model, SABRModel.rho model, SABRModel.nu model)
             = (Some (fst (fst (res_x r2))), Some (snd (fst (res_x r2))),
                Some (snd (res_x r2)))).
Proof.
  intros valid obj x0.
  split; [apply sabr_exception_falls_back|]. split.
  - intro H. eapply sabr_exception_falls_back, sabr_needs_three, H.
  - intros r1 r2 Hlen H1 Hr1 H2 Hr2.
    destruct (sabr_unsuccessful_returns strikes ivs forward tau r1 r2
                Hlen H1 Hr1 H2 Hr2) as (model & st & Hcal & Hs & Hx).
    exists model, st. split; [|split; assumption].
    rewrite (sabr_result_is_kept strikes ivs forward tau st);
      rewrite Hcal; reflexivity.
Qed.

(** With an optimizer that reports no success on either attempt, the
    ['sabr'] method returns the SABR model, flagged unsuccessful, and not a
    spline. *)
Lemma stalled_optimizer_counterexample :
  match @calibrate_volatility_surface qsci_stalled constants_py
          smile_strikes smile_ivs 100 (1 # 12) "sabr" with
  | Ok (SABR_model m, st) =>
      stats_success st = false /\ SABRModel.is_calibrated m = true
  | Ok (Spline_model _, _) => False
  | Raise _ => False
  end.
Proof. vm_compute. split; reflexivity. Qed.

Lemma sabr_failure_handling_witness :
  @calibrate_volatility_surface qsci constants_py
    [100; 100; 0] [0.2; 0.21; 0.3] 100 (1 # 12) "sabr"
  = @calibrate_volatility_surface qsci constants_py
      [100; 100; 0] [0.2; 0.21; 0.3] 100 (1 # 12) "spline"
  /\ exists model st,
       @calibrate_volatility_surface qsci_stalled constants_py
         smile_strikes smile_ivs 100 (1 # 12) "sabr"
       = Ok (SABR_model model, st)
       /\ stats_success st = false.
Proof.
  destruct (@sabr_failure_handling qsci constants_py
              [100; 100; 0] [0.2; 0.21; 0.3] 100 (1 # 12))
    as (_ & Hfew & _).
  destruct (@sabr_failure_handling qsci_stalled constants_py
              smile_strikes smile_ivs 100 (1 # 12))
    as (_ & _ & Hstall).
  split; [apply Hfew; vm_compute; lia|].
  destruct (Hstall _ _ ltac:(vm_compute; lia) eq_refl eq_refl eq_refl eq_refl)
    as (model & st & Hres & Hs & _).
  exists model, st. split; assumption.
Defined.

(** ** Shape similarity *)

Lemma linspace_length start stop num : length (np.linspace start stop num) = num.
Proof.
  destruct num as [|[|d]]; try reflexivity.
  unfold np.linspace. rewrite length_app, length_map, length_seq. cbn. lia.
Qed.

Lemma amin_spec a m :
  np.amin a = Ok m -> In m a /\ Forall (fun v => m <= v) a.
Proof.
  destruct a as [|v t]; [discriminate|]. cbn [np.amin]. intro H. injection H as <-.
  assert (G : forall t acc,
            let r := fold_left (fun m w => if fle m w then m else w) t acc in
            (r = acc \/ In r t) /\ r <= acc /\ Forall (fun w => r <= w) t).
  { clear. induction t as [|w t IH]; intro acc; cbn.
    - split; [now left|]. split; [lra|constructor].
    - destruct (fle acc w) eqn:E.
      + apply fle_iff in E. destruct (IH acc) as (Hin & Hle & Hall).
        split; [tauto|]. split; [exact Hle|]. constructor; [lra|exact Hall].
      + apply fle_false in E. destruct (IH w) as (Hin & Hle & Hall).
        split; [destruct Hin as [->|]; tauto|]. split; [lra|].
        constructor; [exact Hle|exact Hall]. }
  destruct (G t v) as (Hin & Hle & Hall).
  split; [cbn; destruct Hin as [->|]; tauto|]. constructor; assumption.
Qed.

Lemma amax_spec a m :
  np.amax a = Ok m -> In m a /\ Forall (fun v => v <= m) a.
Proof.
  destruct a as [|v t]; [discriminate|]. cbn [np.amax]. intro H. injection H as <-.
  assert (G : forall t acc,
            let r := fold_left (fun m w => if fle w m then m else w) t acc in
            (r = acc \/ In r t) /\ acc <= r /\ Forall (fun w => w <= r) t).
  { clear. induction t as [|w t IH]; intro acc; cbn.
    - split; [now left|]. split; [lra|constructor].
    - destruct (fle w acc) eqn:E.
      + apply fle_iff in E. destruct (IH acc) as (Hin & Hle & Hall).
        split; [tauto|]. split; [exact Hle|]. constructor; [lra|exact Hall].
      + apply fle_false in E. destruct (IH w) as (Hin & Hle & Hall).
        split; [destruct Hin as [->|]; tauto|]. split; [lra|].
        constructor; [exact Hle|exact Hall]. }
  destruct (G t v) as (Hin & Hle & Hall).
  split; [cbn; destruct Hin as [->|]; tauto|]. constructor; assumption.
Qed.

Lemma clamp_unit x : 0 <= py_max 0 (py_min 1 x) /\ py_max 0 (py_min 1 x) <= 1.
Proof.
  unfold py_max, py_min, fgt.
  destruct (flt x 1) eqn:E1.
  - apply flt_iff in E1. destruct (flt 0 x) eqn:E2.
    + apply flt_iff in E2. lra.
    + lra.
  - destruct (flt 0 1) eqn:E2; lra.
Qed.



Lemma overlapping_similarity_ok :
  is_ok (@PDFPatternMatcher._pdf_shape_similarity qsci
           [1; 2; 1] [0; 1; 2] [1; 3; 1] [1; 2; 3]) = true.
Proof. vm_compute. reflexivity. Qed.



(** * Further properties of the modelled code *)

(** ** Queries on the extractor *)

Lemma get_probability_unfitted self level condition :
  BreedenlitzenbergPDF.cdf self = None \/ BreedenlitzenbergPDF.strikes self = None ->
  BreedenlitzenbergPDF.get_probability self level condition
  = (self, Raise (ValueError "PDF must be calculated first")).
Proof.
  intro H. unfold BreedenlitzenbergPDF.get_probability.
  destruct H as [-> | ->]; [reflexivity|].
  destruct (BreedenlitzenbergPDF.cdf self); reflexivity.
Qed.

Lemma get_probability_range_unfitted self lower upper :
  BreedenlitzenbergPDF.cdf self = None \/ BreedenlitzenbergPDF.strikes self = None ->
  BreedenlitzenbergPDF.get_probability_range self lower upper
  = (self, Raise (ValueError "PDF must be calculated first")).
Proof.
  intro H. unfold BreedenlitzenbergPDF.get_probability_range.
  now rewrite (get_probability_unfitted self upper "below" H).
Qed.

(** X1. On an extractor whose CDF or strike grid is not set,
    [get_probability] and [get_probability_range] raise
    [ValueError("PDF must be calculated first")] and leave the object as it
    was. *)
Theorem queries_need_a_fit self level lower upper condition :
  BreedenlitzenbergPDF.cdf self = None \/ BreedenlitzenbergPDF.strikes self = None ->
  BreedenlitzenbergPDF.get_probability self level condition
  = (self, Raise (ValueError "PDF must be calculated first"))
  /\ BreedenlitzenbergPDF.get_probability_range self lower upper
     = (self, Raise (ValueError "PDF must be calculated first")).
Proof.
  intro H. split.
  - now apply get_probability_unfitted.
  - now apply get_probability_range_unfitted.
Qed.

Lemma queries_need_a_fit_witness :
  BreedenlitzenbergPDF.get_probability BreedenlitzenbergPDF.__init__ 100 "below"
  = (BreedenlitzenbergPDF.__init__, Raise (ValueError "PDF must be calculated first"))
  /\ BreedenlitzenbergPDF.get_probability_range BreedenlitzenbergPDF.__init__ 90 110
     = (BreedenlitzenbergPDF.__init__, Raise (ValueError "PDF must be calculated first")).
Proof.
  apply (queries_need_a_fit BreedenlitzenbergPDF.__init__ 100 90 110 "below").
  left. reflexivity.
Defined.

(** What the two queries compute on a fitted extractor. *)
Lemma get_probability_below self c s f level :
  BreedenlitzenbergPDF.cdf self = Some c ->
  BreedenlitzenbergPDF.strikes self = Some s ->
  np.interp1d s c = Ok f ->
  BreedenlitzenbergPDF.get_probability self level "below" = (self, Ok (f level)).
Proof.
  intros Hc Hs Hf. unfold BreedenlitzenbergPDF.get_probability.
  rewrite Hc, Hs, Hf. reflexivity.
Qed.

Lemma probability_range_eq self c s f lower upper :
  BreedenlitzenbergPDF.cdf self = Some c ->
  BreedenlitzenbergPDF.strikes self = Some s ->
  np.interp1d s c = Ok f ->
  BreedenlitzenbergPDF.get_probability_range self lower upper
  = (self, Ok (fsub (f upper) (f lower))).
Proof.
  intros Hc Hs Hf.
  unfold BreedenlitzenbergPDF.get_probability_range.
  rewrite !(get_probability_below self c s f _ Hc Hs Hf). reflexivity.
Qed.

Lemma probability_range_fails self c s e lower upper :
  BreedenlitzenbergPDF.cdf self = Some c ->
  BreedenlitzenbergPDF.strikes self = Some s ->
  np.interp1d s c = Raise e ->
  snd (BreedenlitzenbergPDF.get_probability_range self lower upper) = Raise e.
Proof.
  intros Hc Hs Hf.
  assert (G : forall l, BreedenlitzenbergPDF.get_probability self l "below"
                        = (self, Raise e)).
  { intro l. unfold BreedenlitzenbergPDF.get_probability.
    rewrite Hc, Hs, Hf. reflexivity. }
  unfold BreedenlitzenbergPDF.get_probability_range. rewrite !G. reflexivity.
Qed.

(** A range query that returns was made on a fitted extractor whose knots
    could be interpolated. *)
Lemma probability_range_inv self a b p :
  snd (BreedenlitzenbergPDF.get_probability_range self a b) = Ok p ->
  exists c s f,
    BreedenlitzenbergPDF.cdf self = Some c
    /\ BreedenlitzenbergPDF.strikes self = Some s
    /\ np.interp1d s c = Ok f.
Proof.
  intro H.
  destruct (BreedenlitzenbergPDF.cdf self) as [cd|] eqn:Hc;
    [|rewrite (get_probability_range_unfitted self a b (or_introl Hc)) in H;
      discriminate].
  destruct (BreedenlitzenbergPDF.strikes self) as [s|] eqn:Hs;
    [|rewrite (get_probability_range_unfitted self a b (or_intror Hs)) in H;
      discriminate].
  destruct (np.interp1d s cd) as [f|e] eqn:Hf;
    [|rewrite (probability_range_fails self cd s e a b Hc Hs Hf) in H; discriminate].
  now exists cd, s, f.
Qed.

(** X2. Ranges add up: whenever the three queries return,
    [range(a, b) + range(b, c) = range(a, c)], and a range is the difference
    of the two ['below'] probabilities at its ends. *)
Theorem probability_range_additive self a b c pab pbc pac :
  snd (BreedenlitzenbergPDF.get_probability_range self a b) = Ok pab ->
  snd (BreedenlitzenbergPDF.get_probability_range self b c) = Ok pbc ->
  snd (BreedenlitzenbergPDF.get_probability_range self a c) = Ok pac ->
  pab + pbc == pac
  /\ exists pa pb,
       snd (BreedenlitzenbergPDF.get_probability self a "below") = Ok pa
       /\ snd (BreedenlitzenbergPDF.get_probability self b "below") = Ok pb
       /\ pab == pb - pa.
Proof.
  intros Hab Hbc Hac.
  destruct (probability_range_inv self a b pab Hab) as (cd & s & f & Hc & Hs & Hf).
  rewrite (probability_range_eq self cd s f a b Hc Hs Hf) in Hab.
  rewrite (probability_range_eq self cd s f b c Hc Hs Hf) in Hbc.
  rewrite (probability_range_eq self cd s f a c Hc Hs Hf) in Hac.
  cbn [snd] in *. injection Hab as <-. injection Hbc as <-. injection Hac as <-.
  split; [rewrite !fsub_correct; unfold float; ring|].
  exists (f a), (f b).
  rewrite !(get_probability_below self cd s f _ Hc Hs Hf).
  repeat split. apply fsub_correct.
Qed.

Lemma probability_range_additive_witness :
  exists pab pbc pac,
    snd (BreedenlitzenbergPDF.get_probability_range fitted 92 97) = Ok pab
    /\ snd (BreedenlitzenbergPDF.get_probability_range fitted 97 108) = Ok pbc
    /\ snd (BreedenlitzenbergPDF.get_probability_range fitted 92 108) = Ok pac
    /\ pab + pbc == pac.
Proof.
  eexists. eexists. eexists.
  split; [vm_compute; reflexivity|].
  split; [vm_compute; reflexivity|].
  split; [vm_compute; reflexivity|].
  refine (proj1 (probability_range_additive fitted 92 97 108 _ _ _ _ _ _));
    vm_compute; reflexivity.
Defined.

(** ** Linear interpolation through sorted knots *)

Lemma insert_by_last {A} (key : A -> float) a l :
  Forall (fun b => key b <= key a) l -> np.insert_by key a l = l ++ [a].
Proof.
  induction 1 as [|b l Hb Hl IH]; [reflexivity|].
  cbn [np.insert_by app].
  destruct (flt (key a) (key b)) eqn:E.
  - apply flt_iff in E. unfold float in *. lra.
  - now rewrite IH.
Qed.

Lemma sort_by_from {A} (key : A -> float) l : forall acc,
  StronglySorted (fun a b => key a <= key b) (acc ++ l) ->
  fold_left (fun acc a => np.insert_by key a acc) l acc = acc ++ l.
Proof.
  induction l as [|a l IH]; intros acc H; cbn [fold_left].
  - now rewrite app_nil_r.
  - rewrite insert_by_last.
    + rewrite IH; rewrite <- app_assoc; [reflexivity | exact H].
    + clear IH. induction acc as [|b acc IHa]; [constructor|].
      cbn [app] in H. inversion H as [|? ? Hs Hf]; subst.
      constructor; [|now apply IHa].
      rewrite Forall_app in Hf. destruct Hf as [_ Hf].
      now inversion Hf.
Qed.

(** Rows that are already in order stay as they are. *)
Lemma sort_by_sorted {A} (key : A -> float) l :
  Sorted Qle (map key l) -> np.sort_by key l = l.
Proof.
  intro H. unfold np.sort_by. rewrite sort_by_from; [reflexivity|].
  cbn [app]. apply Sorted_StronglySorted in H; [|intros x y z; apply Qle_trans].
  induction l as [|a l IH]; [constructor|].
  cbn [map] in H. inversion H as [|? ? Hs Hf]; subst.
  constructor; [now apply IH|].
  now rewrite Forall_map in Hf.
Qed.

Lemma sorted_lt_le l : Sorted Qlt l -> Sorted Qle l.
Proof.
  induction 1 as [|a l Hs IH Hr]; constructor; [exact IH|].
  destruct Hr; constructor. now apply Qlt_le_weak.
Qed.

Lemma map_fst_combine {A B} (x : list A) : forall (y : list B),
  length x = length y -> map fst (combine x y) = x.
Proof.
  induction x as [|a x IH]; intros [|b y] H; try discriminate; [reflexivity|].
  cbn. f_equal. apply IH. now injection H.
Qed.

Lemma map_snd_combine {A B} (x : list A) : forall (y : list B),
  length x = length y -> map snd (combine x y) = y.
Proof.
  induction x as [|a x IH]; intros [|b y] H; try discriminate; [reflexivity|].
  cbn. f_equal. apply IH. now injection H.
Qed.

(** The line through two knots of increasing abscissa. *)
Lemma lerp_at_lo v x0 y0 x1 y1 :
  v == x0 -> np.lerp v ((x0, y0), (x1, y1)) == y0.
Proof.
  intro H. unfold np.lerp. fnorm. rewrite H. unfold Qdiv. ring.
Qed.

Lemma lerp_at_hi v x0 y0 x1 y1 :
  x0 < x1 -> v == x1 -> np.lerp v ((x0, y0), (x1, y1)) == y1.
Proof.
  intros Hx H. unfold np.lerp. fnorm. rewrite H. field. lra.
Qed.

Lemma lerp_mono a b x0 y0 x1 y1 :
  x0 < x1 -> y0 <= y1 -> a <= b ->
  np.lerp a ((x0, y0), (x1, y1)) <= np.lerp b ((x0, y0), (x1, y1)).
Proof.
  intros Hx Hy Hab. unfold np.lerp. fnorm.
  assert (Hs : 0 <= (y1 - y0) / (x1 - x0)).
  { apply Qle_shift_div_l; lra. }
  set (s := (y1 - y0) / (x1 - x0)) in *. clearbody s. nra.
Qed.

(** The interpolant of [interp1d] on knots [k0 :: rest]. *)
Lemma segment_two v k0 k1 :
  np.segment (fun x_hi => fle v x_hi) k0 [k1] = (k0, k1).
Proof. reflexivity. Qed.

Lemma segment_stop v k0 k1 k2 rest :
  fle v (fst k1) = true ->
  np.segment (fun x_hi => fle v x_hi) k0 (k1 :: k2 :: rest) = (k0, k1).
Proof. intro E. cbn [np.segment]. now rewrite E. Qed.

Lemma segment_next v k0 k1 k2 rest :
  fle v (fst k1) = false ->
  np.segment (fun x_hi => fle v x_hi) k0 (k1 :: k2 :: rest)
  = np.segment (fun x_hi => fle v x_hi) k1 (k2 :: rest).
Proof. intro E. cbn [np.segment]. now rewrite E. Qed.

Lemma interp_lower rest : forall k0 v,
  rest <> [] ->
  Sorted Qlt (map fst (k0 :: rest)) -> Sorted Qle (map snd (k0 :: rest)) ->
  fst k0 <= v ->
  snd k0 <= np.lerp v (np.segment (fun x_hi => fle v x_hi) k0 rest).
Proof.
  induction rest as [|k1 rest IH]; intros k0 v Hne Hx Hy Hv; [congruence|].
  cbn [map] in Hx, Hy.
  inversion Hx as [|? ? Hx' Hr]; subst. inversion Hr as [|? ? Hlt]; subst.
  inversion Hy as [|? ? Hy' Hr']; subst. inversion Hr' as [|? ? Hle]; subst.
  assert (Hbase : snd k0 <= np.lerp v (k0, k1)).
  { destruct k0 as [x0 y0], k1 as [x1 y1]; cbn [fst snd] in *.
    rewrite <- (lerp_at_lo x0 x0 y0 x1 y1) at 1 by reflexivity.
    now apply lerp_mono. }
  destruct rest as [|k2 rest]; [exact Hbase|].
  destruct (fle v (fst k1)) eqn:E; [now rewrite segment_stop|].
  rewrite segment_next by exact E. apply fle_false in E.
  eapply Qle_trans; [exact Hle|].
  apply IH; [discriminate | exact Hx' | exact Hy' | now apply Qlt_le_weak].
Qed.

Lemma interp_mono rest : forall k0 a b,
  rest <> [] ->
  Sorted Qlt (map fst (k0 :: rest)) -> Sorted Qle (map snd (k0 :: rest)) ->
  a <= b ->
  np.lerp a (np.segment (fun x_hi => fle a x_hi) k0 rest)
  <= np.lerp b (np.segment (fun x_hi => fle b x_hi) k0 rest).
Proof.
  induction rest as [|k1 rest IH]; intros k0 a b Hne Hx Hy Hab; [congruence|].
  cbn [map] in Hx, Hy.
  inversion Hx as [|? ? Hx' Hr]; subst. inversion Hr as [|? ? Hlt]; subst.
  inversion Hy as [|? ? Hy' Hr']; subst. inversion Hr' as [|? ? Hle]; subst.
  assert (Hbase : forall u w, u <= w -> np.lerp u (k0, k1) <= np.lerp w (k0, k1)).
  { intros u w Huw. destruct k0 as [x0 y0], k1 as [x1 y1]; cbn [fst snd] in *.
    now apply lerp_mono. }
  destruct rest as [|k2 rest]; [now apply Hbase|].
  destruct (fle a (fst k1)) eqn:Ea, (fle b (fst k1)) eqn:Eb;
    rewrite ?(segment_stop a), ?(segment_stop b), ?(segment_next a), ?(segment_next b)
      by assumption.
  - now apply Hbase.
  - apply fle_iff in Ea. apply fle_false in Eb.
    apply Qle_trans with (snd k1).
    + apply Qle_trans with (np.lerp (fst k1) (k0, k1)); [now apply Hbase|].
      destruct k0 as [x0 y0], k1 as [x1 y1]; cbn [fst snd] in *.
      rewrite lerp_at_hi; [apply Qle_refl | exact Hlt | reflexivity].
    + apply interp_lower; [discriminate | exact Hx' | exact Hy' | now apply Qlt_le_weak].
  - apply fle_false in Ea. apply fle_iff in Eb. unfold float in *. lra.
  - apply IH; [discriminate | exact Hx' | exact Hy' | exact Hab].
Qed.

Lemma interp_exact rest : forall k0 k v,
  rest <> [] ->
  Sorted Qlt (map fst (k0 :: rest)) ->
  In k (k0 :: rest) ->
  v == fst k ->
  np.lerp v (np.segment (fun x_hi => fle v x_hi) k0 rest) == snd k.
Proof.
  induction rest as [|k1 rest IH]; intros k0 k v Hne Hx Hin Hv; [congruence|].
  cbn [map] in Hx.
  pose proof (Sorted_StronglySorted Qlt_trans Hx) as Hss.
  inversion Hx as [|? ? Hx' Hr]; subst. inversion Hr as [|? ? Hlt]; subst.
  inversion Hss as [|? ? _ Hall]; subst.
  assert (H0 : k = k0 -> np.lerp v (k0, k1) == snd k).
  { intros ->. destruct k0 as [x0 y0], k1 as [x1 y1]; cbn [fst snd] in *.
    now apply lerp_at_lo. }
  assert (H1 : k = k1 -> np.lerp v (k0, k1) == snd k).
  { intros ->. destruct k0 as [x0 y0], k1 as [x1 y1]; cbn [fst snd] in *.
    now apply lerp_at_hi. }
  destruct rest as [|k2 rest].
  - cbn [np.segment].
    destruct Hin as [Hin | [Hin | []]]; [now apply H0 | now apply H1].
  - destruct Hin as [Hin | Hin].
    + assert (E : fle v (fst k1) = true).
      { apply fle_iff. rewrite Hv, <- Hin. now apply Qlt_le_weak. }
      rewrite segment_stop by exact E. now apply H0.
    + destruct Hin as [Hin | Hin].
      * assert (E : fle v (fst k1) = true).
        { apply fle_iff. rewrite Hv, <- Hin. apply Qle_refl. }
        rewrite segment_stop by exact E. now apply H1.
      * assert (E : fle v (fst k1) = false).
        { apply fle_false. rewrite Hv. cbn [map] in Hx'.
          pose proof (Sorted_StronglySorted Qlt_trans Hx') as Hss'.
          inversion Hss' as [|? ? _ Hall']; subst.
          rewrite Forall_forall in Hall'. apply Hall'.
          change (In (fst k) (map fst (k2 :: rest))). now apply in_map. }
        rewrite segment_next by exact E.
        apply IH; [discriminate | exact Hx' | now right | exact Hv].
Qed.

(** On strictly increasing strikes [interp1d] interpolates the knots as
    they are given. *)
Lemma interp1d_increasing s c :
  length s = length c -> s <> [] -> Sorted Qlt s ->
  exists k0 rest,
    combine s c = k0 :: rest
    /\ np.interp1d s c
       = Ok (fun v => np.lerp v (np.segment (fun x_hi => fle v x_hi) k0 rest)).
Proof.
  intros Hlen Hne Hs. unfold np.interp1d. unfold float in *.
  rewrite Hlen, Nat.eqb_refl. cbn [negb].
  rewrite sort_by_sorted
    by (rewrite map_fst_combine by exact Hlen; now apply sorted_lt_le).
  destruct s as [|s0 s]; [congruence|]. destruct c as [|c0 c]; [discriminate|].
  cbn [combine]. eexists. eexists. split; reflexivity.
Qed.

Lemma combine_tail_nonempty {A B} (s : list A) (c : list B) k0 rest :
  length s = length c -> (2 <= length s)%nat ->
  combine s c = k0 :: rest -> rest <> [].
Proof.
  intros Hlen H2 Hk.
  assert (L : length (combine s c) = length s)
    by (rewrite length_combine; lia).
  rewrite Hk in L. cbn in L. destruct rest; [cbn in L; lia | discriminate].
Qed.

(** X3. When the stored strikes are strictly increasing and the stored CDF
    never decreases, ['below'] probabilities grow with the level (also
    beyond either end of the grid), and the probability of a range with
    [lower <= upper] is not negative. *)
Theorem get_probability_monotone self c s a b :
  BreedenlitzenbergPDF.cdf self = Some c ->
  BreedenlitzenbergPDF.strikes self = Some s ->
  length s = length c -> (2 <= length s)%nat ->
  Sorted Qlt s -> Sorted Qle c ->
  a <= b ->
  exists pa pb p,
    BreedenlitzenbergPDF.get_probability self a "below" = (self, Ok pa)
    /\ BreedenlitzenbergPDF.get_probability self b "below" = (self, Ok pb)
    /\ pa <= pb
    /\ BreedenlitzenbergPDF.get_probability_range self a b = (self, Ok p)
    /\ 0 <= p.
Proof.
  intros Hc Hs Hlen H2 Hsx Hsc Hab.
  destruct (interp1d_increasing s c Hlen) as (k0 & rest & Hk & Hf);
    [destruct s; [cbn in H2; lia | discriminate] | exact Hsx |].
  pose proof (combine_tail_nonempty s c k0 rest Hlen H2 Hk) as Hne.
  assert (Hm : np.lerp a (np.segment (fun x_hi => fle a x_hi) k0 rest)
               <= np.lerp b (np.segment (fun x_hi => fle b x_hi) k0 rest)).
  { apply interp_mono; [exact Hne | | | exact Hab];
      unfold float in *; rewrite <- Hk.
    - now rewrite map_fst_combine.
    - now rewrite map_snd_combine. }
  eexists. eexists. eexists.
  split; [exact (get_probability_below self c s _ a Hc Hs Hf)|].
  split; [exact (get_probability_below self c s _ b Hc Hs Hf)|].
  split; [exact Hm|].
  split; [exact (probability_range_eq self c s _ a b Hc Hs Hf)|].
  cbv beta. rewrite fsub_correct. unfold float in *. lra.
Qed.

Lemma get_probability_monotone_witness :
  exists pa pb p,
    BreedenlitzenbergPDF.get_probability fitted 85 "below" = (fitted, Ok pa)
    /\ BreedenlitzenbergPDF.get_probability fitted 104 "below" = (fitted, Ok pb)
    /\ pa <= pb
    /\ BreedenlitzenbergPDF.get_probability_range fitted 85 104 = (fitted, Ok p)
    /\ 0 <= p.
Proof.
  apply (get_probability_monotone fitted [0; 0.5; 1] [90; 100; 110] 85 104);
    try reflexivity.
  - cbn. lia.
  - repeat constructor.
  - repeat constructor; discriminate.
  - discriminate.
Defined.

(** X4. At a strike of the stored grid the ['below'] probability is the
    stored CDF entry of that strike: the interpolation goes through its
    knots. *)
Theorem get_probability_at_grid_strike self c s i k v :
  BreedenlitzenbergPDF.cdf self = Some c ->
  BreedenlitzenbergPDF.strikes self = Some s ->
  length s = length c -> (2 <= length s)%nat ->
  Sorted Qlt s ->
  nth_error s i = Some k -> nth_error c i = Some v ->
  exists p,
    BreedenlitzenbergPDF.get_probability self k "below" = (self, Ok p)
    /\ p == v
    /\ BreedenlitzenbergPDF.get_probability self k "above" = (self, Ok (fsub 1 p)).
Proof.
  intros Hc Hs Hlen H2 Hsx Hk Hv.
  destruct (interp1d_increasing s c Hlen) as (k0 & rest & Hkn & Hf);
    [destruct s; [cbn in H2; lia | discriminate] | exact Hsx |].
  pose proof (combine_tail_nonempty s c k0 rest Hlen H2 Hkn) as Hne.
  eexists.
  split; [exact (get_probability_below self c s _ k Hc Hs Hf)|].
  split.
  - cbv beta. apply (interp_exact rest k0 (k, v)).
    + exact Hne.
    + unfold float in *. rewrite <- Hkn. now rewrite map_fst_combine.
    + unfold float in *. rewrite <- Hkn. apply (nth_error_In _ i).
      clear - Hk Hv. revert c i Hk Hv.
      induction s as [|s0 s IH]; intros [|c0 c] [|i] Hk Hv; try discriminate.
      * cbn in *. congruence.
      * cbn in *. now apply IH.
    + reflexivity.
  - unfold BreedenlitzenbergPDF.get_probability. rewrite Hc, Hs, Hf. reflexivity.
Qed.

Lemma get_probability_at_grid_strike_witness :
  exists p,
    BreedenlitzenbergPDF.get_probability fitted 100 "below" = (fitted, Ok p)
    /\ p == 0.5
    /\ BreedenlitzenbergPDF.get_probability fitted 100 "above" = (fitted, Ok (fsub 1 p)).
Proof.
  apply (get_probability_at_grid_strike fitted [0; 0.5; 1] [90; 100; 110] 1);
    try reflexivity.
  - cbn. lia.
  - repeat constructor.
Defined.

(** ** What a successful calculation leaves on the object *)

Lemma of_nat_lt i j : (i < j)%nat -> np.of_nat i < np.of_nat j.
Proof. intro H. unfold np.of_nat. rewrite <- Zlt_Qlt. lia. Qed.

(** A grid from [start] up to a larger [stop] is strictly increasing. *)
Lemma linspace_increasing start stop num :
  start < stop -> Sorted Qlt (np.linspace start stop num).
Proof.
  intro Hlt. destruct num as [|[|d]];
    [constructor | repeat constructor | unfold np.linspace].
  set (div := S d).
  assert (Hdiv : 0 < np.of_nat div) by (apply of_nat_pos; unfold div; lia).
  assert (Hs : 0 < (stop - start) / np.of_nat div)
    by (apply Qlt_shift_div_l; [exact Hdiv|lra]).
  apply sorted_map_seq_app.
  - intro i. cbv beta. fnorm.
    rewrite of_nat_succ.
    revert Hs. generalize ((stop - start) / np.of_nat div). intros st Hst.
    nra.
  - intros i Hi. cbv beta. fnorm.
    assert (Hi' : np.of_nat i < np.of_nat div) by (apply of_nat_lt; lia).
    assert (Hq : np.of_nat i * ((stop - start) / np.of_nat div) < stop - start).
    { setoid_replace (np.of_nat i * ((stop - start) / np.of_nat div))
        with ((np.of_nat i * (stop - start)) / np.of_nat div)
        by (field; lra).
      apply Qlt_shift_div_r; [exact Hdiv|].
      revert Hi' Hdiv. generalize (np.of_nat i) (np.of_nat div). intros. nra. }
    lra.
Qed.

Lemma linspace_first start stop num :
  (2 <= num)%nat ->
  exists k0 rest, np.linspace start stop num = k0 :: rest /\ k0 == start.
Proof.
  intro H. destruct num as [|[|d]]; [lia | lia |].
  unfold np.linspace. cbn [seq map app].
  eexists. eexists. split; [reflexivity|].
  fnorm. unfold np.of_nat. cbn [Z.of_nat]. change (inject_Z 0) with 0. ring.
Qed.

Lemma linspace_last start stop num :
  (2 <= num)%nat -> np.last_elt (np.linspace start stop num) = Ok stop.
Proof.
  intro H. destruct num as [|[|d]]; [lia | lia |].
  unfold np.linspace.
  destruct (map _ (seq 0 (S d)) ++ [stop]) as [|v t] eqn:E.
  - destruct (map _ _); discriminate.
  - cbn [np.last_elt]. rewrite <- last_cons_default with (d := v).
    rewrite <- E. now rewrite last_last.
Qed.

Lemma trapezoid_short_grid y x : (length x < 2)%nat -> np.trapezoid y x = 0.
Proof.
  intro H. destruct y as [|y0 [|y1 y]]; try reflexivity.
  destruct x as [|x0 [|x1 x]]; try reflexivity. cbn in H. lia.
Qed.

Lemma gradient_interior_length f : forall x,
  length x = length f ->
  length (np.gradient_interior f x) = (length f - 2)%nat.
Proof.
  induction f as [|f0 f IH]; intros x Hlen; [reflexivity|].
  destruct x as [|x0 x]; [discriminate|].
  destruct f as [|f1 [|f2 f]]; [reflexivity | reflexivity |].
  destruct x as [|x1 [|x2 x]]; try discriminate.
  change (np.gradient_interior (f0 :: f1 :: f2 :: f) (x0 :: x1 :: x2 :: x))
    with (fadd (fadd (fmul (fdivide (fopp (fsub x2 x1))
                                    (fmul (fsub x1 x0) (fadd (fsub x1 x0) (fsub x2 x1)))) f0)
                     (fmul (fdivide (fsub (fsub x2 x1) (fsub x1 x0))
                                    (fmul (fsub x1 x0) (fsub x2 x1))) f1))
               (fmul (fdivide (fsub x1 x0)
                              (fmul (fsub x2 x1) (fadd (fsub x1 x0) (fsub x2 x1)))) f2)
          :: np.gradient_interior (f1 :: f2 :: f) (x1 :: x2 :: x)).
  cbn [length]. rewrite IH by (cbn in *; lia). cbn [length]. lia.
Qed.

Lemma gradient_length f x g :
  np.gradient f x = Ok g -> length g = length f /\ length x = length f.
Proof.
  intro H. destruct (gradient_ok _ _ _ H) as [Hlen H2].
  unfold np.gradient in H.
  destruct (negb (length x =? length f)%nat); [discriminate|].
  destruct (length f <? 2)%nat; [discriminate|].
  injection H as <-. split; [|exact Hlen].
  cbn [length]. rewrite length_app, gradient_interior_length by exact Hlen.
  cbn [length]. lia.
Qed.

Lemma cumtrapz_from_length y : forall acc x,
  length x = length y ->
  length (np.cumtrapz_from acc y x) = (length y - 1)%nat.
Proof.
  induction y as [|y0 y IH]; intros acc x Hlen; [reflexivity|].
  destruct x as [|x0 x]; [discriminate|].
  destruct y as [|y1 y]; [reflexivity|].
  destruct x as [|x1 x]; [discriminate|].
  rewrite cumtrapz_from_cons2. cbn [length].
  rewrite IH by (cbn in *; lia). cbn [length]. lia.
Qed.

Lemma kernel5_length a : length (Rational.kernel5 a) = (length a - 4)%nat.
Proof.
  induction a as [|a0 a IH]; [reflexivity|].
  destruct a as [|a1 [|a2 [|a3 [|a4 a]]]]; try reflexivity.
  change (length (Rational.kernel5 (a0 :: a1 :: a2 :: a3 :: a4 :: a)))
    with (S (length (Rational.kernel5 (a1 :: a2 :: a3 :: a4 :: a)))).
  rewrite IH. cbn [length]. lia.
Qed.

(** The rational stand-in of the filter keeps the length of its input, as
    [savgol_filter] does. *)
Lemma rational_savgol_length a w out :
  Rational.savgol a w 3 = Ok out -> length out = length a.
Proof.
  unfold Rational.savgol. destruct (length a <? 5)%nat eqn:E; intro H.
  - now injection H as <-.
  - apply Nat.ltb_ge in E.
    assert (Ho : out = firstn 2 a ++ Rational.kernel5 a ++ skipn (length a - 2) a)
      by congruence.
    rewrite Ho, !length_app, length_firstn, length_skipn, kernel5_length. lia.
Qed.

Section FitProps.
Context {sci : SciPy} {cst : Constants}.

Lemma smooth_length p :
  (forall a w out, savgol_filter a w 3 = Ok out -> length out = length a) ->
  length (BreedenlitzenbergPDF.smooth p) = length p.
Proof.
  intro Hsav. unfold BreedenlitzenbergPDF.smooth.
  destruct (5 <=? _)%Z; [|reflexivity].
  destruct (savgol_filter p _ 3) as [sm|e] eqn:E; cbn [bind]; [|reflexivity].
  unfold np.maximum0. rewrite length_map. now apply Hsav in E.
Qed.

Lemma breeden_litzenberger_length strikes prices r T p :
  (forall a w out, savgol_filter a w 3 = Ok out -> length out = length a) ->
  BreedenlitzenbergPDF._breeden_litzenberger strikes prices r T = Ok p ->
  length p = length strikes.
Proof.
  intros Hsav. unfold BreedenlitzenbergPDF._breeden_litzenberger,
    BreedenlitzenbergPDF.second_derivative.
  destruct (np.gradient_unit strikes) as [dK|e]; cbn [bind]; [|discriminate].
  destruct (np.gradient prices strikes) as [dC|e] eqn:E1; cbn [bind]; [|discriminate].
  destruct (np.gradient dC strikes) as [d2|e] eqn:E2; cbn [bind]; [|discriminate].
  intro H. injection H as <-.
  rewrite smooth_length by exact Hsav.
  unfold np.maximum0. rewrite !length_map.
  apply gradient_length in E2. lia.
Qed.

Lemma calculate_cdf_total strikes p :
  p <> [] -> exists c, BreedenlitzenbergPDF._calculate_cdf strikes p = Ok c.
Proof.
  intro Hne. unfold BreedenlitzenbergPDF._calculate_cdf, np.cumulative_trapezoid.
  destruct p as [|p0 p]; [congruence|]. cbn [bind np.last_elt]. eauto.
Qed.

Lemma calculate_cdf_length strikes p c :
  length p = length strikes ->
  BreedenlitzenbergPDF._calculate_cdf strikes p = Ok c ->
  length c = length strikes.
Proof.
  intros Hlen. unfold BreedenlitzenbergPDF._calculate_cdf, np.cumulative_trapezoid.
  destruct p as [|p0 p]; [discriminate|]. cbn [bind np.last_elt].
  assert (L : length (0 :: np.cumtrapz_from 0 (p0 :: p) strikes) = length strikes).
  { cbn [length]. rewrite cumtrapz_from_length by (symmetry; exact Hlen).
    cbn [length] in *. lia. }
  revert L. generalize (np.cumtrapz_from 0 (p0 :: p) strikes). intros cum L H.
  assert (Hc : c = if fgt (last cum 0) 0
                   then np.div_scalar (0 :: cum) (last cum 0) else 0 :: cum)
    by congruence.
  rewrite Hc. destruct (fgt (last cum 0) 0); [|exact L].
  unfold np.div_scalar. rewrite length_map. exact L.
Qed.

(** A successful calculation ran on a grid that goes up. *)
Lemma successful_fit_band self df spot r T ot im self' grid density :
  BreedenlitzenbergPDF.calculate_from_options self df spot r T ot im
    = (self', Ok (grid, density)) ->
  fmul spot MIN_STRIKE_PCT < fmul spot MAX_STRIKE_PCT
  /\ (2 <= PDF_GRID_POINTS)%nat.
Proof.
  intro H. apply calculate_from_options_ok in H.
  destruct H as (_ & Hgrid & (prices & p & Hbl & Hn) & _).
  apply breeden_litzenberger_nonneg in Hbl.
  apply normalize_pdf_ok in Hn. destruct Hn as [Hpos _].
  split.
  - destruct (Qlt_le_dec (fmul spot MIN_STRIKE_PCT) (fmul spot MAX_STRIKE_PCT))
      as [Hup|Hdown]; [exact Hup|].
    exfalso.
    assert (Hneg : np.trapezoid p grid <= 0).
    { apply trapezoid_nonpos; [exact Hbl|].
      rewrite Hgrid. now apply linspace_sorted_down. }
    lra.
  - destruct (le_lt_dec 2 PDF_GRID_POINTS) as [H2|H2]; [exact H2|].
    exfalso. rewrite trapezoid_short_grid in Hpos; [lra|].
    rewrite Hgrid, linspace_length. exact H2.
Qed.

End FitProps.

(** X5. After a successful [calculate_from_options] the returned grid is
    the one stored on the object; it has [PDF_GRID_POINTS >= 2] strikes,
    strictly increasing from [spot*MIN_STRIKE_PCT] to [spot*MAX_STRIKE_PCT]
    (which are therefore in that order), and the returned density is the
    stored one. *)
Theorem successful_fit_grid {sci : SciPy} {cst : Constants}
        self df spot r T ot im self' grid density :
  BreedenlitzenbergPDF.calculate_from_options self df spot r T ot im
    = (self', Ok (grid, density)) ->
  fmul spot MIN_STRIKE_PCT < fmul spot MAX_STRIKE_PCT
  /\ (2 <= PDF_GRID_POINTS)%nat
  /\ length grid = PDF_GRID_POINTS
  /\ Sorted Qlt grid
  /\ (exists k0, hd_error grid = Some k0 /\ k0 == fmul spot MIN_STRIKE_PCT)
  /\ np.last_elt grid = Ok (fmul spot MAX_STRIKE_PCT)
  /\ BreedenlitzenbergPDF.strikes self' = Some grid
  /\ BreedenlitzenbergPDF.pdf self' = Some density.
Proof.
  intro H. destruct (successful_fit_band _ _ _ _ _ _ _ _ _ _ H) as [Hlt H2].
  apply calculate_from_options_ok in H.
  destruct H as (_ & Hgrid & _ & (c & _ & ->)).
  split; [exact Hlt|]. split; [exact H2|].
  split; [rewrite Hgrid; apply linspace_length|].
  split; [rewrite Hgrid; now apply linspace_increasing|].
  split.
  { destruct (linspace_first (fmul spot MIN_STRIKE_PCT) (fmul spot MAX_STRIKE_PCT)
                PDF_GRID_POINTS H2) as (k0 & rest & E & Hk).
    exists k0. rewrite Hgrid, E. split; [reflexivity|exact Hk]. }
  split; [rewrite Hgrid; now apply linspace_last|].
  split; reflexivity.
Qed.

Lemma successful_fit_grid_witness :
  exists self' grid density,
    run_flat "call" "spline" = (self', Ok (grid, density))
    /\ length grid = 9%nat
    /\ Sorted Qlt grid
    /\ np.last_elt grid = Ok 120.
Proof.
  pose proof run_flat_call_spline_ok as Hok.
  destruct (run_flat "call" "spline") as [self' [[grid density]|e]] eqn:E.
  - exists self', grid, density. split; [reflexivity|].
    destruct (successful_fit_grid _ _ _ _ _ _ _ _ _ _ E)
      as (_ & _ & Hlen & Hs & _ & Hlast & _).
    split; [exact Hlen|]. split; [exact Hs|exact Hlast].
  - discriminate Hok.
Defined.

Lemma combine_last_In (x : list Q) : forall (y : list Q) a b,
  length x = length y ->
  np.last_elt x = Ok a -> np.last_elt y = Ok b -> In (a, b) (combine x y).
Proof.
  induction x as [|x0 x IH]; intros y a b Hlen Ha Hb; [discriminate|].
  destruct y as [|y0 y]; [discriminate|].
  destruct x as [|x1 x], y as [|y1 y]; try discriminate.
  - cbn in Ha, Hb. injection Ha as <-. injection Hb as <-. now left.
  - right. apply IH.
    + cbn in *. lia.
    + cbn [np.last_elt] in *. now rewrite last_cons_default in Ha.
    + cbn [np.last_elt] in *. now rewrite last_cons_default in Hb.
Qed.

(** X6. When the smoothing filter returns an array as long as its input
    (as [savgol_filter] does), a successful [calculate_from_options] leaves
    density, grid and CDF of one length, and every ['below'] query on the
    object returns: 0 at the lower end of the grid, 1 at its upper end, and
    a value within [[0, 1]] between the two. *)
Theorem successful_fit_probabilities {sci : SciPy} {cst : Constants}
        self df spot r T ot im self' grid density :
  (forall a w out, savgol_filter a w 3 = Ok out -> length out = length a) ->
  BreedenlitzenbergPDF.calculate_from_options self df spot r T ot im
    = (self', Ok (grid, density)) ->
  length density = length grid
  /\ (exists c, BreedenlitzenbergPDF.cdf self' = Some c /\ length c = length grid)
  /\ forall level, exists p,
       BreedenlitzenbergPDF.get_probability self' level "below" = (self', Ok p)
       /\ (level == fmul spot MIN_STRIKE_PCT -> p == 0)
       /\ (level == fmul spot MAX_STRIKE_PCT -> p == 1)
       /\ (fmul spot MIN_STRIKE_PCT <= level <= fmul spot MAX_STRIKE_PCT ->
           0 <= p <= 1).
Proof.
  intros Hsav H.
  destruct (successful_fit_band _ _ _ _ _ _ _ _ _ _ H) as [Hlt H2].
  apply calculate_from_options_ok in H.
  destruct H as (_ & Hgrid & (prices & p0 & Hbl & Hn) & (c & Hc & ->)).
  pose proof (breeden_litzenberger_length _ _ _ _ _ Hsav Hbl) as Hlen0.
  apply breeden_litzenberger_nonneg in Hbl.
  pose proof (normalize_pdf_integral _ _ _ Hn) as Hone.
  apply normalize_pdf_ok in Hn. destruct Hn as [Hpos Hd].
  assert (Hnn : Forall (fun v => 0 <= v) density)
    by (rewrite Hd; now apply div_scalar_nonneg).
  assert (Hlen : length density = length grid)
    by (rewrite Hd; unfold np.div_scalar; now rewrite length_map).
  pose proof (calculate_cdf_length _ _ _ Hlen Hc) as Hlc.
  assert (Hinc : Sorted Qlt grid)
    by (rewrite Hgrid; now apply linspace_increasing).
  assert (Hg2 : (2 <= length grid)%nat) by (rewrite Hgrid, linspace_length; exact H2).
  destruct (calculate_cdf_normalized grid density c Hnn (sorted_lt_le _ Hinc))
    as (Hsc & Hhd & Hlast); [rewrite Hone; reflexivity | exact Hc |].
  split; [exact Hlen|]. split; [exists c; split; [reflexivity|exact Hlc]|].
  destruct (interp1d_increasing grid c (eq_sym Hlc)) as (k0 & rest & Hk & Hf);
    [destruct grid; [cbn in Hg2; lia | discriminate] | exact Hinc |].
  pose proof (combine_tail_nonempty grid c k0 rest (eq_sym Hlc) Hg2 Hk) as Hne.
  assert (Hx : Sorted Qlt (map fst (k0 :: rest)))
    by (unfold float in *; rewrite <- Hk; now rewrite map_fst_combine).
  assert (Hy : Sorted Qle (map snd (k0 :: rest)))
    by (unfold float in *; rewrite <- Hk; now rewrite map_snd_combine).
  set (f := fun v => np.lerp v (np.segment (fun x_hi => fle v x_hi) k0 rest)) in *.
  assert (Hmin : forall v, v == fmul spot MIN_STRIKE_PCT -> f v == 0).
  { intros v Hv.
    destruct (linspace_first (fmul spot MIN_STRIKE_PCT) (fmul spot MAX_STRIKE_PCT)
                PDF_GRID_POINTS H2) as (g0 & gs & E & Hg0).
    rewrite <- Hgrid in E.
    apply (interp_exact rest k0 (g0, 0) v Hne Hx).
    - unfold float in *. rewrite <- Hk, E.
      destruct c as [|c0 c]; [discriminate|]. cbn in Hhd. injection Hhd as ->.
      now left.
    - cbn [fst]. now rewrite Hv, Hg0. }
  assert (Hmax : forall v, v == fmul spot MAX_STRIKE_PCT -> f v == 1).
  { intros v Hv.
    apply (interp_exact rest k0 (fmul spot MAX_STRIKE_PCT, 1) v Hne Hx).
    - unfold float in *. rewrite <- Hk.
      apply combine_last_In; [now symmetry | | exact Hlast].
      rewrite Hgrid. now apply linspace_last.
    - exact Hv. }
  intro level. exists (f level).
  split; [now apply (get_probability_below _ c grid f level)|].
  split; [apply Hmin|]. split; [apply Hmax|].
  intros [Hlo Hhi]. split.
  - rewrite <- (Hmin (fmul spot MIN_STRIKE_PCT)) by reflexivity.
    now apply interp_mono.
  - rewrite <- (Hmax (fmul spot MAX_STRIKE_PCT)) by reflexivity.
    now apply interp_mono.
Qed.

Lemma successful_fit_probabilities_witness :
  exists self' grid density p,
    run_flat "call" "sabr" = (self', Ok (grid, density))
    /\ length density = length grid
    /\ BreedenlitzenbergPDF.get_probability self' 100 "below" = (self', Ok p)
    /\ 0 <= p <= 1.
Proof.
  pose proof run_flat_call_sabr_ok as Hok.
  destruct (run_flat "call" "sabr") as [self' [[grid density]|e]] eqn:E.
  - destruct (@successful_fit_probabilities qsci constants_small
                _ _ _ _ _ _ _ _ _ _ rational_savgol_length E)
      as (Hlen & _ & Hq).
    destruct (Hq 100) as (p & Hp & _ & _ & Hin).
    exists self', grid, density, p. split; [reflexivity|].
    split; [exact Hlen|]. split; [exact Hp|].
    apply Hin. split; vm_compute; discriminate.
  - discriminate Hok.
Defined.

(** ** Failures of the calculation *)

(** X7. Whatever makes [calculate_from_options] raise, the density, grid
    and CDF stored on the object are the ones it had before the call, while
    [spot] and [params] are those of the failed call. *)
Theorem failed_calculation_keeps_fit {sci : SciPy} {cst : Constants}
        self df spot r T ot im e :
  snd (BreedenlitzenbergPDF.calculate_from_options self df spot r T ot im)
  = Raise e ->
  let self' :=
    fst (BreedenlitzenbergPDF.calculate_from_options self df spot r T ot im) in
  BreedenlitzenbergPDF.pdf self' = BreedenlitzenbergPDF.pdf self
  /\ BreedenlitzenbergPDF.strikes self' = BreedenlitzenbergPDF.strikes self
  /\ BreedenlitzenbergPDF.cdf self' = BreedenlitzenbergPDF.cdf self
  /\ BreedenlitzenbergPDF.spot self' = Some spot
  /\ BreedenlitzenbergPDF.params self' = Some (r, T, ot).
Proof.
  unfold BreedenlitzenbergPDF.calculate_from_options.
  destruct (length _ <? MIN_STRIKES_FOR_PDF)%nat; [intros _; cbn; tauto|].
  destruct (calibrate_volatility_surface _ _ _ _ _) as [[vm st]|e0];
    cbn [bind fst]; [|intros _; cbn; tauto].
  destruct (vol_model_get_volatility vm _) as [ivs|e0];
    cbn [bind]; [|intros _; cbn; tauto].
  match goal with
  | |- context [BreedenlitzenbergPDF._breeden_litzenberger ?g ?pr r T] =>
      destruct (BreedenlitzenbergPDF._breeden_litzenberger g pr r T) as [p|e0];
      cbn [bind]; [|intros _; cbn; tauto];
      destruct (BreedenlitzenbergPDF._normalize_pdf g p) as [q|e0] eqn:En;
      cbn [bind]; [|intros _; cbn; tauto];
      destruct (calculate_cdf_total g q) as [c Hc]
  end.
  - apply normalize_pdf_ok in En. destruct En as [Hpos ->].
    destruct p; [cbn in Hpos; lra | discriminate].
  - cbn [BreedenlitzenbergPDF.pdf BreedenlitzenbergPDF.strikes
         BreedenlitzenbergPDF.cdf BreedenlitzenbergPDF.spot
         BreedenlitzenbergPDF.params].
    rewrite Hc. discriminate.
Qed.

Lemma failed_calculation_keeps_fit_witness :
  exists e,
    snd (@BreedenlitzenbergPDF.calculate_from_options qsci constants_small
           fitted flat_chain 100 0.05 (1 # 12) "call" "linear") = Raise e
    /\ BreedenlitzenbergPDF.cdf
         (fst (@BreedenlitzenbergPDF.calculate_from_options qsci constants_small
                 fitted flat_chain 100 0.05 (1 # 12) "call" "linear"))
       = Some [0; 0.5; 1].
Proof.
  exists (ValueError "Unknown method: linear").
  assert (E : snd (@BreedenlitzenbergPDF.calculate_from_options qsci constants_small
                     fitted flat_chain 100 0.05 (1 # 12) "call" "linear")
              = Raise (ValueError "Unknown method: linear"))
    by (vm_compute; reflexivity).
  split; [exact E|].
  exact (proj1 (proj2 (proj2
           (@failed_calculation_keeps_fit qsci constants_small
              fitted flat_chain 100 0.05 (1 # 12) "call" "linear" _ E)))).
Defined.

(** X8. An interpolation method other than ['sabr'] and ['spline'] makes
    [calibrate_volatility_surface] raise [ValueError("Unknown method: ...")]
    without calibrating anything, and [calculate_from_options] passes the
    error on once enough strikes have been kept. *)
Theorem unknown_method_error {sci : SciPy} {cst : Constants}
        self df spot r T ot m strikes ivs forward tau :
  m <> "sabr" -> m <> "spline" ->
  calibrate_volatility_surface strikes ivs forward tau m
  = Raise (ValueError (String.append "Unknown method: " m))
  /\ ((MIN_STRIKES_FOR_PDF
       <= length (filter (BreedenlitzenbergPDF.in_band
                            (fmul spot MIN_STRIKE_PCT) (fmul spot MAX_STRIKE_PCT))
                         df))%nat ->
      snd (BreedenlitzenbergPDF.calculate_from_options self df spot r T ot m)
      = Raise (ValueError (String.append "Unknown method: " m))).
Proof.
  intros H1 H2.
  assert (G : forall s i f t,
             calibrate_volatility_surface s i f t m
             = Raise (ValueError (String.append "Unknown method: " m))).
  { intros. unfold calibrate_volatility_surface.
    apply String.eqb_neq in H1, H2. now rewrite H1, H2. }
  split; [apply G|].
  intro Hlen. unfold BreedenlitzenbergPDF.calculate_from_options.
  apply Nat.ltb_ge in Hlen. rewrite Hlen, G. reflexivity.
Qed.

Lemma unknown_method_error_witness :
  @calibrate_volatility_surface qsci constants_small
    smile_strikes smile_ivs 100 (1 # 12) "linear"
  = Raise (ValueError "Unknown method: linear")
  /\ snd (@BreedenlitzenbergPDF.calculate_from_options qsci constants_small
            BreedenlitzenbergPDF.__init__ flat_chain 100 0.05 (1 # 12)
            "call" "linear")
     = Raise (ValueError "Unknown method: linear").
Proof.
  destruct (@unknown_method_error qsci constants_small
              BreedenlitzenbergPDF.__init__ flat_chain 100 0.05 (1 # 12) "call"
              "linear" smile_strikes smile_ivs 100 (1 # 12))
    as [H1 H2]; [discriminate | discriminate |].
  split; [exact H1|]. apply H2. vm_compute. lia.
Defined.

(** ** The smoothing window *)

(** X9. [_breeden_litzenberger] smooths only arrays of five entries or
    more, and then with a window that is odd, at least 5, at most 51 and
    no longer than the array, and is the largest such window: no odd
    number up to 51 and up to the length of the array exceeds it, so it is
    51 for every array of more than 51 entries.  Shorter arrays, and arrays
    on which the filter raises, are returned as they are. *)
Theorem smoothing_window {sci : SciPy} (p : list float) :
  let w := BreedenlitzenbergPDF.window_length (length p) in
  ((length p < 5)%nat -> BreedenlitzenbergPDF.smooth p = p)
  /\ ((5 <= length p)%nat ->
      (w mod 2 = 1 /\ 5 <= w <= 51 /\ w <= Z.of_nat (length p)
       /\ (Z.of_nat (length p) <= 51 -> Z.of_nat (length p) - 1 <= w)
       /\ (forall v, v mod 2 = 1 -> v <= 51 -> v <= Z.of_nat (length p) ->
                     v <= w)
       /\ (51 < Z.of_nat (length p) -> w = 51))%Z
      /\ BreedenlitzenbergPDF.smooth p
         = match savgol_filter p w 3 with
           | Ok sm => np.maximum0 sm
           | Raise _ => p
           end).
Proof.
  intro w. unfold BreedenlitzenbergPDF.smooth. fold w.
  unfold BreedenlitzenbergPDF.window_length in w.
  set (len := Z.of_nat (length p)) in *.
  assert (Hmod : (len mod 2 = 0 \/ len mod 2 = 1)%Z)
    by (pose proof (Z.mod_pos_bound len 2); lia).
  assert (Hdiv : (len = 2 * (len / 2) + len mod 2)%Z) by (apply Z.div_mod; lia).
  assert (Hodd : (len mod 2 = 0 -> (len - 1) mod 2 = 1)%Z).
  { intro H0. symmetry. apply (Z.mod_unique _ _ (len / 2 - 1)); lia. }
  assert (Hw : (w mod 2 = 1 /\ w <= 51 /\ w <= len /\ len - 1 <= Z.max w (len - 1)
                /\ (len <= 51 -> len - 1 <= w))%Z).
  { unfold w. destruct (len mod 2 =? 1)%Z eqn:E.
    - apply Z.eqb_eq in E.
      destruct (Z.min_spec 51 len) as [[? ->] | [? ->]];
        [split; [reflexivity|lia] | split; [exact E|lia]].
    - apply Z.eqb_neq in E. destruct Hmod as [H0|H1]; [|congruence].
      destruct (Z.min_spec 51 (len - 1)) as [[? ->] | [? ->]];
        [split; [reflexivity|lia] | split; [now apply Hodd|lia]]. }
  assert (Hmax : (forall v, v mod 2 = 1 -> v <= 51 -> v <= len -> v <= w)%Z).
  { intros v Hv1 Hv2 Hv3. unfold w. destruct (len mod 2 =? 1)%Z eqn:E; [lia|].
    apply Z.eqb_neq in E.
    assert (v <> len) by (intro Hvl; rewrite Hvl in Hv1; contradiction).
    lia. }
  assert (Hbig : (51 < len -> w = 51)%Z).
  { intro Hb. unfold w. destruct (len mod 2 =? 1)%Z; lia. }
  destruct Hw as (Hw1 & Hw2 & Hw3 & _ & Hw4).
  split.
  - intro Hlt. assert (E : (5 <=? w)%Z = false) by (apply Z.leb_gt; lia).
    now rewrite E.
  - intro Hge.
    assert (H5 : (5 <= w)%Z).
    { destruct (Z.le_gt_cases len 51) as [Hs|Hb].
      - specialize (Hw4 Hs). assert (4 <= w)%Z by lia.
        destruct (Z.eq_dec w 4) as [E4|]; [|lia].
        rewrite E4 in Hw1. discriminate.
      - unfold w. destruct (len mod 2 =? 1)%Z; lia. }
    split; [repeat split; try assumption; lia|].
    assert (E : (5 <=? w)%Z = true) by (apply Z.leb_le; exact H5).
    rewrite E. destruct (savgol_filter p w 3); reflexivity.
Qed.

(** ** Put-call parity of the pricing formulas *)

Lemma symmetric_norm_cdf x :
  @norm_cdf qsci_symmetric x + @norm_cdf qsci_symmetric (fopp x) == 1.
Proof.
  cbn [norm_cdf qsci_symmetric]. rewrite !Qred_correct.
  assert (Ha : Qabs (fopp x) == Qabs x).
  { unfold fopp. rewrite Qred_correct. apply Qabs_opp. }
  rewrite Ha, fopp_correct.
  assert (0 <= Qabs x) by apply Qabs_nonneg.
  field. lra.
Qed.

(** X10. Put-call parity: when the normal CDF satisfies
    [Phi(x) + Phi(-x) = 1], the call and put prices of
    [_black_scholes_call] and [_black_scholes_put] differ at every strike
    [K] by [S - K * exp(-r*T)]. *)
Theorem put_call_parity {sci : SciPy} K S r T sigma i k c p :
  (forall x, norm_cdf x + norm_cdf (fopp x) == 1) ->
  length K = length sigma ->
  nth_error K i = Some k ->
  nth_error (BreedenlitzenbergPDF._black_scholes_call K S r T sigma) i = Some c ->
  nth_error (BreedenlitzenbergPDF._black_scholes_put K S r T sigma) i = Some p ->
  c - p == S - k * np_exp (fmul (fopp r) T).
Proof.
  intros Hsym Hlen Hk Hc Hp.
  unfold BreedenlitzenbergPDF._black_scholes_call in Hc.
  unfold BreedenlitzenbergPDF._black_scholes_put in Hp.
  rewrite nth_error_map in Hc, Hp.
  destruct (nth_error (combine K sigma) i) as [[k' sg]|] eqn:E; [|discriminate].
  assert (k' = k).
  { apply (f_equal (option_map fst)) in E. rewrite <- nth_error_map in E.
    rewrite map_fst_combine in E by exact Hlen. cbn in E. congruence. }
  subst k'. cbn [option_map] in Hc, Hp.
  injection Hc as <-. injection Hp as <-.
  set (d1 := fdivide _ _). set (d2 := fsub d1 _).
  pose proof (Hsym d1) as H1. pose proof (Hsym d2) as H2.
  clearbody d1 d2. revert H1 H2.
  generalize (norm_cdf d1) (norm_cdf (fopp d1)) (norm_cdf d2) (norm_cdf (fopp d2)).
  intros n1 m1 n2 m2 H1 H2.
  generalize (np_exp (fmul (fopp r) T)). intro df.
  fnorm.
  setoid_replace m1 with (1 - n1) by lra.
  setoid_replace m2 with (1 - n2) by lra.
  ring.
Qed.

Lemma put_call_parity_witness :
  exists c p,
    nth_error (@BreedenlitzenbergPDF._black_scholes_call qsci_symmetric
                 [90; 100; 110] 100 0.05 (1 # 4) [0.2; 0.2; 0.2]) 2 = Some c
    /\ nth_error (@BreedenlitzenbergPDF._black_scholes_put qsci_symmetric
                    [90; 100; 110] 100 0.05 (1 # 4) [0.2; 0.2; 0.2]) 2 = Some p
    /\ c - p == 100 - 110 * @np_exp qsci_symmetric (fmul (fopp 0.05) (1 # 4)).
Proof.
  eexists. eexists.
  split; [vm_compute; reflexivity|]. split; [vm_compute; reflexivity|].
  apply (@put_call_parity qsci_symmetric [90; 100; 110] 100 0.05 (1 # 4)
           [0.2; 0.2; 0.2] 2%nat 110).
  - exact symmetric_norm_cdf.
  - reflexivity.
  - reflexivity.
  - vm_compute; reflexivity.
  - vm_compute; reflexivity.
Defined.

(** ** Calibration of the smile *)

Lemma sum_nonneg a : Forall (fun v => 0 <= v) a -> 0 <= np.sum a.
Proof.
  induction 1 as [|v a Hv Ha IH]; [cbn; lra|].
  unfold np.sum in *. cbn [fold_right]. rewrite fadd_correct. lra.
Qed.

Lemma fpow2_nonneg x : 0 <= fpow x 2.
Proof.
  unfold fpow. rewrite Qred_correct.
  change (x ^ 2) with (x * x). unfold float in *. nra.
Qed.

(** X11. The calibration objective is never negative, and it is the
    penalty [1e10] for every parameter triple with [alpha <= 0], [nu <= 0]
    or [rho] outside [[-1, 1]]. *)
Theorem objective_nonnegative {sci : SciPy}
        self strikes ivs forward tau alpha rho nu :
  0 <= SABRModel.objective self strikes ivs forward tau (alpha, rho, nu)
  /\ (alpha <= 0 \/ nu <= 0 \/ rho < -1 \/ 1 < rho ->
      SABRModel.objective self strikes ivs forward tau (alpha, rho, nu)
      = 10000000000).
Proof.
  unfold SABRModel.objective.
  match goal with
  | |- context [if ?b then _ else _] => destruct b eqn:E
  end.
  - split; [unfold Qle; cbn; lia|reflexivity].
  - split.
    + apply sum_nonneg. rewrite Forall_map. apply Forall_forall.
      intros p _. apply fpow2_nonneg.
    + intro H. exfalso.
      apply orb_false_elim in E. destruct E as [E E4].
      apply orb_false_elim in E. destruct E as [E E3].
      apply orb_false_elim in E. destruct E as [E1 E2].
      apply fle_false in E1, E2. apply flt_false in E3.
      unfold fgt in E4. apply flt_false in E4.
      unfold float in *. lra.
Qed.

Section SabrProps.
Context {sci : SciPy} {cst : Constants}.

(** What a [calibrate] that returns has stored. *)
Lemma sabr_calibrate_ok self strikes ivs forward tau guess model st :
  SABRModel.calibrate self strikes ivs forward tau guess = (model, Ok st) ->
  exists a r n rmse mae success,
    model = {| SABRModel.beta := SABRModel.beta self;
               SABRModel.alpha := Some a; SABRModel.rho := Some r;
               SABRModel.nu := Some n;
               SABRModel.forward := Some forward; SABRModel.tau := Some tau;
               SABRModel.is_calibrated := true |}
    /\ st = SabrStats a r n (SABRModel.beta self) rmse mae success.
Proof.
  unfold SABRModel.calibrate.
  destruct (length _ <? 3)%nat; [discriminate|].
  match goal with
  | |- context [bind ?m ?k] => destruct (bind m k) as [res|e]
  end; [|discriminate].
  destruct (res_x res) as [[a r] n] eqn:Ex.
  unfold SABRModel.get_volatility.
  cbn [SABRModel.is_calibrated SABRModel.forward SABRModel.alpha SABRModel.rho
       SABRModel.nu SABRModel.tau SABRModel.beta negb bind].
  intro H. injection H as <- <-. repeat eexists.
Qed.

(** What a [calibrate] that raises has stored. *)
Lemma sabr_calibrate_raises self strikes ivs forward tau guess e :
  snd (SABRModel.calibrate self strikes ivs forward tau guess) = Raise e ->
  fst (SABRModel.calibrate self strikes ivs forward tau guess)
  = {| SABRModel.beta := SABRModel.beta self;
       SABRModel.alpha := SABRModel.alpha self;
       SABRModel.rho := SABRModel.rho self;
       SABRModel.nu := SABRModel.nu self;
       SABRModel.forward := Some forward; SABRModel.tau := Some tau;
       SABRModel.is_calibrated := SABRModel.is_calibrated self |}.
Proof.
  unfold SABRModel.calibrate.
  destruct (length _ <? 3)%nat; [reflexivity|].
  match goal with
  | |- context [bind ?m ?k] => destruct (bind m k) as [res|e0]
  end; [|reflexivity].
  destruct (res_x res) as [[a r] n] eqn:Ex.
  unfold SABRModel.get_volatility.
  cbn [SABRModel.is_calibrated SABRModel.forward SABRModel.alpha SABRModel.rho
       SABRModel.nu SABRModel.tau SABRModel.beta negb bind snd].
  discriminate.
Qed.

Lemma strictly_increasing_sorted x :
  CubicSplineInterpolator.strictly_increasing x = true -> Sorted Qlt x.
Proof.
  induction x as [|x0 x IH]; intro H; [constructor|].
  destruct x as [|x1 x]; [repeat constructor|].
  cbn [CubicSplineInterpolator.strictly_increasing] in H.
  apply andb_prop in H. destruct H as [H0 H1].
  constructor; [now apply IH|]. constructor. now apply flt_iff.
Qed.

Lemma combine_fst_snd {A B} (l : list (A * B)) :
  combine (map fst l) (map snd l) = l.
Proof. induction l as [|[a b] l IH]; [reflexivity|]. cbn. now rewrite IH. Qed.

End SabrProps.

(** X12. When Nelder-Mead reports success its parameters are the
    calibrated ones: they are stored on the model, which is marked as
    calibrated, the statistics report success, and the outcome of the
    bounded L-BFGS-B attempt plays no part. *)
Theorem nelder_mead_success_is_final {sci : SciPy} {cst : Constants}
        self strikes ivs forward tau guess r1 :
  let valid := valid_mask strikes ivs in
  let obj := SABRModel.objective self (map fst valid) (map snd valid) forward tau in
  let x0 := match guess with
            | None => (SABR_INITIAL_ALPHA, SABR_INITIAL_RHO, SABR_INITIAL_NU)
            | Some g => g
            end in
  (3 <= length valid)%nat ->
  minimize obj x0 Nelder_Mead None 1000 = Ok r1 ->
  res_success r1 = true ->
  exists model st,
    SABRModel.calibrate self strikes ivs forward tau guess = (model, Ok st)
    /\ stats_success st = true
    /\ SABRModel.is_calibrated model = true
    /\ (SABRModel.alpha model, SABRModel.rho model, SABRModel.nu model)
       = (Some (fst (fst (res_x r1))), Some (snd (fst (res_x r1))),
          Some (snd (res_x r1)))
    /\ SABRModel.forward model = Some forward
    /\ SABRModel.tau model = Some tau
    /\ SABRModel.beta model = SABRModel.beta self.
Proof.
  intros valid obj x0 Hlen H1 Hr1.
  unfold SABRModel.calibrate. fold valid. rewrite length_map.
  apply Nat.ltb_ge in Hlen. rewrite Hlen.
  match goal with
  | |- context [minimize ?f ?y Nelder_Mead None 1000] =>
      change f with obj; change y with x0
  end.
  rewrite H1. cbn [bind]. rewrite Hr1. cbn [negb].
  destruct (res_x r1) as [[a r] n]. cbn [fst snd].
  unfold SABRModel.get_volatility. cbn [SABRModel.is_calibrated negb
    SABRModel.forward SABRModel.alpha SABRModel.rho SABRModel.nu SABRModel.tau bind].
  eexists. eexists. split; [reflexivity|].
  split; [exact Hr1|]. repeat split.
Qed.

Lemma nelder_mead_success_is_final_witness :
  exists model st,
    @SABRModel.calibrate qsci constants_py (SABRModel.__init__ 0.5)
      smile_strikes smile_ivs 100 (1 # 12) None = (model, Ok st)
    /\ stats_success st = true
    /\ SABRModel.is_calibrated model = true.
Proof.
  destruct (@nelder_mead_success_is_final qsci constants_py (SABRModel.__init__ 0.5)
              smile_strikes smile_ivs 100 (1 # 12) None
              {| res_x := (0.2, - 0.3, 0.3); res_success := true |})
    as (model & st & H & Hs & Hc & _).
  - vm_compute. lia.
  - reflexivity.
  - reflexivity.
  - exists model, st. split; [exact H|]. split; [exact Hs|exact Hc].
Defined.

(** X13. A SABR calibration that raises (too few valid points, or an
    exception of the optimizer) has overwritten [forward] and [tau] and
    nothing else: [alpha], [rho], [nu] and [is_calibrated] are those of
    before the call. *)
Theorem sabr_failed_calibration_state {sci : SciPy} {cst : Constants}
        self strikes ivs forward tau guess e :
  snd (SABRModel.calibrate self strikes ivs forward tau guess) = Raise e ->
  let model := fst (SABRModel.calibrate self strikes ivs forward tau guess) in
  SABRModel.forward model = Some forward
  /\ SABRModel.tau model = Some tau
  /\ SABRModel.alpha model = SABRModel.alpha self
  /\ SABRModel.rho model = SABRModel.rho self
  /\ SABRModel.nu model = SABRModel.nu self
  /\ SABRModel.beta model = SABRModel.beta self
  /\ SABRModel.is_calibrated model = SABRModel.is_calibrated self.
Proof.
  intros H model. unfold model.
  rewrite (sabr_calibrate_raises _ _ _ _ _ _ _ H). repeat split.
Qed.

Lemma sabr_failed_calibration_state_witness :
  let model :=
    fst (@SABRModel.calibrate qsci constants_py (SABRModel.__init__ 0.5)
           [100; 110] [0.2; 0.2] 100 (1 # 12) None) in
  SABRModel.forward model = Some 100
  /\ SABRModel.is_calibrated model = false.
Proof.
  destruct (@sabr_failed_calibration_state qsci constants_py (SABRModel.__init__ 0.5)
              [100; 110] [0.2; 0.2] 100 (1 # 12) None
              (ValueError "Need at least 3 valid strikes for calibration")
              eq_refl)
    as (Hf & _ & _ & _ & _ & _ & Hc).
  split; [exact Hf|exact Hc].
Defined.

(** X14. A model that [calibrate_volatility_surface] returns is
    calibrated: it answers [get_volatility] on any strikes with one
    volatility per strike, where a model fresh from its constructor raises
    [ValueError].  Only the method ['sabr'] can return a SABR model. *)
Theorem calibrated_surface_evaluates {sci : SciPy} {cst : Constants}
        strikes ivs forward tau method model st ks :
  calibrate_volatility_surface strikes ivs forward tau method = Ok (model, st) ->
  (exists vols, vol_model_get_volatility model ks = Ok vols
                /\ length vols = length ks)
  /\ (forall m, model = SABR_model m -> method = "sabr")
  /\ (exists msg, SABRModel.get_volatility (SABRModel.__init__ SABR_BETA) ks
                  = Raise (ValueError msg))
  /\ (exists msg, CubicSplineInterpolator.get_volatility
                    CubicSplineInterpolator.__init__ ks
                  = Raise (ValueError msg)).
Proof.
  intro H.
  assert (Hspline : forall s i,
             (let (m0, r) := CubicSplineInterpolator.calibrate
                               CubicSplineInterpolator.__init__ s i in
              match r with
              | Ok stats => Ok (Spline_model m0, stats)
              | Raise e => Raise e
              end) = Ok (model, st) ->
             (exists vols, vol_model_get_volatility model ks = Ok vols
                           /\ length vols = length ks)
             /\ (forall m, model = SABR_model m -> method = "sabr")).
  { intros s i. unfold CubicSplineInterpolator.calibrate.
    destruct (CubicSplineInterpolator.CubicSpline _ _) as [sp|e]; [|discriminate].
    intro G. injection G as <- <-. split; [|discriminate].
    cbn. eexists. split; [reflexivity|]. now rewrite length_map. }
  split; [|split]; [| |split; eexists; reflexivity].
  - unfold calibrate_volatility_surface in H.
    destruct (String.eqb method "sabr") eqn:Em.
    + destruct (SABRModel.calibrate _ strikes ivs forward tau None)
        as [m [stats|e]] eqn:Ec.
      * injection H as <- <-.
        apply sabr_calibrate_ok in Ec.
        destruct Ec as (a & r & n & rmse & mae & success & -> & _).
        cbn. eexists. split; [reflexivity|].
        unfold SABRModel._sabr_formula. now rewrite length_map.
      * cbn [String.eqb Ascii.eqb Bool.eqb] in H.
        now apply (Hspline strikes ivs).
    + destruct (String.eqb method "spline"); [|discriminate].
      now apply (Hspline strikes ivs).
  - unfold calibrate_volatility_surface in H.
    destruct (String.eqb method "sabr") eqn:Em.
    + intros _ _. now apply String.eqb_eq.
    + destruct (String.eqb method "spline"); [|discriminate].
      now apply (Hspline strikes ivs).
Qed.

Lemma calibrated_surface_evaluates_witness :
  exists model st vols,
    @calibrate_volatility_surface qsci constants_py
      smile_strikes smile_ivs 100 (1 # 12) "spline" = Ok (model, st)
    /\ @vol_model_get_volatility qsci model [80; 100; 120] = Ok vols
    /\ length vols = 3%nat.
Proof.
  assert (Hok : is_ok (@calibrate_volatility_surface qsci constants_py
                         smile_strikes smile_ivs 100 (1 # 12) "spline") = true)
    by (vm_compute; reflexivity).
  destruct (@calibrate_volatility_surface qsci constants_py
              smile_strikes smile_ivs 100 (1 # 12) "spline")
    as [[model st]|e] eqn:E; [|discriminate Hok].
  destruct (@calibrated_surface_evaluates qsci constants_py _ _ _ _ _ _ _
              [80; 100; 120] E) as ((vols & Hv & Hl) & _).
  exists model, st, vols. split; [reflexivity|]. split; [exact Hv|exact Hl].
Defined.

(** X15. A spline calibration that returns has stored the valid points
    as knots, reordered so that the strikes strictly increase; there are at
    least two of them, and the statistics name the method and report
    success.  A spline calibration that raises leaves the object as it
    was. *)
Theorem spline_calibration_knots {sci : SciPy} self strikes ivs :
  match CubicSplineInterpolator.calibrate self strikes ivs with
  | (model, Ok st) =>
      exists xs ys rmse,
        CubicSplineInterpolator.spline model = Some (xs, ys)
        /\ CubicSplineInterpolator.is_calibrated model = true
        /\ Permutation (combine xs ys) (valid_mask strikes ivs)
        /\ Sorted Qlt xs
        /\ (2 <= length xs)%nat
        /\ length ys = length xs
        /\ st = SplineStats "cubic_spline" rmse true
  | (model, Raise _) => model = self
  end.
Proof.
  unfold CubicSplineInterpolator.calibrate, CubicSplineInterpolator.CubicSpline.
  set (sorted := np.sort_by fst (valid_mask strikes ivs)).
  destruct (length (map fst sorted) <? 2)%nat eqn:E2; [reflexivity|].
  destruct (CubicSplineInterpolator.strictly_increasing (map fst sorted)) eqn:Ei;
    cbn [negb]; [|reflexivity].
  exists (map fst sorted), (map snd sorted). eexists.
  split; [reflexivity|]. split; [reflexivity|].
  split; [rewrite combine_fst_snd; apply sort_by_perm|].
  split; [now apply strictly_increasing_sorted|].
  split; [now apply Nat.ltb_ge in E2|].
  split; [now rewrite !length_map|reflexivity].
Qed.

(** ** Moments of a density *)

Lemma times_cons2 a0 a b0 b :
  PDFStatistics.times (a0 :: a) (b0 :: b) = fmul a0 b0 :: PDFStatistics.times a b.
Proof. reflexivity. Qed.

(** The first moment lies between the grid's bounds, weighted by the
    total mass. *)
Lemma first_moment_bounds lo hi x : forall p,
  Forall (fun v => 0 <= v) p -> Sorted Qle x ->
  Forall (fun k => lo <= k <= hi) x ->
  lo * np.trapezoid p x <= np.trapezoid (PDFStatistics.times x p) x
  /\ np.trapezoid (PDFStatistics.times x p) x <= hi * np.trapezoid p x.
Proof.
  induction x as [|x0 x IH]; intros p Hp Hs Hr.
  { destruct p as [|? [|? ?]]; cbn; lra. }
  destruct p as [|p0 p]; [cbn; lra|].
  destruct x as [|x1 x]; [destruct p; cbn; lra|].
  destruct p as [|p1 p]; [cbn; lra|].
  rewrite !times_cons2.
  rewrite (trapezoid_cons2 (fmul x0 p0) (fmul x1 p1)), (trapezoid_cons2 p0 p1).
  rewrite <- times_cons2.
  inversion Hp as [|? ? Hp0 Hp']; subst. inversion Hp' as [|? ? Hp1 _]; subst.
  inversion Hs as [|? ? Hs' Hh]; subst. inversion Hh as [|? ? H01]; subst.
  inversion Hr as [|? ? Hr0 Hr']; subst. inversion Hr' as [|? ? Hr1 _]; subst.
  destruct (IH (p1 :: p) Hp' Hs' Hr') as [IHlo IHhi].
  rewrite !fmul_correct. unfold float in *.
  revert IHlo IHhi.
  generalize (np.trapezoid (PDFStatistics.times (x1 :: x) (p1 :: p)) (x1 :: x)).
  generalize (np.trapezoid (p1 :: p) (x1 :: x)).
  intros I M IHlo IHhi.
  unfold float in *. unfold Qdiv. change (/ 2) with (1 # 2).
  assert (Hd : 0 <= x1 - x0) by lra.
  assert (A0 : 0 <= (x0 - lo) * p0) by (apply Qmult_le_0_compat; lra).
  assert (A1 : 0 <= (x1 - lo) * p1) by (apply Qmult_le_0_compat; lra).
  assert (B0 : 0 <= (hi - x0) * p0) by (apply Qmult_le_0_compat; lra).
  assert (B1 : 0 <= (hi - x1) * p1) by (apply Qmult_le_0_compat; lra).
  assert (C : 0 <= (x1 - x0) * ((x0 - lo) * p0 + (x1 - lo) * p1))
    by (apply Qmult_le_0_compat; lra).
  assert (D : 0 <= (x1 - x0) * ((hi - x0) * p0 + (hi - x1) * p1))
    by (apply Qmult_le_0_compat; lra).
  split; nra.
Qed.

(** X16. For a non-negative density on a non-decreasing grid, the mean
    [calculate_mean] returns lies between [lo] and [hi] times the total
    mass whenever all strikes lie in [[lo, hi]]; for a density that
    integrates to 1 it lies within the range of the strikes. *)
Theorem mean_within_grid (self : PDFStatistics.t) lo hi :
  length (PDFStatistics.strikes self) = length (PDFStatistics.pdf self) ->
  Sorted Qle (PDFStatistics.strikes self) ->
  Forall (fun v => 0 <= v) (PDFStatistics.pdf self) ->
  Forall (fun k => lo <= k <= hi) (PDFStatistics.strikes self) ->
  let mass := np.trapezoid (PDFStatistics.pdf self) (PDFStatistics.strikes self) in
  lo * mass <= PDFStatistics.calculate_mean self
  /\ PDFStatistics.calculate_mean self <= hi * mass
  /\ (mass == 1 ->
      lo <= PDFStatistics.calculate_mean self
      /\ PDFStatistics.calculate_mean self <= hi).
Proof.
  intros _ Hs Hp Hr mass. unfold PDFStatistics.calculate_mean.
  destruct (first_moment_bounds lo hi _ _ Hp Hs Hr) as [H1 H2].
  fold mass in H1, H2.
  split; [exact H1|]. split; [exact H2|].
  intro Hm. rewrite Hm in H1, H2. lra.
Qed.

(** X17. For a non-negative density on a non-decreasing grid the
    variance [calculate_variance] returns is not negative, whether the mean
    is passed in or computed. *)
Theorem variance_nonnegative (self : PDFStatistics.t) mean :
  length (PDFStatistics.strikes self) = length (PDFStatistics.pdf self) ->
  Sorted Qle (PDFStatistics.strikes self) ->
  Forall (fun v => 0 <= v) (PDFStatistics.pdf self) ->
  0 <= PDFStatistics.calculate_variance self mean.
Proof.
  intros _ Hs Hp. unfold PDFStatistics.calculate_variance.
  apply trapezoid_nonneg; [|exact Hs].
  unfold PDFStatistics.times. rewrite Forall_map. apply Forall_forall.
  intros [a b] Hin. cbn [fst snd]. rewrite fmul_correct.
  apply Qmult_le_0_compat.
  - apply in_combine_l in Hin. apply in_map_iff in Hin.
    destruct Hin as (k & <- & _). apply fpow2_nonneg.
  - apply in_combine_r in Hin. rewrite Forall_forall in Hp. now apply Hp.
Qed.

Lemma tent_sorted : Sorted Qle (PDFStatistics.strikes tent).
Proof. repeat constructor; discriminate. Qed.

Lemma tent_nonneg : Forall (fun v => 0 <= v) (PDFStatistics.pdf tent).
Proof. repeat constructor; discriminate. Qed.

Lemma tent_range : Forall (fun k => 90 <= k <= 110) (PDFStatistics.strikes tent).
Proof. repeat constructor; discriminate. Qed.

Lemma mean_within_grid_witness :
  90 <= PDFStatistics.calculate_mean tent
  /\ PDFStatistics.calculate_mean tent <= 110.
Proof.
  destruct (mean_within_grid tent 90 110 eq_refl tent_sorted tent_nonneg tent_range)
    as (_ & _ & H).
  apply H. vm_compute. reflexivity.
Defined.

Lemma variance_nonnegative_witness :
  0 <= PDFStatistics.calculate_variance tent None.
Proof.
  exact (variance_nonnegative tent None eq_refl tent_sorted tent_nonneg).
Defined.

(** ** Percentiles *)

Lemma lerp_between lo hi v x0 y0 x1 y1 :
  x0 <= v -> v < x1 -> lo <= y0 <= hi -> lo <= y1 <= hi ->
  lo <= np.lerp v ((x0, y0), (x1, y1)) <= hi.
Proof.
  intros H0 H1 [Hy0 Hy0'] [Hy1 Hy1']. unfold np.lerp. fnorm.
  assert (Hd : 0 < x1 - x0) by lra.
  assert (Ht0 : 0 <= (v - x0) / (x1 - x0)) by (apply Qle_shift_div_l; lra).
  assert (Ht1 : (v - x0) / (x1 - x0) <= 1) by (apply Qle_shift_div_r; lra).
  setoid_replace ((y1 - y0) / (x1 - x0) * (v - x0) + y0)
    with (y0 + (v - x0) / (x1 - x0) * (y1 - y0)) by (field; lra).
  revert Ht0 Ht1. generalize ((v - x0) / (x1 - x0)). intros t Ht0 Ht1.
  assert (A : 0 <= (1 - t) * (y0 - lo)) by (apply Qmult_le_0_compat; lra).
  assert (B : 0 <= t * (y1 - lo)) by (apply Qmult_le_0_compat; lra).
  assert (C : 0 <= (1 - t) * (hi - y0)) by (apply Qmult_le_0_compat; lra).
  assert (D : 0 <= t * (hi - y1)) by (apply Qmult_le_0_compat; lra).
  split; nra.
Qed.

Lemma segment_stop_at (stop : float -> bool) k0 k1 k2 rest :
  stop (fst k1) = true -> np.segment stop k0 (k1 :: k2 :: rest) = (k0, k1).
Proof. intro E. cbn [np.segment]. now rewrite E. Qed.

Lemma segment_pass (stop : float -> bool) k0 k1 k2 rest :
  stop (fst k1) = false ->
  np.segment stop k0 (k1 :: k2 :: rest) = np.segment stop k1 (k2 :: rest).
Proof. intro E. cbn [np.segment]. now rewrite E. Qed.

(** The segment [np.interp] picks for a point strictly inside the knots
    brackets it. *)
Lemma segment_bracket v rest : forall k0,
  fst k0 <= v -> v < fst (last rest k0) ->
  exists a b,
    np.segment (fun x_hi => flt v x_hi) k0 rest = (a, b)
    /\ fst a <= v /\ v < fst b
    /\ In a (k0 :: rest) /\ In b (k0 :: rest).
Proof.
  induction rest as [|k1 rest IH]; intros k0 Hlo Hhi.
  { cbn in Hhi. unfold float in *. lra. }
  destruct rest as [|k2 rest].
  - cbn in Hhi. exists k0, k1. cbn [np.segment].
    split; [reflexivity|]. split; [exact Hlo|]. split; [exact Hhi|].
    split; [now left | right; now left].
  - destruct (flt v (fst k1)) eqn:E.
    + exists k0, k1.
      split; [now apply (segment_stop_at (fun x_hi => flt v x_hi))|].
      apply flt_iff in E.
      split; [exact Hlo|]. split; [exact E|].
      split; [now left | right; now left].
    + rewrite (segment_pass (fun x_hi => flt v x_hi)) by exact E.
      apply flt_false in E.
      destruct (IH k1 E) as (a & b & Hs & Ha & Hb & Ia & Ib).
      { now rewrite last_cons_default in Hhi. }
      exists a, b.
      split; [exact Hs|]. split; [exact Ha|]. split; [exact Hb|].
      split; now right.
Qed.

Lemma interp_within lo hi v xp fp r :
  Forall (fun k => lo <= k <= hi) fp ->
  np.interp v xp fp = Ok r -> lo <= r <= hi.
Proof.
  intros Hr. unfold np.interp. unfold float in *.
  destruct (negb (length xp =? length fp)%nat); [discriminate|].
  destruct (combine xp fp) as [|k0 rest] eqn:Ek; [discriminate|].
  assert (Hin : forall k, In k (k0 :: rest) -> lo <= snd k <= hi).
  { intros [a b] Hk. unfold float in *. rewrite <- Ek in Hk.
    apply in_combine_r in Hk. rewrite Forall_forall in Hr. now apply Hr. }
  destruct (fle v (fst k0)) eqn:E0.
  { intro H. injection H as <-. apply Hin. now left. }
  destruct (fle (fst (last rest k0)) v) eqn:E1.
  { intro H. injection H as <-. apply Hin.
    destruct rest as [|k1 rest]; [now left|].
    right. rewrite last_cons_default.
    clear. revert k1. induction rest as [|k2 rest IH]; intro k1; [now left|].
    rewrite last_cons_default. right. apply IH. }
  apply fle_false in E0, E1. intro H. injection H as <-.
  destruct (segment_bracket v rest k0) as (a & b & Hs & Ha & Hb & Ia & Ib);
    [now apply Qlt_le_weak | exact E1 |].
  unfold float in *. rewrite Hs.
  destruct a as [xa ya], b as [xb yb]. cbn [fst] in *.
  apply lerp_between; try assumption.
  - exact (Hin _ Ia).
  - exact (Hin _ Ib).
Qed.

Lemma cumulative_trapezoid_ok y x :
  y <> [] -> np.cumulative_trapezoid y x = Ok (0 :: np.cumtrapz_from 0 y x).
Proof. destruct y; [congruence|reflexivity]. Qed.

(** On a non-empty density with a non-zero total, the percentile is a
    number within the bounds of the strikes. *)
Lemma percentile_in_range (self : PDFStatistics.t) q lo hi :
  length (PDFStatistics.strikes self) = length (PDFStatistics.pdf self) ->
  PDFStatistics.pdf self <> [] ->
  ~ np.trapezoid (PDFStatistics.pdf self) (PDFStatistics.strikes self) == 0 ->
  Forall (fun k => lo <= k <= hi) (PDFStatistics.strikes self) ->
  exists v,
    PDFStatistics.calculate_percentile self q = Ok (Finite v)
    /\ lo <= v <= hi.
Proof.
  destruct self as [ss pp sp T0].
  unfold PDFStatistics.calculate_percentile.
  cbn [PDFStatistics.strikes PDFStatistics.pdf].
  intros Hlen Hne Hmass Hr.
  rewrite cumulative_trapezoid_ok by exact Hne. cbn [bind np.last_elt].
  set (cum := np.cumtrapz_from 0 pp ss).
  assert (Hlast : last cum 0 == np.trapezoid pp ss).
  { unfold cum. rewrite cumtrapz_from_last. ring. }
  unfold array_checked_div.
  assert (E : feq (last cum 0) 0 = false).
  { destruct (feq (last cum 0) 0) eqn:E; [|reflexivity].
    apply feq_iff in E. rewrite Hlast in E. contradiction. }
  rewrite E.
  destruct (np.interp (fdivide q 100) (np.div_scalar (0 :: cum) (last cum 0)) ss)
    as [v|e] eqn:Ei; cbn [bind].
  - exists v. split; [reflexivity|]. exact (interp_within _ _ _ _ _ _ Hr Ei).
  - exfalso. unfold np.interp in Ei.
    assert (L : length (np.div_scalar (0 :: cum) (last cum 0)) = length ss).
    { unfold np.div_scalar. rewrite length_map. cbn [length]. unfold cum.
      rewrite cumtrapz_from_length by exact Hlen.
      destruct pp; [congruence|]. cbn [length] in *. lia. }
    unfold float in *. rewrite L, Nat.eqb_refl in Ei. cbn [negb] in Ei.
    destruct ss as [|s0 ss]; [destruct pp; [congruence|discriminate]|].
    cbn [np.div_scalar map combine] in Ei.
    destruct (fle _ _); [discriminate|]. destruct (fle _ _); discriminate.
Qed.


(** X18. On a non-empty density given on as many strikes, with a
    running integral that does not end at zero, [calculate_percentile]
    returns a number, and the number is a price within the range of the
    strikes, whatever percentile is asked for. *)
Theorem percentile_within_grid (self : PDFStatistics.t) q lo hi :
  length (PDFStatistics.strikes self) = length (PDFStatistics.pdf self) ->
  PDFStatistics.pdf self <> [] ->
  ~ np.trapezoid (PDFStatistics.pdf self) (PDFStatistics.strikes self) == 0 ->
  Forall (fun k => lo <= k <= hi) (PDFStatistics.strikes self) ->
  exists v,
    PDFStatistics.calculate_percentile self q = Ok (Finite v)
    /\ lo <= v <= hi.
Proof. apply percentile_in_range. Qed.

Lemma percentile_within_grid_witness :
  exists v,
    PDFStatistics.calculate_percentile tent 50 = Ok (Finite v)
    /\ 90 <= v <= 110.
Proof.
  apply (percentile_within_grid tent 50 90 110).
  - reflexivity.
  - discriminate.
  - vm_compute. discriminate.
  - exact tent_range.
Defined.

Lemma lerp_lower lo v x0 y0 x1 y1 :
  x0 <= v -> v < x1 -> lo <= y0 -> lo <= y1 ->
  lo <= np.lerp v ((x0, y0), (x1, y1)).
Proof.
  intros H0 H1 Hy0 Hy1.
  apply (lerp_between lo (y0 + y1 - lo) v x0 y0 x1 y1); try assumption; lra.
Qed.

Lemma lerp_upper hi v x0 y0 x1 y1 :
  x0 <= v -> v < x1 -> y0 <= hi -> y1 <= hi ->
  np.lerp v ((x0, y0), (x1, y1)) <= hi.
Proof.
  intros H0 H1 Hy0 Hy1.
  apply (lerp_between (y0 + y1 - hi) hi v x0 y0 x1 y1); try assumption; lra.
Qed.

Lemma sorted_snd_from (k0 : Q * Q) rest :
  Sorted Qle (map snd (k0 :: rest)) ->
  forall k, In k (k0 :: rest) -> snd k0 <= snd k.
Proof.
  intros Hs k Hin.
  apply Sorted_StronglySorted in Hs; [|intros x y z; apply Qle_trans].
  cbn [map] in Hs. inversion Hs as [|? ? _ Hall]; subst.
  destruct Hin as [<- | Hin]; [apply Qle_refl|].
  rewrite Forall_forall in Hall. apply Hall. now apply in_map.
Qed.

Lemma sorted_snd_last (k0 : Q * Q) rest :
  Sorted Qle (map snd (k0 :: rest)) ->
  forall k, In k (k0 :: rest) -> snd k <= snd (last rest k0).
Proof.
  revert k0. induction rest as [|k1 rest IH]; intros k0 Hs k Hin.
  - destruct Hin as [<- | []]. apply Qle_refl.
  - rewrite last_cons_default.
    cbn [map] in Hs. inversion Hs as [|? ? Hs' Hh]; subst.
    destruct Hin as [<- | Hin]; [|now apply IH].
    inversion Hh as [|? ? H01]; subst.
    eapply Qle_trans; [exact H01|]. apply IH; [exact Hs' | now left].
Qed.

(** Inside the knots, the interpolant of [np.interp] grows with its
    argument when the ordinates do. *)
Lemma interp_inside_mono a b rest : forall k0,
  Sorted Qle (map snd (k0 :: rest)) ->
  fst k0 <= a -> a <= b -> b < fst (last rest k0) ->
  np.lerp a (np.segment (fun x_hi => flt a x_hi) k0 rest)
  <= np.lerp b (np.segment (fun x_hi => flt b x_hi) k0 rest).
Proof.
  induction rest as [|k1 rest IH]; intros k0 Hs Ha Hab Hb.
  { cbn in Hb. unfold float in *. lra. }
  pose proof Hs as Hs0.
  cbn [map] in Hs. inversion Hs as [|? ? Hs' Hh]; subst.
  inversion Hh as [|? ? H01]; subst.
  assert (Hbase : a < fst k1 -> b < fst k1 ->
                  np.lerp a (k0, k1) <= np.lerp b (k0, k1)).
  { intros Ha1 Hb1. destruct k0 as [x0 y0], k1 as [x1 y1]; cbn [fst snd] in *.
    apply lerp_mono; [lra | exact H01 | exact Hab]. }
  destruct rest as [|k2 rest].
  { cbn in Hb. cbn [np.segment]. apply Hbase; [lra | exact Hb]. }
  destruct (flt a (fst k1)) eqn:Ea, (flt b (fst k1)) eqn:Eb.
  - rewrite !(segment_stop_at (fun x_hi => flt _ x_hi)) by assumption.
    apply flt_iff in Ea, Eb. now apply Hbase.
  - rewrite (segment_stop_at (fun x_hi => flt a x_hi)) by exact Ea.
    rewrite (segment_pass (fun x_hi => flt b x_hi)) by exact Eb.
    apply flt_iff in Ea. apply flt_false in Eb.
    apply Qle_trans with (snd k1).
    + destruct k0 as [x0 y0], k1 as [x1 y1]; cbn [fst snd] in *.
      apply lerp_upper; try assumption. apply Qle_refl.
    + rewrite last_cons_default in Hb.
      destruct (segment_bracket b (k2 :: rest) k1 Eb Hb)
        as (u & w & Hseg & Hu & Hw & Iu & Iw).
      unfold float in *. rewrite Hseg.
      destruct u as [xu yu], w as [xw yw]. cbn [fst] in *.
      apply lerp_lower; try assumption.
      * exact (sorted_snd_from k1 (k2 :: rest) Hs' _ Iu).
      * exact (sorted_snd_from k1 (k2 :: rest) Hs' _ Iw).
  - apply flt_false in Ea. apply flt_iff in Eb. unfold float in *. lra.
  - rewrite !(segment_pass (fun x_hi => flt _ x_hi)) by assumption.
    apply flt_false in Ea. rewrite last_cons_default in Hb.
    now apply IH.
Qed.

(** [np.interp] with non-decreasing ordinates is non-decreasing. *)
Lemma interp_monotone a b xp fp ra rb :
  Sorted Qle fp -> a <= b ->
  np.interp a xp fp = Ok ra -> np.interp b xp fp = Ok rb -> ra <= rb.
Proof.
  intros Hs Hab. unfold np.interp. unfold float in *.
  destruct (negb (length xp =? length fp)%nat) eqn:El; [discriminate|].
  apply negb_false_iff, Nat.eqb_eq in El.
  destruct (combine xp fp) as [|k0 rest] eqn:Ek; [discriminate|].
  assert (Hy : Sorted Qle (map snd (k0 :: rest)))
    by (rewrite <- Ek, map_snd_combine by exact El; exact Hs).
  pose proof (sorted_snd_from k0 rest Hy) as Hfrom.
  pose proof (sorted_snd_last k0 rest Hy) as Hto.
  assert (Hlast : In (last rest k0) (k0 :: rest)).
  { clear. revert k0. induction rest as [|k1 rest IH]; intro k0; [now left|].
    rewrite last_cons_default. right. apply IH. }
  assert (Hseg : forall v, fst k0 < v -> v < fst (last rest k0) ->
            snd k0 <= np.lerp v (np.segment (fun x_hi => flt v x_hi) k0 rest)
            /\ np.lerp v (np.segment (fun x_hi => flt v x_hi) k0 rest)
               <= snd (last rest k0)).
  { intros v H0 H1.
    destruct (segment_bracket v rest k0) as (u & w & Hsg & Hu & Hw & Iu & Iw);
      [now apply Qlt_le_weak | exact H1 |].
    unfold float in *. rewrite Hsg.
    destruct u as [xu yu], w as [xw yw]. cbn [fst] in *. split.
    - apply lerp_lower; try assumption; [exact (Hfrom _ Iu) | exact (Hfrom _ Iw)].
    - apply lerp_upper; try assumption; [exact (Hto _ Iu) | exact (Hto _ Iw)]. }
  destruct (fle a (fst k0)) eqn:A0.
  { intro H. injection H as <-.
    destruct (fle b (fst k0)) eqn:B0; [intro H; injection H as <-; apply Qle_refl|].
    destruct (fle (fst (last rest k0)) b) eqn:B1; intro H; injection H as <-.
    - now apply Hfrom.
    - apply fle_false in B0, B1. now apply Hseg. }
  apply fle_false in A0.
  assert (B0 : fle b (fst k0) = false) by (apply fle_false; lra).
  rewrite B0.
  destruct (fle (fst (last rest k0)) a) eqn:A1.
  { apply fle_iff in A1.
    assert (B1 : fle (fst (last rest k0)) b = true) by (apply fle_iff; lra).
    rewrite B1. intros H H'. injection H as <-. injection H' as <-. apply Qle_refl. }
  apply fle_false in A1. intro H. injection H as <-.
  destruct (fle (fst (last rest k0)) b) eqn:B1; intro H; injection H as <-.
  - now apply Hseg.
  - apply fle_false in B1.
    apply interp_inside_mono; try assumption. now apply Qlt_le_weak.
Qed.

(** X19. Percentiles are ordered: for a non-negative density of positive
    total mass on a non-decreasing grid, a larger percentile is never a
    smaller price.  (So the bounds of the 95% interval enclose those of the
    68% interval, which enclose the median.) *)
Theorem percentiles_ordered (self : PDFStatistics.t) q1 q2 :
  length (PDFStatistics.strikes self) = length (PDFStatistics.pdf self) ->
  Sorted Qle (PDFStatistics.strikes self) ->
  Forall (fun v => 0 <= v) (PDFStatistics.pdf self) ->
  0 < np.trapezoid (PDFStatistics.pdf self) (PDFStatistics.strikes self) ->
  q1 <= q2 ->
  exists v1 v2,
    PDFStatistics.calculate_percentile self q1 = Ok (Finite v1)
    /\ PDFStatistics.calculate_percentile self q2 = Ok (Finite v2)
    /\ v1 <= v2.
Proof.
  intros Hlen Hs Hp Hmass Hq.
  assert (Hne : PDFStatistics.pdf self <> []).
  { intro E. rewrite E in Hmass. cbn in Hmass. lra. }
  assert (Hnz : ~ np.trapezoid (PDFStatistics.pdf self) (PDFStatistics.strikes self) == 0)
    by (intro E; rewrite E in Hmass; lra).
  destruct (np.amin (PDFStatistics.strikes self)) as [lo|e] eqn:Elo.
  2:{ destruct (PDFStatistics.strikes self), (PDFStatistics.pdf self);
        try discriminate; congruence. }
  destruct (np.amax (PDFStatistics.strikes self)) as [hi|e] eqn:Ehi.
  2:{ destruct (PDFStatistics.strikes self); discriminate. }
  apply amin_spec in Elo. apply amax_spec in Ehi.
  assert (Hr : Forall (fun k => lo <= k <= hi) (PDFStatistics.strikes self)).
  { destruct Elo as [_ Hlo], Ehi as [_ Hhi].
    rewrite Forall_forall in *. intros k Hk. split; [now apply Hlo | now apply Hhi]. }
  destruct (percentile_in_range self q1 lo hi Hlen Hne Hnz Hr) as (v1 & E1 & _).
  destruct (percentile_in_range self q2 lo hi Hlen Hne Hnz Hr) as (v2 & E2 & _).
  exists v1, v2. split; [exact E1|]. split; [exact E2|].
  revert E1 E2. unfold PDFStatistics.calculate_percentile.
  rewrite cumulative_trapezoid_ok by exact Hne. cbn [bind np.last_elt].
  destruct (array_checked_div _ _) as [cdf|]; [|discriminate].
  destruct (np.interp (fdivide q1 100) cdf _) as [r1|] eqn:I1; [|discriminate].
  destruct (np.interp (fdivide q2 100) cdf _) as [r2|] eqn:I2; [|discriminate].
  cbn [bind]. intros H1 H2. injection H1 as <-. injection H2 as <-.
  apply (interp_monotone _ _ _ _ _ _ Hs) with (3 := I2) (2 := I1).
  rewrite !fdivide_correct. apply Qmult_le_compat_r; [exact Hq|].
  vm_compute. discriminate.
Qed.

Lemma percentiles_ordered_witness :
  exists v1 v2,
    PDFStatistics.calculate_percentile tent 16 = Ok (Finite v1)
    /\ PDFStatistics.calculate_percentile tent 84 = Ok (Finite v2)
    /\ v1 <= v2.
Proof.
  apply (percentiles_ordered tent 16 84 eq_refl tent_sorted tent_nonneg).
  - vm_compute. reflexivity.
  - discriminate.
Defined.

(** ** Tail probabilities *)

Lemma filter_all {A} (f : A -> bool) l :
  Forall (fun a => f a = true) l -> filter f l = l.
Proof.
  induction 1 as [|a l Ha Hl IH]; [reflexivity|]. cbn. now rewrite Ha, IH.
Qed.

Lemma filter_none {A} (f : A -> bool) l :
  Forall (fun a => f a = false) l -> filter f l = [].
Proof.
  induction 1 as [|a l Ha Hl IH]; [reflexivity|]. cbn. now rewrite Ha, IH.
Qed.

Lemma sorted_fst_filter (f : Q * Q -> bool) l :
  Sorted Qle (map fst l) -> Sorted Qle (map fst (filter f l)).
Proof.
  intro H. apply Sorted_StronglySorted in H; [|intros x y z; apply Qle_trans].
  apply StronglySorted_Sorted.
  induction l as [|a l IH]; [constructor|].
  cbn [map] in H. inversion H as [|? ? Hs Hall]; subst.
  cbn [filter]. destruct (f a); [|now apply IH].
  cbn [map]. constructor; [now apply IH|].
  rewrite Forall_forall in *. intros x Hx.
  apply in_map_iff in Hx. destruct Hx as (p & <- & Hp).
  apply filter_In in Hp. apply Hall. apply in_map. tauto.
Qed.

Lemma sorted_fst_above (a : Q * Q) l :
  Sorted Qle (map fst (a :: l)) -> Forall (fun p => fst a <= fst p) l.
Proof.
  intro H. apply Sorted_StronglySorted in H; [|intros x y z; apply Qle_trans].
  cbn [map] in H. inversion H as [|? ? _ Hall]; subst.
  now rewrite Forall_map in Hall.
Qed.

Lemma trapezoid_pairs_nonneg (l : list (Q * Q)) :
  Sorted Qle (map fst l) -> Forall (fun v => 0 <= v) (map snd l) ->
  0 <= np.trapezoid (map snd l) (map fst l).
Proof. intros Hs Hp. now apply trapezoid_nonneg. Qed.

Lemma trapezoid_pairs_cons (a : Q * Q) l :
  Sorted Qle (map fst (a :: l)) -> Forall (fun v => 0 <= v) (map snd (a :: l)) ->
  np.trapezoid (map snd l) (map fst l)
  <= np.trapezoid (map snd (a :: l)) (map fst (a :: l)).
Proof.
  intros Hs Hp. destruct l as [|b l]; [cbn; lra|].
  cbn [map] in *. rewrite trapezoid_cons2.
  inversion Hs as [|? ? _ Hh]; subst. inversion Hh as [|? ? H01]; subst.
  inversion Hp as [|? ? Hp0 Hp']; subst. inversion Hp' as [|? ? Hp1 _]; subst.
  assert (0 <= (fst b - fst a) * (snd a + snd b)) by (apply Qmult_le_0_compat; lra).
  lraq.
Qed.

(** The mass above a level is part of the whole mass. *)
Lemma upper_tail_le t (l : list (Q * Q)) :
  Sorted Qle (map fst l) -> Forall (fun v => 0 <= v) (map snd l) ->
  np.trapezoid (map snd (filter (fun p => fge (fst p) t) l))
               (map fst (filter (fun p => fge (fst p) t) l))
  <= np.trapezoid (map snd l) (map fst l).
Proof.
  unfold float in *.
  induction l as [|a l IH]; intros Hs Hp; [cbn; lra|].
  cbn [filter]. destruct (fge (fst a) t) eqn:E.
  - rewrite filter_all; [apply Qle_refl|].
    apply sorted_fst_above in Hs. rewrite Forall_forall in Hs.
    apply Forall_forall. intros p Hin. cbv beta.
    unfold fge in *. apply fle_iff. apply fle_iff in E.
    specialize (Hs p Hin). cbv beta in Hs. lraq.
  - eapply Qle_trans; [|now apply trapezoid_pairs_cons].
    apply IH.
    + cbn [map] in Hs. now inversion Hs.
    + cbn [map] in Hp. now inversion Hp.
Qed.

(** So is the mass below a level. *)
Lemma lower_tail_le t (l : list (Q * Q)) :
  Sorted Qle (map fst l) -> Forall (fun v => 0 <= v) (map snd l) ->
  np.trapezoid (map snd (filter (fun p => fle (fst p) t) l))
               (map fst (filter (fun p => fle (fst p) t) l))
  <= np.trapezoid (map snd l) (map fst l).
Proof.
  unfold float in *.
  induction l as [|a l IH]; intros Hs Hp; [cbn; lra|].
  assert (Hs' : Sorted Qle (map fst l)) by (cbn [map] in Hs; now inversion Hs).
  assert (Hp' : Forall (fun v => 0 <= v) (map snd l))
    by (cbn [map] in Hp; now inversion Hp).
  assert (Hnone : forall (b : Q * Q) l0, Sorted Qle (map fst (b :: l0)) ->
                    fle (fst b) t = false ->
                    filter (fun p => fle (fst p) t) (b :: l0) = []).
  { intros b l0 Hb Eb. apply filter_none. constructor; [exact Eb|].
    apply sorted_fst_above in Hb. rewrite Forall_forall in Hb.
    apply Forall_forall. intros p Hin. cbv beta.
    apply fle_false. apply fle_false in Eb. specialize (Hb p Hin). cbv beta in Hb.
    lraq. }
  destruct (fle (fst a) t) eqn:E.
  2:{ rewrite Hnone by assumption.
      exact (trapezoid_pairs_nonneg (a :: l) Hs Hp). }
  cbn [filter]. rewrite E.
  destruct l as [|b l].
  { cbn. lra. }
  destruct (fle (fst b) t) eqn:Eb.
  - specialize (IH Hs' Hp'). cbn [filter] in IH |- *. rewrite Eb in IH |- *.
    cbn [map] in IH |- *. rewrite !trapezoid_cons2. lraq.
  - rewrite Hnone by assumption.
    exact (trapezoid_pairs_nonneg (a :: b :: l) Hs Hp).
Qed.

(** X20. For a non-negative density on a non-decreasing grid of the same
    length, [calculate_tail_probability] returns a number between 0 and the
    total mass of the density (1 for a normalized one), for downward and
    for upward moves. *)
Theorem tail_probability_bounds (self : PDFStatistics.t) percent_move :
  length (PDFStatistics.strikes self) = length (PDFStatistics.pdf self) ->
  Sorted Qle (PDFStatistics.strikes self) ->
  Forall (fun v => 0 <= v) (PDFStatistics.pdf self) ->
  exists p,
    PDFStatistics.calculate_tail_probability self percent_move = Ok p
    /\ 0 <= p
    /\ p <= np.trapezoid (PDFStatistics.pdf self) (PDFStatistics.strikes self).
Proof.
  intros Hlen Hs Hp. unfold PDFStatistics.calculate_tail_probability.
  rewrite Hlen, Nat.eqb_refl. cbn [negb].
  set (l := combine (PDFStatistics.strikes self) (PDFStatistics.pdf self)).
  assert (Hf : map fst l = PDFStatistics.strikes self)
    by (apply map_fst_combine; exact Hlen).
  assert (Hsn : map snd l = PDFStatistics.pdf self)
    by (apply map_snd_combine; exact Hlen).
  rewrite <- Hf in Hs. rewrite <- Hsn in Hp. rewrite <- Hf, <- Hsn.
  eexists. split; [reflexivity|]. split.
  - apply trapezoid_nonneg.
    + rewrite Forall_map. apply Forall_forall. intros p Hin.
      apply filter_In in Hin. destruct Hin as [Hin _].
      rewrite Forall_map, Forall_forall in Hp. now apply Hp.
    + now apply sorted_fst_filter.
  - destruct (flt percent_move 0).
    + now apply (lower_tail_le _ l).
    + now apply (upper_tail_le _ l).
Qed.

Lemma tail_probability_bounds_witness :
  exists p,
    PDFStatistics.calculate_tail_probability tent (- 5) = Ok p
    /\ 0 <= p
    /\ p <= np.trapezoid (PDFStatistics.pdf tent) (PDFStatistics.strikes tent).
Proof.
  exact (tail_probability_bounds tent (- 5) eq_refl tent_sorted tent_nonneg).
Defined.

(** ** The summary *)

(** [np.argmax]: the scan keeps the first largest entry seen so far. *)
Lemma argmax_from_spec a : forall pre best best_i,
  nth_error pre best_i = Some best ->
  Forall (fun w => w <= best) pre ->
  (forall j w, (j < best_i)%nat -> nth_error pre j = Some w -> w < best) ->
  let r := PDFStatistics.argmax_from best best_i (length pre) a in
  exists d,
    nth_error (pre ++ a) r = Some d
    /\ Forall (fun w => w <= d) (pre ++ a)
    /\ (forall j w, (j < r)%nat -> nth_error (pre ++ a) j = Some w -> w < d).
Proof.
  unfold float in *.
  induction a as [|v a IH]; intros pre best best_i Hb Hall Hfirst.
  - cbn [PDFStatistics.argmax_from]. rewrite app_nil_r. exists best. tauto.
  - cbn [PDFStatistics.argmax_from].
    assert (Hlt : (best_i < length pre)%nat)
      by (apply nth_error_Some; congruence).
    change (pre ++ v :: a) with (pre ++ [v] ++ a). rewrite app_assoc.
    replace (S (length pre)) with (length (pre ++ [v]))
      by (rewrite length_app; cbn; lia).
    destruct (flt best v) eqn:E.
    + apply flt_iff in E. apply IH.
      * rewrite nth_error_app2 by lia. now rewrite Nat.sub_diag.
      * apply Forall_app. split; [|repeat constructor; apply Qle_refl].
        eapply Forall_impl; [|exact Hall]. intros w Hw. cbv beta in Hw. lraq.
      * intros j w Hj Hw. rewrite nth_error_app1 in Hw by exact Hj.
        apply nth_error_In in Hw. rewrite Forall_forall in Hall.
        specialize (Hall w Hw). cbv beta in Hall. lraq.
    + apply flt_false in E. apply IH.
      * rewrite nth_error_app1 by exact Hlt. exact Hb.
      * apply Forall_app. split; [exact Hall|]. repeat constructor. exact E.
      * intros j w Hj Hw. rewrite nth_error_app1 in Hw by lia.
        now apply (Hfirst j).
Qed.

Lemma argmax_spec a i :
  PDFStatistics.argmax a = Ok i ->
  exists d,
    nth_error a i = Some d
    /\ Forall (fun w => w <= d) a
    /\ (forall j w, (j < i)%nat -> nth_error a j = Some w -> w < d).
Proof.
  destruct a as [|v a]; [discriminate|]. cbn [PDFStatistics.argmax].
  intro H. injection H as <-.
  apply (argmax_from_spec a [v] v 0%nat).
  - reflexivity.
  - repeat constructor. apply Qle_refl.
  - intros j w Hj. lia.
Qed.

Lemma interp_returns v xp fp :
  length xp = length fp -> xp <> [] -> exists r, np.interp v xp fp = Ok r.
Proof.
  intros Hlen Hne. unfold np.interp. unfold float in *.
  rewrite Hlen, Nat.eqb_refl. cbn [negb].
  destruct xp as [|x0 xp]; [congruence|]. destruct fp as [|f0 fp]; [discriminate|].
  cbn [combine]. destruct (fle _ _); [eauto|]. destruct (fle _ _); eauto.
Qed.

Lemma percentile_returns (self : PDFStatistics.t) q :
  length (PDFStatistics.strikes self) = length (PDFStatistics.pdf self) ->
  PDFStatistics.pdf self <> [] ->
  exists r, PDFStatistics.calculate_percentile self q = Ok r.
Proof.
  destruct self as [ss pp sp T0].
  unfold PDFStatistics.calculate_percentile.
  cbn [PDFStatistics.strikes PDFStatistics.pdf]. intros Hlen Hne.
  rewrite cumulative_trapezoid_ok by exact Hne. cbn [bind np.last_elt].
  unfold array_checked_div. destruct (feq _ 0); [eauto|].
  set (cum := np.cumtrapz_from 0 pp ss).
  destruct (interp_returns (fdivide q 100)
              (np.div_scalar (0 :: cum) (last cum 0)) ss) as [r Hr].
  - unfold np.div_scalar. rewrite length_map. cbn [length]. unfold cum.
    rewrite cumtrapz_from_length by exact Hlen.
    destruct pp; [congruence|]. cbn [length] in *. lia.
  - discriminate.
  - rewrite Hr. cbn [bind]. eauto.
Qed.

(** X21. On a non-empty density given on as many strikes,
    [_calculate_all_statistics] returns its dictionary, and the ['mode'] it
    reports is the strike of the first largest density value. *)
Theorem summary_mode {sci : SciPy} self :
  length (PDFStatistics.strikes self) = length (PDFStatistics.pdf self) ->
  PDFStatistics.pdf self <> [] ->
  exists s i d,
    PDFStatistics._calculate_all_statistics self = Ok s
    /\ nth_error (PDFStatistics.strikes self) i = Some (PDFStatistics.s_mode s)
    /\ nth_error (PDFStatistics.pdf self) i = Some d
    /\ Forall (fun w => w <= d) (PDFStatistics.pdf self)
    /\ (forall j w, (j < i)%nat ->
                    nth_error (PDFStatistics.pdf self) j = Some w -> w < d)
    /\ PDFStatistics.s_mean s = PDFStatistics.calculate_mean self
    /\ PDFStatistics.s_std s = np_sqrt (PDFStatistics.s_variance s).
Proof.
  intros Hlen Hne. unfold PDFStatistics._calculate_all_statistics.
  destruct (percentile_returns self 50 Hlen Hne) as [m ->]. cbn [bind].
  destruct (PDFStatistics.argmax (PDFStatistics.pdf self)) as [i|e] eqn:Ea;
    [|destruct (PDFStatistics.pdf self); [congruence|discriminate]].
  cbn [bind].
  destruct (argmax_spec _ _ Ea) as (d & Hd & Hall & Hfirst).
  unfold PDFStatistics.getitem.
  destruct (nth_error (PDFStatistics.strikes self) i) as [k|] eqn:Ek.
  2:{ apply nth_error_None in Ek.
      assert (i < length (PDFStatistics.pdf self))%nat
        by (apply nth_error_Some; congruence).
      lia. }
  cbn [bind].
  unfold PDFStatistics.calculate_tail_probability.
  rewrite Hlen, Nat.eqb_refl. cbn [negb bind].
  destruct (percentile_returns self 2.5 Hlen Hne) as [c1 ->]. cbn [bind].
  destruct (percentile_returns self 97.5 Hlen Hne) as [c2 ->]. cbn [bind].
  destruct (percentile_returns self 16 Hlen Hne) as [c3 ->]. cbn [bind].
  destruct (percentile_returns self 84 Hlen Hne) as [c4 ->]. cbn [bind].
  eexists. exists i, d. split; [reflexivity|].
  cbn [PDFStatistics.s_mode PDFStatistics.s_mean PDFStatistics.s_std
       PDFStatistics.s_variance].
  repeat split; assumption.
Qed.

Lemma summary_mode_witness :
  exists s,
    @PDFStatistics._calculate_all_statistics qsci tent = Ok s
    /\ PDFStatistics.s_mode s = 100.
Proof.
  destruct (@summary_mode qsci tent eq_refl)
    as (s & i & d & Hs & Hk & Hd & Hall & Hf & _).
  - discriminate.
  - exists s. split; [exact Hs|]. clear Hs Hf.
    assert (Hmax : 0.1 <= d).
    { rewrite Forall_forall in Hall. apply Hall. cbn. tauto. }
    clear Hall.
    destruct i as [|[|[|[|[|i]]]]]; cbn in Hd, Hk.
    + exfalso. injection Hd as <-. vm_compute in Hmax. now apply Hmax.
    + exfalso. injection Hd as <-. vm_compute in Hmax. now apply Hmax.
    + now injection Hk as <-.
    + exfalso. injection Hd as <-. vm_compute in Hmax. now apply Hmax.
    + exfalso. injection Hd as <-. vm_compute in Hmax. now apply Hmax.
    + exfalso. destruct i; discriminate Hd.
Defined.

(** ** Pattern matching *)

Lemma Qabs_opp_eq x : Qabs (- x) = Qabs x.
Proof. destruct x as [n d]. unfold Qabs, Qopp. cbn. now rewrite Z.abs_opp. Qed.

Lemma fabs_fsub_sym a b : fabs (fsub a b) = fabs (fsub b a).
Proof.
  unfold fabs, fsub.
  assert (E : Qred (a - b) = Qred (- (b - a))) by (apply Qred_complete; ring).
  rewrite E, Qred_opp. apply Qabs_opp_eq.
Qed.

Section PatternProps.
Context {sci : SciPy}.

Lemma feature_similarity_sym s1 s2 f :
  PDFPatternMatcher.feature_similarity s1 s2 f
  = PDFPatternMatcher.feature_similarity s2 s1 f.
Proof.
  unfold PDFPatternMatcher.feature_similarity.
  destruct (PDFPatternMatcher.dict_get s1 f), (PDFPatternMatcher.dict_get s2 f);
    try reflexivity.
  now rewrite fabs_fsub_sym.
Qed.

Lemma feature_similarity_unit s1 s2 f :
  (forall x, 0 <= np_exp x) -> (forall x, x <= 0 -> np_exp x <= 1) ->
  Forall (fun v => 0 <= v <= 1) (PDFPatternMatcher.feature_similarity s1 s2 f).
Proof.
  intros H0 H1. unfold PDFPatternMatcher.feature_similarity.
  destruct (PDFPatternMatcher.dict_get s1 f), (PDFPatternMatcher.dict_get s2 f);
    try constructor; [|constructor].
  split; [apply H0|]. apply H1.
  rewrite fdivide_correct, fopp_correct.
  assert (Ha : 0 <= fabs (fsub f0 f1)) by apply Qabs_nonneg.
  revert Ha. generalize (fabs (fsub f0 f1)). intros d Hd.
  destruct (_ || _).
  - setoid_replace (- d / 1.0) with (- d) by (field; discriminate). lra.
  - apply Qle_shift_div_r; [reflexivity|]. lra.
Qed.

Lemma mean_unit a :
  a <> [] -> Forall (fun v => 0 <= v <= 1) a -> 0 <= np.mean a <= 1.
Proof.
  intros Hne Ha. unfold np.mean. rewrite fdivide_correct.
  assert (Hs : 0 <= np.sum a /\ np.sum a <= np.of_nat (length a)).
  { clear Hne. induction Ha as [|v a [Hv0 Hv1] _ [IH0 IH1]].
    - split; unfold Qle; cbn; lia.
    - unfold np.sum in *. cbn [fold_right length].
      rewrite fadd_correct, of_nat_succ. lra. }
  assert (Hn : 0 < np.of_nat (length a)).
  { apply of_nat_pos. destruct a; [congruence|cbn; lia]. }
  split.
  - apply Qle_shift_div_l; [exact Hn|]. unfold float in *. lra.
  - apply Qle_shift_div_r; [exact Hn|]. unfold float in *. lra.
Qed.

Lemma stats_similarity_unit s1 s2 :
  (forall x, 0 <= np_exp x) -> (forall x, x <= 0 -> np_exp x <= 1) ->
  0 <= PDFPatternMatcher._stats_similarity s1 s2 <= 1.
Proof.
  intros H0 H1. unfold PDFPatternMatcher._stats_similarity.
  assert (Hall : Forall (fun v => 0 <= v <= 1)
                   (flat_map (PDFPatternMatcher.feature_similarity s1 s2)
                             PDFPatternMatcher.features)).
  { apply Forall_flat_map. apply Forall_forall. intros f _.
    now apply feature_similarity_unit. }
  destruct (flat_map _ _) as [|v l] eqn:E.
  - split; [unfold Qle; cbn; lia | unfold Qle; cbn; lia].
  - apply mean_unit; [discriminate|exact Hall].
Qed.

Lemma shape_similarity_unit pdf1 strikes1 pdf2 strikes2 s :
  PDFPatternMatcher._pdf_shape_similarity pdf1 strikes1 pdf2 strikes2 = Ok s ->
  0 <= s <= 1.
Proof.
  unfold PDFPatternMatcher._pdf_shape_similarity.
  destruct (PDFPatternMatcher.common_grid _ _) as [g|e]; cbn [bind]; [|discriminate].
  destruct (np.interp_array g strikes1 pdf1) as [p1|e]; cbn [bind]; [|discriminate].
  destruct (np.interp_array g strikes2 pdf2) as [p2|e]; cbn [bind]; [|discriminate].
  intro H. injection H as <-. apply clamp_unit.
Qed.

End PatternProps.

(** X22. [_stats_similarity] does not depend on the order of its two
    dictionaries; it is the neutral 0.5 when they share none of the three
    features; and it lies in [[0, 1]] whenever [np.exp] is non-negative and
    at most 1 on non-positive arguments. *)
Theorem stats_similarity_properties {sci : SciPy} s1 s2 :
  PDFPatternMatcher._stats_similarity s1 s2
  = PDFPatternMatcher._stats_similarity s2 s1
  /\ ((forall f, In f PDFPatternMatcher.features ->
                 PDFPatternMatcher.dict_get s1 f = None
                 \/ PDFPatternMatcher.dict_get s2 f = None) ->
      PDFPatternMatcher._stats_similarity s1 s2 = 0.5)
  /\ ((forall x, 0 <= np_exp x) -> (forall x, x <= 0 -> np_exp x <= 1) ->
      0 <= PDFPatternMatcher._stats_similarity s1 s2 <= 1).
Proof.
  split; [|split].
  - unfold PDFPatternMatcher._stats_similarity.
    assert (E : flat_map (PDFPatternMatcher.feature_similarity s1 s2)
                         PDFPatternMatcher.features
                = flat_map (PDFPatternMatcher.feature_similarity s2 s1)
                           PDFPatternMatcher.features).
    { apply flat_map_ext. intro f. apply feature_similarity_sym. }
    now rewrite E.
  - intro Hnone. unfold PDFPatternMatcher._stats_similarity.
    assert (E : flat_map (PDFPatternMatcher.feature_similarity s1 s2)
                         PDFPatternMatcher.features = []).
    { induction PDFPatternMatcher.features as [|f fs IH]; [reflexivity|].
      cbn [flat_map]. rewrite IH by (intros g Hg; apply Hnone; now right).
      unfold PDFPatternMatcher.feature_similarity.
      destruct (Hnone f (or_introl eq_refl)) as [-> | ->]; [reflexivity|].
      destruct (PDFPatternMatcher.dict_get s1 f); reflexivity. }
    now rewrite E.
  - apply stats_similarity_unit.
Qed.

(** X23. The combined score of [_calculate_similarity] is
    [0.7 * shape + 0.3 * stats]; it lies in [[0, 1]] whenever [np.exp] is
    non-negative and at most 1 on non-positive arguments, and it exists
    exactly when the shape similarity does. *)
Theorem combined_similarity_unit {sci : SciPy}
        pdf1 strikes1 stats1 pdf2 strikes2 stats2 :
  (forall x, 0 <= np_exp x) -> (forall x, x <= 0 -> np_exp x <= 1) ->
  match PDFPatternMatcher._pdf_shape_similarity pdf1 strikes1 pdf2 strikes2 with
  | Ok shape =>
      exists score,
        PDFPatternMatcher._calculate_similarity
          pdf1 strikes1 stats1 pdf2 strikes2 stats2 = Ok score
        /\ score == 0.7 * shape
                    + 0.3 * PDFPatternMatcher._stats_similarity stats1 stats2
        /\ 0 <= score <= 1
  | Raise e =>
      PDFPatternMatcher._calculate_similarity
        pdf1 strikes1 stats1 pdf2 strikes2 stats2 = Raise e
  end.
Proof.
  intros H0 H1. unfold PDFPatternMatcher._calculate_similarity.
  destruct (PDFPatternMatcher._pdf_shape_similarity pdf1 strikes1 pdf2 strikes2)
    as [shape|e] eqn:E; cbn [bind]; [|reflexivity].
  apply shape_similarity_unit in E.
  pose proof (stats_similarity_unit stats1 stats2 H0 H1) as Hs.
  eexists. split; [reflexivity|].
  rewrite fadd_correct, !fmul_correct.
  split; [reflexivity|]. lra.
Qed.

Lemma round6_nonneg y : 0 <= y -> 0 <= Rational.round6 y.
Proof.
  intro H. unfold Rational.round6. rewrite Qred_correct.
  assert (Hf : (0 <= Qfloor (y * 1000000))%Z).
  { change 0%Z with (Qfloor 0). apply Qfloor_resp_le. lra. }
  revert Hf. generalize (Qfloor (y * 1000000)). intros n Hn.
  unfold Qle. cbn. lia.
Qed.

Lemma round6_le_one y : y <= 1 -> Rational.round6 y <= 1.
Proof.
  intro H. unfold Rational.round6. rewrite Qred_correct.
  assert (Hf : (Qfloor (y * 1000000) <= 1000000)%Z).
  { change 1000000%Z with (Qfloor (inject_Z 1000000)) at 2.
    apply Qfloor_resp_le. change (inject_Z 1000000) with 1000000. lra. }
  revert Hf. generalize (Qfloor (y * 1000000)). intros n Hn.
  unfold Qle. cbn. lia.
Qed.

Lemma rational_exp_nonneg x : 0 <= Rational.exp x.
Proof.
  unfold Rational.exp. apply round6_nonneg.
  destruct (fle 0 x) eqn:E.
  - apply fle_iff in E. fnorm. change (x ^ 2) with (x * x).
    assert (0 <= x * x) by nra. lraq.
  - apply fle_false in E. fnorm. change (x ^ 2) with (x * x).
    assert (0 <= x * x) by nra.
    apply Qle_shift_div_l; lraq.
Qed.

Lemma rational_exp_le_one x : x <= 0 -> Rational.exp x <= 1.
Proof.
  intro Hx. unfold Rational.exp. apply round6_le_one.
  destruct (fle 0 x) eqn:E.
  - apply fle_iff in E. assert (Hz : x == 0) by lra.
    fnorm. rewrite Hz. vm_compute. discriminate.
  - apply fle_false in E. fnorm. change (x ^ 2) with (x * x).
    assert (0 <= x * x) by nra.
    apply Qle_shift_div_r; lraq.
Qed.

Lemma combined_similarity_unit_witness :
  exists score,
    @PDFPatternMatcher._calculate_similarity qsci
      [1; 2; 1] [0; 1; 2] [("skewness", 0)]
      [1; 3; 1] [1; 2; 3] [("skewness", 0.1)] = Ok score
    /\ 0 <= score <= 1.
Proof.
  pose proof overlapping_similarity_ok as Hok.
  pose proof (@combined_similarity_unit qsci
                [1; 2; 1] [0; 1; 2] [("skewness", 0)]
                [1; 3; 1] [1; 2; 3] [("skewness", 0.1)]
                rational_exp_nonneg rational_exp_le_one) as H.
  destruct (@PDFPatternMatcher._pdf_shape_similarity qsci
              [1; 2; 1] [0; 1; 2] [1; 3; 1] [1; 2; 3]) as [s|e].
  - destruct H as (score & Hs & _ & Hu). exists score. split; assumption.
  - discriminate Hok.
Defined.

(** ** The search over the history *)

Section SearchProps.
Context {sci : SciPy}.

Lemma insert_desc_perm m l :
  Permutation (PDFPatternMatcher.insert_desc m l) (m :: l).
Proof.
  induction l as [|b l IH]; [reflexivity|]. cbn [PDFPatternMatcher.insert_desc].
  destruct (flt _ _); [reflexivity|].
  rewrite IH. apply perm_swap.
Qed.

Lemma sort_desc_perm l : Permutation (PDFPatternMatcher.sort_desc l) l.
Proof.
  unfold PDFPatternMatcher.sort_desc.
  assert (G : forall acc,
             Permutation (fold_left (fun acc m => PDFPatternMatcher.insert_desc m acc)
                                    l acc) (acc ++ l)).
  { induction l as [|m l IH]; intro acc; cbn [fold_left].
    - now rewrite app_nil_r.
    - rewrite IH, insert_desc_perm. apply Permutation_middle. }
  apply (G []).
Qed.

Lemma insert_desc_sorted m l :
  Sorted (fun a b => PDFPatternMatcher.m_similarity b <= PDFPatternMatcher.m_similarity a) l ->
  Sorted (fun a b => PDFPatternMatcher.m_similarity b <= PDFPatternMatcher.m_similarity a) (PDFPatternMatcher.insert_desc m l).
Proof.
  induction 1 as [|b l Hs IH Hh]; [repeat constructor|].
  cbn [PDFPatternMatcher.insert_desc].
  destruct (flt (PDFPatternMatcher.m_similarity b) (PDFPatternMatcher.m_similarity m))
    eqn:E.
  - apply flt_iff in E. constructor; [now constructor|].
    constructor. now apply Qlt_le_weak.
  - apply flt_false in E. constructor; [exact IH|].
    destruct l as [|c l]; cbn [PDFPatternMatcher.insert_desc].
    + constructor. exact E.
    + destruct (flt _ _); constructor; [exact E|].
      now inversion Hh.
Qed.

Lemma sort_desc_sorted l :
  Sorted (fun a b => PDFPatternMatcher.m_similarity b <= PDFPatternMatcher.m_similarity a) (PDFPatternMatcher.sort_desc l).
Proof.
  unfold PDFPatternMatcher.sort_desc.
  assert (G : forall acc, Sorted (fun a b => PDFPatternMatcher.m_similarity b <= PDFPatternMatcher.m_similarity a) acc ->
             Sorted (fun a b => PDFPatternMatcher.m_similarity b <= PDFPatternMatcher.m_similarity a)
               (fold_left (fun acc m => PDFPatternMatcher.insert_desc m acc) l acc)).
  { induction l as [|m l IH]; intros acc Ha; cbn [fold_left]; [exact Ha|].
    apply IH. now apply insert_desc_sorted. }
  apply G. constructor.
Qed.

Lemma sorted_firstn {A} (R : A -> A -> Prop) n : forall l,
  Sorted R l -> Sorted R (firstn n l).
Proof.
  induction n as [|n IH]; intros l Hs; [constructor|].
  destruct l as [|a l]; [constructor|]. cbn [firstn].
  inversion Hs as [|? ? Hs' Hh]; subst.
  constructor; [now apply IH|].
  destruct n; [constructor|]. destruct l; [constructor|].
  cbn [firstn]. constructor. now inversion Hh.
Qed.

Lemma slice_to_firstn {A} (a : list A) n :
  exists k, PDFPatternMatcher.slice_to a n = firstn k a
            /\ ((0 <= n)%Z -> k = Z.to_nat n).
Proof.
  unfold PDFPatternMatcher.slice_to. destruct (0 <=? n)%Z eqn:E.
  - eexists. split; [reflexivity|reflexivity].
  - eexists. split; [reflexivity|]. apply Z.leb_gt in E. lia.
Qed.

(** What the loop of [find_similar_patterns] collects. *)
Lemma collect_matches_spec self pdf strikes stats history matches :
  PDFPatternMatcher.collect_matches self pdf strikes stats history = Ok matches ->
  Forall (fun m =>
            PDFPatternMatcher.similarity_threshold self
            <= PDFPatternMatcher.m_similarity m
            /\ exists h,
                 In h history
                 /\ PDFPatternMatcher.m_date m = PDFPatternMatcher.h_date h
                 /\ PDFPatternMatcher.m_stats m = PDFPatternMatcher.h_stats h
                 /\ PDFPatternMatcher.m_description m
                    = PDFPatternMatcher._generate_description h
                 /\ PDFPatternMatcher._calculate_similarity pdf strikes stats
                      (PDFPatternMatcher.h_pdf h) (PDFPatternMatcher.h_strikes h)
                      (PDFPatternMatcher.h_stats h)
                    = Ok (PDFPatternMatcher.m_similarity m))
         matches
  /\ (length matches <= length history)%nat.
Proof.
  revert matches. induction history as [|h rest IH]; intros matches H.
  - cbn in H. injection H as <-. split; [constructor|cbn; lia].
  - cbn [PDFPatternMatcher.collect_matches] in H.
    destruct (PDFPatternMatcher._calculate_similarity _ _ _ _ _ _) as [sc|e] eqn:Es;
      cbn [bind] in H; [|discriminate].
    destruct (PDFPatternMatcher.collect_matches self pdf strikes stats rest)
      as [ms|e]; cbn [bind] in H; [|discriminate].
    destruct (IH ms eq_refl) as [Hall Hlen].
    assert (Hall' : Forall (fun m =>
              PDFPatternMatcher.similarity_threshold self
              <= PDFPatternMatcher.m_similarity m
              /\ exists h0,
                   In h0 (h :: rest)
                   /\ PDFPatternMatcher.m_date m = PDFPatternMatcher.h_date h0
                   /\ PDFPatternMatcher.m_stats m = PDFPatternMatcher.h_stats h0
                   /\ PDFPatternMatcher.m_description m
                      = PDFPatternMatcher._generate_description h0
                   /\ PDFPatternMatcher._calculate_similarity pdf strikes stats
                        (PDFPatternMatcher.h_pdf h0) (PDFPatternMatcher.h_strikes h0)
                        (PDFPatternMatcher.h_stats h0)
                      = Ok (PDFPatternMatcher.m_similarity m)) ms).
    { eapply Forall_impl; [|exact Hall]. cbv beta.
      intros m (Hm & h0 & Hin & Hrest). split; [exact Hm|].
      exists h0. split; [now right|exact Hrest]. }
    destruct (fge sc (PDFPatternMatcher.similarity_threshold self)) eqn:Et;
      injection H as <-.
    + split; [|cbn [length]; lia].
      constructor; [|exact Hall'].
      cbn [PDFPatternMatcher.m_similarity PDFPatternMatcher.m_date
           PDFPatternMatcher.m_stats PDFPatternMatcher.m_description].
      split; [now apply fle_iff in Et|].
      exists h. split; [now left|]. repeat split. exact Es.
    + split; [exact Hall'|cbn [length]; lia].
Qed.

End SearchProps.

(** X24. Every match [find_similar_patterns] returns comes from an entry
    of the history whose combined score it carries, with that entry's date,
    statistics and description; its score is at least the threshold; the
    matches are in order of decreasing score; there are at most as many as
    history entries, and at most [max_matches] when that is not negative.
    An empty history gives an empty list. *)
Theorem similar_patterns_result {sci : SciPy}
        self pdf strikes stats history matches :
  PDFPatternMatcher.find_similar_patterns self pdf strikes stats history
  = Ok matches ->
  Forall (fun m =>
            PDFPatternMatcher.similarity_threshold self
            <= PDFPatternMatcher.m_similarity m
            /\ exists h,
                 In h history
                 /\ PDFPatternMatcher.m_date m = PDFPatternMatcher.h_date h
                 /\ PDFPatternMatcher.m_stats m = PDFPatternMatcher.h_stats h
                 /\ PDFPatternMatcher.m_description m
                    = PDFPatternMatcher._generate_description h
                 /\ PDFPatternMatcher._calculate_similarity pdf strikes stats
                      (PDFPatternMatcher.h_pdf h) (PDFPatternMatcher.h_strikes h)
                      (PDFPatternMatcher.h_stats h)
                    = Ok (PDFPatternMatcher.m_similarity m))
         matches
  /\ Sorted (fun a b => PDFPatternMatcher.m_similarity b
                        <= PDFPatternMatcher.m_similarity a) matches
  /\ (length matches <= length history)%nat
  /\ ((0 <= PDFPatternMatcher.max_matches self)%Z ->
      (Z.of_nat (length matches) <= PDFPatternMatcher.max_matches self)%Z)
  /\ (history = [] -> matches = []).
Proof.
  unfold PDFPatternMatcher.find_similar_patterns.
  destruct history as [|h rest].
  { intro H. injection H as <-.
    repeat split; try constructor; cbn; lia. }
  destruct (PDFPatternMatcher.collect_matches self pdf strikes stats (h :: rest))
    as [ms|e] eqn:Ec; cbn [bind]; [|discriminate].
  intro H. injection H as <-.
  destruct (collect_matches_spec _ _ _ _ _ _ Ec) as [Hall Hlen].
  destruct (slice_to_firstn (PDFPatternMatcher.sort_desc ms)
              (PDFPatternMatcher.max_matches self)) as (k & -> & Hk).
  split; [|split; [|split; [|split]]].
  - apply Forall_firstn.
    rewrite Forall_forall in *. intros m Hm. apply Hall.
    eapply Permutation_in; [apply sort_desc_perm|exact Hm].
  - apply sorted_firstn, sort_desc_sorted.
  - rewrite length_firstn, (Permutation_length (sort_desc_perm ms)). lia.
  - intro Hpos. rewrite length_firstn, (Hk Hpos). lia.
  - discriminate.
Qed.

Lemma two_days_search_ok :
  is_ok (@PDFPatternMatcher.find_similar_patterns qsci best_match
           [1; 2; 1] [0; 1; 2] [("skewness", 0)] two_days) = true.
Proof. vm_compute. reflexivity. Qed.

Lemma similar_patterns_result_witness :
  exists matches,
    @PDFPatternMatcher.find_similar_patterns qsci best_match
      [1; 2; 1] [0; 1; 2] [("skewness", 0)] two_days = Ok matches
    /\ (length matches <= 1)%nat
    /\ Forall (fun m => 0.5 <= PDFPatternMatcher.m_similarity m) matches.
Proof.
  pose proof two_days_search_ok as Hok.
  destruct (@PDFPatternMatcher.find_similar_patterns qsci best_match
              [1; 2; 1] [0; 1; 2] [("skewness", 0)] two_days) as [ms|e] eqn:E.
  - exists ms. split; [reflexivity|].
    destruct (@similar_patterns_result qsci _ _ _ _ _ _ E)
      as (Hall & _ & _ & Hmax & _).
    split.
    + specialize (Hmax ltac:(cbn; lia)). cbn in Hmax. lia.
    + eapply Forall_impl; [|exact Hall]. cbv beta. intros m [Hm _]. exact Hm.
  - discriminate Hok.
Defined.

(** ** The extractor carries no state into a calculation *)

(** X25. What [calculate_from_options] returns does not depend on the
    object it is called on: it is what the module-level
    [calculate_pdf_from_options] returns on a fresh extractor, and after a
    success the object holds the new fit only. *)
Theorem calculation_ignores_previous_fit {sci : SciPy} {cst : Constants}
        self df spot r T ot im :
  snd (BreedenlitzenbergPDF.calculate_from_options self df spot r T ot im)
  = calculate_pdf_from_options df spot r T ot im
  /\ (is_ok (calculate_pdf_from_options df spot r T ot im) = true ->
      fst (BreedenlitzenbergPDF.calculate_from_options self df spot r T ot im)
      = fst (BreedenlitzenbergPDF.calculate_from_options
               BreedenlitzenbergPDF.__init__ df spot r T ot im)).
Proof.
  unfold calculate_pdf_from_options, BreedenlitzenbergPDF.calculate_from_options.
  destruct (length _ <? MIN_STRIKES_FOR_PDF)%nat; [split; [reflexivity|discriminate]|].
  match goal with
  | |- context [bind ?m ?k] => destruct (bind m k) as [p|e]
  end; [|split; [reflexivity|discriminate]].
  cbn [BreedenlitzenbergPDF.pdf BreedenlitzenbergPDF.strikes BreedenlitzenbergPDF.cdf
       BreedenlitzenbergPDF.spot BreedenlitzenbergPDF.params].
  destruct (BreedenlitzenbergPDF._calculate_cdf _ p) as [c|e];
    [split; reflexivity | split; [reflexivity|discriminate]].
Qed.

Lemma calculation_ignores_previous_fit_witness :
  fst (@BreedenlitzenbergPDF.calculate_from_options qsci constants_small
         fitted flat_chain 100 0.05 (1 # 12) "call" "spline")
  = fst (run_flat "call" "spline").
Proof.
  apply (@calculation_ignores_previous_fit qsci constants_small
           fitted flat_chain 100 0.05 (1 # 12) "call" "spline").
  unfold calculate_pdf_from_options. exact run_flat_call_spline_ok.
Defined.

Lemma smoothing_window_witness :
  @BreedenlitzenbergPDF.smooth qsci [1; 2; 3; 4] = [1; 2; 3; 4]
  /\ (BreedenlitzenbergPDF.window_length 6 mod 2 = 1)%Z
  /\ BreedenlitzenbergPDF.window_length (length (repeat 1 500)) = 51%Z.
Proof.
  split; [|split].
  - apply (proj1 (@smoothing_window qsci [1; 2; 3; 4])). cbn. lia.
  - refine (proj1 (proj1 (proj2 (@smoothing_window qsci [1; 2; 3; 4; 5; 6]) _))).
    cbn. lia.
  - destruct (proj2 (@smoothing_window qsci (repeat 1 500)))
      as [(_ & _ & _ & _ & _ & Hbig) _].
    + rewrite repeat_length. lia.
    + apply Hbig. rewrite repeat_length. lia.
Defined.

(** ** The spline does not depend on the order of the quotes *)

Lemma insert_by_sorted_keys {A} (key : A -> float) a l :
  Sorted Qle (map key l) -> Sorted Qle (map key (np.insert_by key a l)).
Proof.
  induction l as [|b l IH]; intro Hs; [repeat constructor|].
  cbn [np.insert_by]. destruct (flt (key a) (key b)) eqn:E.
  - apply flt_iff in E. cbn [map]. constructor; [exact Hs|].
    constructor. now apply Qlt_le_weak.
  - apply flt_false in E. cbn [map] in *.
    inversion Hs as [|? ? Hs' Hh]; subst.
    constructor; [now apply IH|].
    destruct l as [|c l]; cbn [np.insert_by map].
    + constructor. exact E.
    + destruct (flt (key a) (key c)); cbn [map]; constructor; [exact E|].
      now inversion Hh.
Qed.

(** [sort_by] returns its rows in non-decreasing order of the key. *)
Lemma sort_by_sorted_keys {A} (key : A -> float) l :
  Sorted Qle (map key (np.sort_by key l)).
Proof.
  unfold np.sort_by.
  assert (G : forall acc, Sorted Qle (map key acc) ->
             Sorted Qle (map key (fold_left (fun acc a => np.insert_by key a acc) l acc))).
  { induction l as [|a l IH]; intros acc Ha; cbn [fold_left]; [exact Ha|].
    apply IH. now apply insert_by_sorted_keys. }
  apply G. constructor.
Qed.

(** Two arrangements of the same points, one of strictly increasing and
    one of non-decreasing abscissa, are the same list. *)
Lemma sorted_arrangement_unique (l1 : list (Q * Q)) : forall l2,
  Permutation l1 l2 ->
  Sorted Qlt (map fst l1) -> Sorted Qle (map fst l2) -> l1 = l2.
Proof.
  induction l1 as [|a1 t1 IH]; intros l2 Hp H1 H2.
  { apply Permutation_nil in Hp. now subst. }
  destruct l2 as [|a2 t2]; [apply Permutation_sym, Permutation_nil in Hp; discriminate|].
  assert (Ha : a1 = a2).
  { assert (I2 : In a2 (a1 :: t1))
      by (eapply Permutation_in; [apply Permutation_sym; exact Hp | now left]).
    assert (I1 : In a1 (a2 :: t2))
      by (eapply Permutation_in; [exact Hp | now left]).
    destruct I2 as [E|I2]; [exact E|].
    destruct I1 as [E|I1]; [now symmetry|].
    exfalso.
    apply Sorted_StronglySorted in H1; [|exact Qlt_trans].
    apply Sorted_StronglySorted in H2; [|intros x y z; apply Qle_trans].
    cbn [map] in H1, H2.
    inversion H1 as [|? ? _ F1]; subst. inversion H2 as [|? ? _ F2]; subst.
    rewrite Forall_forall in F1, F2.
    specialize (F1 (fst a2) (in_map fst _ _ I2)).
    specialize (F2 (fst a1) (in_map fst _ _ I1)). lra. }
  subst a2. f_equal. apply IH.
  - now apply Permutation_cons_inv in Hp.
  - cbn [map] in H1. now inversion H1.
  - cbn [map] in H2. now inversion H2.
Qed.

Lemma sorted_strictly_increasing x :
  Sorted Qlt x -> CubicSplineInterpolator.strictly_increasing x = true.
Proof.
  induction x as [|x0 x IH]; intro H; [reflexivity|].
  destruct x as [|x1 x]; [reflexivity|].
  cbn [CubicSplineInterpolator.strictly_increasing].
  inversion H as [|? ? Hs Hh]; subst. inversion Hh as [|? ? H01]; subst.
  apply andb_true_intro. split; [now apply flt_iff|now apply IH].
Qed.

Lemma valid_mask_perm s1 i1 s2 i2 :
  Permutation (combine s1 i1) (combine s2 i2) ->
  Permutation (np.sort_by fst (valid_mask s1 i1)) (np.sort_by fst (valid_mask s2 i2)).
Proof.
  intro Hp. rewrite !sort_by_perm. unfold valid_mask. now apply filter_perm.
Qed.

(** X26. The spline calibration does not depend on the order in which
    the quotes are given: two inputs holding the same (strike, volatility)
    pairs in different orders give the same outcome, be it the same fitted
    object and statistics or the same error. *)
Theorem spline_ignores_quote_order {sci : SciPy} self s1 i1 s2 i2 :
  length s1 = length i1 -> length s2 = length i2 ->
  Permutation (combine s1 i1) (combine s2 i2) ->
  CubicSplineInterpolator.calibrate self s1 i1
  = CubicSplineInterpolator.calibrate self s2 i2.
Proof.
  intros _ _ Hp. apply valid_mask_perm in Hp.
  unfold CubicSplineInterpolator.calibrate, CubicSplineInterpolator.CubicSpline.
  set (k1 := np.sort_by fst (valid_mask s1 i1)) in *.
  set (k2 := np.sort_by fst (valid_mask s2 i2)) in *.
  pose proof (sort_by_sorted_keys fst (valid_mask s1 i1)) as S1.
  pose proof (sort_by_sorted_keys fst (valid_mask s2 i2)) as S2.
  fold k1 in S1. fold k2 in S2.
  rewrite !length_map, (Permutation_length Hp).
  destruct (length k2 <? 2)%nat; [reflexivity|].
  destruct (CubicSplineInterpolator.strictly_increasing (map fst k1)) eqn:E1.
  - assert (E : k1 = k2).
    { apply sorted_arrangement_unique; [exact Hp| |exact S2].
      now apply strictly_increasing_sorted. }
    now rewrite <- E, E1.
  - destruct (CubicSplineInterpolator.strictly_increasing (map fst k2)) eqn:E2;
      [|reflexivity].
    assert (E : k2 = k1).
    { apply sorted_arrangement_unique;
        [now apply Permutation_sym| |exact S1].
      now apply strictly_increasing_sorted. }
    rewrite E in E2. congruence.
Qed.

Lemma spline_ignores_quote_order_witness :
  @CubicSplineInterpolator.calibrate qsci CubicSplineInterpolator.__init__
    [110; 90; 100] [0.25; 0.22; 0.2]
  = @CubicSplineInterpolator.calibrate qsci CubicSplineInterpolator.__init__
      [90; 100; 110] [0.22; 0.2; 0.25].
Proof.
  apply (@spline_ignores_quote_order qsci); try reflexivity.
  cbn [combine].
  apply Permutation_sym.
  apply (perm_trans (l' := [(90, 0.22); (110, 0.25); (100, 0.2)])).
  - apply perm_skip. apply perm_swap.
  - apply perm_swap.
Defined.

(** ** Larger moves are not more likely *)

Lemma filter_filter_implied {A} (f g : A -> bool) l :
  (forall a, f a = true -> g a = true) ->
  filter f (filter g l) = filter f l.
Proof.
  intro H. induction l as [|a l IH]; [reflexivity|].
  cbn [filter]. destruct (g a) eqn:G.
  - cbn [filter]. now rewrite IH.
  - destruct (f a) eqn:F; [rewrite (H a F) in G; discriminate|exact IH].
Qed.

Lemma nonneg_snd_filter (f : Q * Q -> bool) l :
  Forall (fun v => 0 <= v) (map snd l) ->
  Forall (fun v => 0 <= v) (map snd (filter f l)).
Proof.
  rewrite !Forall_map, !Forall_forall. intros H p Hp.
  apply filter_In in Hp. now apply H.
Qed.

(** X27. A larger move is never more likely: for a non-negative density
    on a non-decreasing grid of the same length and a non-negative spot,
    the upside tail probability does not grow with the size of an upward
    move, nor the downside tail probability with the size of a downward
    move.  (So [prob_up_10pct <= prob_up_5pct] and
    [prob_down_10pct <= prob_down_5pct] in the summary.) *)
Theorem tail_probability_monotone (self : PDFStatistics.t) m1 m2 :
  length (PDFStatistics.strikes self) = length (PDFStatistics.pdf self) ->
  Sorted Qle (PDFStatistics.strikes self) ->
  Forall (fun v => 0 <= v) (PDFStatistics.pdf self) ->
  0 <= PDFStatistics.spot self ->
  m1 <= m2 ->
  exists p1 p2,
    PDFStatistics.calculate_tail_probability self m1 = Ok p1
    /\ PDFStatistics.calculate_tail_probability self m2 = Ok p2
    /\ (0 <= m1 -> p2 <= p1)
    /\ (m2 < 0 -> p1 <= p2).
Proof.
  intros Hlen Hs Hp Hspot Hm. unfold PDFStatistics.calculate_tail_probability.
  rewrite Hlen, Nat.eqb_refl. cbn [negb].
  set (l := combine (PDFStatistics.strikes self) (PDFStatistics.pdf self)).
  assert (Hf : map fst l = PDFStatistics.strikes self)
    by (apply map_fst_combine; exact Hlen).
  assert (Hsn : map snd l = PDFStatistics.pdf self)
    by (apply map_snd_combine; exact Hlen).
  rewrite <- Hf in Hs. rewrite <- Hsn in Hp.
  set (t1 := fmul (PDFStatistics.spot self) (fadd 1 (fdivide m1 100))).
  set (t2 := fmul (PDFStatistics.spot self) (fadd 1 (fdivide m2 100))).
  assert (Ht : t1 <= t2).
  { unfold t1, t2. rewrite !fmul_correct, !fadd_correct, !fdivide_correct.
    assert (m1 / 100 <= m2 / 100)
      by (apply Qmult_le_compat_r; [exact Hm | vm_compute; discriminate]).
    revert H. generalize (m1 / 100) (m2 / 100). intros a b Hab.
    revert Hspot. generalize (PDFStatistics.spot self). intros s Hs0.
    assert (0 <= s * (b - a)) by (apply Qmult_le_0_compat; lra).
    unfold float in *. nra. }
  eexists. eexists. split; [reflexivity|]. split; [reflexivity|]. split.
  - intro H1.
    assert (E1 : flt m1 0 = false) by (apply flt_false; exact H1).
    assert (E2 : flt m2 0 = false) by (apply flt_false; lra).
    rewrite E1, E2. fold t1 t2.
    rewrite <- (filter_filter_implied (fun p => fge (fst p) t2)
                                      (fun p => fge (fst p) t1) l).
    + apply upper_tail_le; [now apply sorted_fst_filter|now apply nonneg_snd_filter].
    + intros p H2. unfold fge in *. apply fle_iff. apply fle_iff in H2. lraq.
  - intro H2.
    assert (E2 : flt m2 0 = true) by (apply flt_iff; exact H2).
    assert (E1 : flt m1 0 = true) by (apply flt_iff; lra).
    rewrite E1, E2. fold t1 t2.
    rewrite <- (filter_filter_implied (fun p => fle (fst p) t1)
                                      (fun p => fle (fst p) t2) l).
    + apply lower_tail_le; [now apply sorted_fst_filter|now apply nonneg_snd_filter].
    + intros p H1. apply fle_iff. apply fle_iff in H1. lraq.
Qed.

Lemma tail_probability_monotone_witness :
  exists p1 p2,
    PDFStatistics.calculate_tail_probability tent 5 = Ok p1
    /\ PDFStatistics.calculate_tail_probability tent 10 = Ok p2
    /\ p2 <= p1.
Proof.
  destruct (tail_probability_monotone tent 5 10 eq_refl tent_sorted tent_nonneg)
    as (p1 & p2 & H1 & H2 & Hup & _).
  - discriminate.
  - discriminate.
  - exists p1, p2. split; [exact H1|]. split; [exact H2|].
    apply Hup. discriminate.
Defined.

(** ** What the calculation reads from the quotes *)

Section QuoteProps.
Context {sci : SciPy} {cst : Constants}.

(** Two rows that differ at most in a price of the same sign class. *)
Lemma in_band_same_quote lo hi (a b : OptionRow) :
  strike a = strike b -> (0 < price a <-> 0 < price b) ->
  BreedenlitzenbergPDF.in_band lo hi a = BreedenlitzenbergPDF.in_band lo hi b.
Proof.
  intros Hk Hp. unfold BreedenlitzenbergPDF.in_band. rewrite Hk. f_equal.
  destruct (fgt (price a) 0) eqn:Ea, (fgt (price b) 0) eqn:Eb; try reflexivity.
  - apply fgt_iff in Ea. apply Hp in Ea. apply fgt_iff in Ea. congruence.
  - apply fgt_iff in Eb. apply Hp in Eb. apply fgt_iff in Eb. congruence.
Qed.

Lemma filter_same_quotes lo hi (df df' : list OptionRow) :
  Forall2 (fun a b => strike a = strike b
                      /\ impliedVolatility a = impliedVolatility b
                      /\ (0 < price a <-> 0 < price b)) df df' ->
  Forall2 (fun a b => strike a = strike b
                      /\ impliedVolatility a = impliedVolatility b)
          (filter (BreedenlitzenbergPDF.in_band lo hi) df)
          (filter (BreedenlitzenbergPDF.in_band lo hi) df').
Proof.
  induction 1 as [|a b df df' (Hk & Hv & Hp) _ IH]; [constructor|].
  cbn [filter]. rewrite (in_band_same_quote lo hi a b Hk Hp).
  destruct (BreedenlitzenbergPDF.in_band lo hi b); [|exact IH].
  constructor; [split; assumption|exact IH].
Qed.

Lemma insert_same_quotes (a b : OptionRow) l l' :
  strike a = strike b /\ impliedVolatility a = impliedVolatility b ->
  Forall2 (fun a b => strike a = strike b
                      /\ impliedVolatility a = impliedVolatility b) l l' ->
  Forall2 (fun a b => strike a = strike b
                      /\ impliedVolatility a = impliedVolatility b)
          (np.insert_by strike a l) (np.insert_by strike b l').
Proof.
  intros Hab. induction 1 as [|c d l l' Hcd Hl IH]; [repeat constructor; tauto|].
  cbn [np.insert_by]. destruct Hab as [Hk Hv]. destruct Hcd as [Hk' Hv'].
  rewrite Hk, Hk'. destruct (flt (strike b) (strike d)).
  - constructor; [tauto|]. constructor; [tauto|exact Hl].
  - constructor; [tauto|]. exact IH.
Qed.

Lemma sort_same_quotes (l l' : list OptionRow) :
  Forall2 (fun a b => strike a = strike b
                      /\ impliedVolatility a = impliedVolatility b) l l' ->
  Forall2 (fun a b => strike a = strike b
                      /\ impliedVolatility a = impliedVolatility b)
          (np.sort_by strike l) (np.sort_by strike l').
Proof.
  unfold np.sort_by. intro H.
  assert (G : forall acc acc',
             Forall2 (fun a b => strike a = strike b
                                 /\ impliedVolatility a = impliedVolatility b)
                     acc acc' ->
             Forall2 (fun a b => strike a = strike b
                                 /\ impliedVolatility a = impliedVolatility b)
                     (fold_left (fun acc a => np.insert_by strike a acc) l acc)
                     (fold_left (fun acc a => np.insert_by strike a acc) l' acc')).
  { induction H as [|a b l l' Hab _ IH]; intros acc acc' Hacc; [exact Hacc|].
    cbn [fold_left]. apply IH. now apply insert_same_quotes. }
  apply G. constructor.
Qed.

Lemma same_quotes_columns (l l' : list OptionRow) :
  Forall2 (fun a b => strike a = strike b
                      /\ impliedVolatility a = impliedVolatility b) l l' ->
  map strike l = map strike l'
  /\ map impliedVolatility l = map impliedVolatility l'
  /\ length l = length l'.
Proof.
  induction 1 as [|a b l l' [Hk Hv] _ (IH1 & IH2 & IH3)]; [repeat split|].
  cbn. rewrite Hk, Hv, IH1, IH2, IH3. repeat split.
Qed.

End QuoteProps.

(** X28. The quoted prices enter [calculate_from_options] only through
    the filter [price > 0]: two chains with the same strikes and implied
    volatilities, row by row, whose prices are positive in the same rows,
    give the same outcome and leave the same object. *)
Theorem prices_only_filter {sci : SciPy} {cst : Constants}
        self df df' spot r T ot im :
  Forall2 (fun a b => strike a = strike b
                      /\ impliedVolatility a = impliedVolatility b
                      /\ (0 < price a <-> 0 < price b)) df df' ->
  BreedenlitzenbergPDF.calculate_from_options self df spot r T ot im
  = BreedenlitzenbergPDF.calculate_from_options self df' spot r T ot im.
Proof.
  intro H.
  pose proof (filter_same_quotes (fmul spot MIN_STRIKE_PCT) (fmul spot MAX_STRIKE_PCT)
                _ _ H) as Hf.
  destruct (same_quotes_columns _ _ Hf) as (_ & _ & Hlen).
  destruct (same_quotes_columns _ _ (sort_same_quotes _ _ Hf)) as (Hk & Hv & _).
  unfold BreedenlitzenbergPDF.calculate_from_options.
  rewrite Hlen, Hk, Hv. reflexivity.
Qed.

Lemma prices_only_filter_witness :
  @BreedenlitzenbergPDF.calculate_from_options qsci constants_small
    BreedenlitzenbergPDF.__init__
    (map (fun k => {| strike := k; price := 7; impliedVolatility := 0.2 |})
         [90; 95; 100; 105; 110])
    100 0.05 (1 # 12) "call" "spline"
  = run_flat "call" "spline".
Proof.
  apply (@prices_only_filter qsci constants_small).
  unfold flat_chain. cbn [map].
  repeat (constructor; [repeat split; intros _; reflexivity|]).
  constructor.
Defined.

(** X29. [calculate_from_options] does not validate [option_type]: every
    value other than ['call'] is priced with the put formula, so it returns
    what ['put'] returns. *)
Theorem option_type_defaults_to_put {sci : SciPy} {cst : Constants}
        self df spot r T ot im :
  ot <> "call" ->
  snd (BreedenlitzenbergPDF.calculate_from_options self df spot r T ot im)
  = snd (BreedenlitzenbergPDF.calculate_from_options self df spot r T "put" im).
Proof.
  intro H. apply String.eqb_neq in H.
  unfold BreedenlitzenbergPDF.calculate_from_options. rewrite H.
  change (String.eqb "put" "call") with false.
  destruct (length _ <? MIN_STRIKES_FOR_PDF)%nat; [reflexivity|].
  match goal with
  | |- context [bind ?m ?k] => destruct (bind m k) as [p|e]
  end; [|reflexivity].
  cbn [BreedenlitzenbergPDF.pdf BreedenlitzenbergPDF.strikes BreedenlitzenbergPDF.cdf
       BreedenlitzenbergPDF.spot BreedenlitzenbergPDF.params].
  destruct (BreedenlitzenbergPDF._calculate_cdf _ p); reflexivity.
Qed.

Lemma option_type_defaults_to_put_witness :
  snd (@BreedenlitzenbergPDF.calculate_from_options qsci constants_small
         BreedenlitzenbergPDF.__init__ flat_chain 100 0.05 (1 # 12) "CALL" "spline")
  = snd (run_flat "put" "spline").
Proof.
  apply (@option_type_defaults_to_put qsci constants_small). discriminate.
Defined.

Lemma objective_nonnegative_witness :
  @SABRModel.objective qsci (SABRModel.__init__ 0.5)
    smile_strikes smile_ivs 100 (1 # 12) (- (1), 0, 0.3) = 10000000000.
Proof.
  apply (proj2 (@objective_nonnegative qsci (SABRModel.__init__ 0.5)
                  smile_strikes smile_ivs 100 (1 # 12) (- (1)) 0 0.3)).
  left. vm_compute. discriminate.
Defined.

Lemma stats_similarity_properties_witness :
  0 <= @PDFPatternMatcher._stats_similarity qsci
         [("skewness", 0)] [("skewness", 0.1)] <= 1.
Proof.
  exact (proj2 (proj2 (@stats_similarity_properties qsci
                         [("skewness", 0)] [("skewness", 0.1)]))
           rational_exp_nonneg rational_exp_le_one).
Defined.
